(** * Raster class masks, coverage evolution and NDVI

    A shallow embedding of the repository:
    - [classes_reader.py]  (class [ClassesReader]): the class registry, the
      class detector, and what [show_band], [show_class] and
      [show_class_list] read and return;
    - [ground_truth.py]    (class [GroundTruth] and [main]): the coverage
      statistic, the date label, the evolution matrix, the table that
      [store_mask_evol] builds and the loop over the folders;
    - [sat_image_reader.py] (class [SatImageReader]): the NDVI computation
      and its display, and what [show_band], [show_band_hist], [show_rgb]
      and [show_rgb_hist] read and hand to the plotting library;
    - [subfolder.py]: the scan of a directory listing.

    Plotting and the table library are outside: a plot is described by
    what it is given, and the calls whose behaviour the code relies on
    ([plt.subplots], [plt.hist], [pd.DataFrame], [to_csv]) are parameters.

    A Python [str] is kept as the UTF-8 encoding of its code points; what
    [re] and [str.strip] decide by the character ([\d], white space) is
    decided on the decoded code points.

    Python exceptions are values of [exn]; a computation that may raise has
    type [result A].  The raster backend (rasterio) is modelled by a dataset
    holding its bands, and by a file system that opens paths.

    The code of [classes_reader.py] and [ground_truth.py] is written over
    an interface [Arithmetic] of the operations it applies to samples, with
    two instances: binary32 numbers, and rationals without rounding.  The
    NDVI is computed on binary32 numbers (IEEE 754, round to nearest
    even).  What is proved of a sum in binary32 is proved for every order
    in which [np.sum] may add the items ([summation]). *)

From Stdlib Require Import String Ascii.
From Stdlib Require Import ZArith QArith Qpower Lia Lqa Bool List.
From Stdlib Require Import Sorted Permutation Mergesort Orders.
From Stdlib Require Import DecimalString DecimalZ.
From Stdlib Require Import SpecFloat.
Import ListNotations.

Local Open Scope string_scope.
Local Open Scope list_scope.
Local Open Scope Z_scope.

(* ===================================================================== *)
(** * Python runtime: exceptions and results *)
(* ===================================================================== *)

(** The exceptions the modelled code can meet.  [SystemExit] derives from
    [BaseException] only, so an [except Exception] clause lets it through. *)
Inductive exn : Type :=
| RasterioIOError
| IndexError
| ValueError
| KeyError
| FileNotFoundError
| SystemExit.

Definition is_Exception (e : exn) : bool :=
  match e with
  | SystemExit => false
  | _ => true
  end.

Inductive result (A : Type) : Type :=
| Return (a : A)
| Raise (e : exn).
Arguments Return {A} a.
Arguments Raise {A} e.

Definition bind {A B : Type} (c : result A) (k : A -> result B) : result B :=
  match c with
  | Return a => k a
  | Raise e => Raise e
  end.

Notation "x <- c ;; k" := (bind c (fun x => k))
  (at level 61, c at next level, right associativity).

(** [try: c except e: h] for a handler that filters on the exception. *)
Definition try_except {A : Type} (c : result A) (handles : exn -> bool)
  (h : exn -> result A) : result A :=
  match c with
  | Return a => Return a
  | Raise e => if handles e then h e else Raise e
  end.

Definition is_RasterioIOError (e : exn) : bool :=
  match e with
  | RasterioIOError => true
  | _ => false
  end.

(** The results of [f] on the items of [l] in turn, up to the first one
    that raises. *)
Fixpoint collect {A B : Type} (f : A -> result B) (l : list A) : result (list B) :=
  match l with
  | [] => Return []
  | a :: l' => b <- f a ;; bs <- collect f l' ;; Return (b :: bs)
  end.

(** [range(lo, hi)] *)
Definition range (lo hi : Z) : list Z :=
  map (fun k => lo + Z.of_nat k) (seq 0 (Z.to_nat (hi - lo))).

(** [f"{n}"] for an [int]. *)
Definition str_of_int (n : Z) : string :=
  NilEmpty.string_of_int (Z.to_int n).

(* ===================================================================== *)
(** * The raster backend *)
(* ===================================================================== *)

(** A band is a 2-D array, kept as the list of its rows. *)
Definition Grid (A : Type) : Type := list (list A).

Definition rectangular {A : Type} (g : Grid A) : Prop :=
  forall row, In row g -> length row = length (hd [] g).

(** [band.shape] *)
Definition shape {A : Type} (g : Grid A) : Z * Z :=
  (Z.of_nat (length g), Z.of_nat (length (hd [] g))).

Definition grid_map {A B : Type} (f : A -> B) (g : Grid A) : Grid B :=
  map (map f) g.

Fixpoint zip_with {A B C : Type} (f : A -> B -> C) (l1 : list A) (l2 : list B)
  : list C :=
  match l1, l2 with
  | a :: l1', b :: l2' => f a b :: zip_with f l1' l2'
  | _, _ => []
  end.

(** Elementwise binary operation on two arrays of one shape. *)
Definition grid_map2 {A B C : Type} (f : A -> B -> C) (g1 : Grid A) (g2 : Grid B)
  : Grid C :=
  zip_with (zip_with f) g1 g2.

(** All pixels, row after row. *)
Definition flatten {A : Type} (g : Grid A) : list A := concat g.

(** A stored band either decodes to a grid or is damaged, in which case
    reading it raises [RasterioIOError]. *)
Inductive Band (A : Type) : Type :=
| Readable (g : Grid A)
| Corrupt.
Arguments Readable {A} g.
Arguments Corrupt {A}.

(** An open dataset ([rasterio.DatasetReader]) with samples of type [A]. *)
Record Dataset (A : Type) : Type := { bands : list (Band A) }.
Arguments bands {A} d.
Arguments Build_Dataset {A} bands.

(** [dataset.count] *)
Definition count {A : Type} (d : Dataset A) : Z := Z.of_nat (length (bands d)).

(** [dataset.read(i)]: band indices start at 1; an index outside
    [1..count] raises [IndexError]. *)
Definition read {A : Type} (d : Dataset A) (i : Z) : result (Grid A) :=
  if (1 <=? i) && (i <=? count d) then
    match nth_error (bands d) (Z.to_nat (i - 1)) with
    | Some (Readable g) => Return g
    | Some Corrupt => Raise RasterioIOError
    | None => Raise IndexError
    end
  else Raise IndexError.

(** Every band of the dataset decodes. *)
Definition all_readable {A : Type} (d : Dataset A) : Prop :=
  forall b, In b (bands d) -> b <> Corrupt.

(** The part of the file system the code looks at: directory listings and
    the rasters behind paths. *)
Record FileSystem (A : Type) : Type := {
  listdir : string -> result (list string);
  open : string -> result (Dataset A)
}.
Arguments listdir {A} f _.
Arguments open {A} f _.

(* ===================================================================== *)
(** * Python dictionaries *)
(* ===================================================================== *)

(** A [dict] keeps its items in insertion order; assigning to a key that is
    present replaces the value in place. *)
Section Dict.
Context {K V : Type}.
Variable eqb : K -> K -> bool.

Definition dict : Type := list (K * V).

Fixpoint dict_set (d : dict) (k : K) (v : V) : dict :=
  match d with
  | [] => [(k, v)]
  | (k', v') :: d' =>
      if eqb k' k then (k', v) :: d' else (k', v') :: dict_set d' k v
  end.

Fixpoint dict_find (d : dict) (k : K) : option V :=
  match d with
  | [] => None
  | (k', v') :: d' => if eqb k' k then Some v' else dict_find d' k
  end.


(** [d.get(k, default)] *)
Definition dict_get (d : dict) (k : K) (default : V) : V :=
  match dict_find d k with
  | Some v => v
  | None => default
  end.
End Dict.
Arguments dict : clear implicits.

(* ===================================================================== *)
(** * Numbers *)
(* ===================================================================== *)

(** An IEEE 754 binary32 number ([np.float32]). *)
Definition float32 : Type := spec_float.

Definition prec : Z := 24.
Definition emax : Z := 128.

Definition f32_add : float32 -> float32 -> float32 := SFadd prec emax.
Definition f32_sub : float32 -> float32 -> float32 := SFsub prec emax.
Definition f32_mul : float32 -> float32 -> float32 := SFmul prec emax.
Definition f32_div : float32 -> float32 -> float32 := SFdiv prec emax.
Definition f32_eqb : float32 -> float32 -> bool := SFeqb.
Definition f32_ltb : float32 -> float32 -> bool := SFltb.
Definition f32_zero : float32 := S754_zero false.

(** The integer [z] as a binary32 number (rounded to nearest even). *)
Definition f32_of_Z (z : Z) : float32 := binary_normalize prec emax z 0 false.

(** [np.isfinite(x)] *)
Definition is_finite (x : float32) : bool :=
  match x with
  | S754_zero _ => true
  | S754_finite _ _ _ => true
  | _ => false
  end.

(** [np.maximum(a, b)]: a NaN wins. *)
Definition f32_max (a b : float32) : float32 :=
  match a, b with
  | S754_nan, _ => a
  | _, S754_nan => b
  | _, _ => if f32_ltb a b then b else a
  end.

(** The items added from left to right, which is the order of [np.sum] on
    fewer than eight items. *)
Definition f32_sum (l : list float32) : float32 :=
  match l with
  | [] => f32_zero
  | x :: rest => fold_left f32_add rest x
  end.

Definition qmax (a b : Q) : Q := if Qle_bool a b then b else a.

Definition qsum (l : list Q) : Q := fold_right Qplus 0%Q l.

(** The operations that the code applies to the samples of a raster.
    What is proved without naming an instance holds whatever the format of
    the samples, the rounding and the order in which [np.sum] adds. *)
Class Arithmetic (F : Type) : Type := {
  num_of_int : Z -> F;          (* a Python [int] met in an expression *)
  num_eqb : F -> F -> bool;     (* [==] *)
  num_sum : list F -> F;        (* [np.sum] *)
  num_max : F -> F -> F;        (* the step of [np.max] *)
  num_div : F -> F -> F;        (* [/] *)
  num_mul : F -> F -> F         (* [*] *)
}.

(** Samples and operations without rounding. *)
#[export] Instance exact : Arithmetic Q := {
  num_of_int := inject_Z;
  num_eqb := Qeq_bool;
  num_sum := qsum;
  num_max := qmax;
  num_div := Qdiv;
  num_mul := Qmult
}.

(** binary32 samples and operations. *)
#[export] Instance binary32 : Arithmetic float32 := {
  num_of_int := f32_of_Z;
  num_eqb := f32_eqb;
  num_sum := f32_sum;
  num_max := f32_max;
  num_div := f32_div;
  num_mul := f32_mul
}.

(** [np.sum] adds the items two by two in an order that depends on their
    number and on the layout of the array (one after the other up to
    seven items, by blocks and pairs beyond).  [summation l s]: [s] is the
    result of adding the items of [l] in some order; the sum of no item
    is a zero. *)
Inductive summation : list float32 -> float32 -> Prop :=
| sum_identity (s : bool) : summation [] (S754_zero s)
| sum_item (x : float32) : summation [x] x
| sum_add (l l1 l2 : list float32) (s1 s2 : float32) :
    Permutation l (l1 ++ l2) -> summation l1 s1 -> summation l2 s2 ->
    summation l (f32_add s1 s2).

(** binary32 samples and operations, for a given [np.sum]. *)
Definition binary32_with (np_sum32 : list float32 -> float32)
  : Arithmetic float32 := {|
  num_of_int := f32_of_Z;
  num_eqb := f32_eqb;
  num_sum := np_sum32;
  num_max := f32_max;
  num_div := f32_div;
  num_mul := f32_mul
|}.

(* ===================================================================== *)
(** * classes_reader.py *)
(* ===================================================================== *)

Module ClassesReader.

Definition class_table : dict string Z :=
  [ ("Impervious surfaces", 1);
    ("Agriculture", 2);
    ("Forest", 3);
    ("Wetlands", 4);
    ("Soil", 5);
    ("Water", 6);
    ("Snow", 7) ].

(** [{v: k for k, v in d.items()}] *)
Definition invert (d : dict string Z) : dict Z string :=
  fold_left (fun acc kv => dict_set Z.eqb acc (snd kv) (fst kv)) d [].

Section WithSamples.
Context {F : Type} {arith : Arithmetic F}.

Record t : Type := {
  file_path : string;
  image : Dataset F;
  bandes : Z;
  dict_classes : dict string Z;
  reverse_dict_classes : dict Z string
}.

(** [ClassesReader.__init__] *)
Definition init (fs : FileSystem F) (path : string) : result t :=
  try_except
    (img <- open fs path ;;
     Return {| file_path := path;
               image := img;
               bandes := count img;
               dict_classes := class_table;
               reverse_dict_classes := invert class_table |})
    is_RasterioIOError
    (fun _ => Raise SystemExit).


(** [self.reverse_dict_classes.get(classe, f"Unknown Class ({classe})")],
    the value bound to [classe_name] in [show_class] and
    [show_class_list]. *)
Definition name_of (self : t) (classe : Z) : string :=
  dict_get Z.eqb (reverse_dict_classes self) classe
    ("Unknown Class (" ++ str_of_int classe ++ ")")%string.

(** [np.any(data)]: some pixel is not zero. *)
Definition np_any (data : Grid F) : bool :=
  existsb (fun x => negb (num_eqb x (num_of_int 0))) (flatten data).

(** Band [i] of the reader decodes and holds some pixel that is not
    zero. *)
Definition band_present (self : t) (i : Z) : bool :=
  match read (image self) i with
  | Return g => np_any g
  | Raise _ => false
  end.

(** The loop of [detect_classes], [classes] being the list built so
    far. *)
Fixpoint detect_loop (self : t) (indices : list Z) (classes : list Z)
  : result (list Z) :=
  match indices with
  | [] => Return classes
  | i :: rest =>
      data <- read (image self) i ;;
      detect_loop self rest (if np_any data then classes ++ [i] else classes)
  end.

(** [ClassesReader.detect_classes] *)
Definition detect_classes (self : t) : result (list Z) :=
  detect_loop self (range 1 (bandes self + 1)) [].

(** [ClassesReader.get_n_bands] *)
Definition get_n_bands (self : t) : Z := bandes self.

(** [ClassesReader.show_band]: the data it returns; the plot is left
    out. *)
Definition show_band (self : t) (band : Z) : result (Grid F) :=
  if (band <? 1) || (bandes self <? band) then Raise SystemExit
  else read (image self) band.

(** [ClassesReader.show_class]: the data it returns, with the title it
    gives to the plot. *)
Definition show_class (self : t) (classe : Z) : result (Grid F * string) :=
  data <- read (image self) classe ;;
  let classe_name := name_of self classe in
  Return (data, ("Classe : " ++ classe_name)%string).

Section Plots.
(** [plt.subplots(1, n, ...)], which belongs to the plotting library. *)
Variable plt_subplots : nat -> result unit.

(** The loop of [show_class_list]: [class_list_data] is the list built so
    far, [titles] the titles set so far. *)
Fixpoint show_class_loop (self : t) (class_list : list Z)
  (class_list_data : list (Grid F)) (titles : list string)
  : result (list (Grid F) * list string) :=
  match class_list with
  | [] => Return (class_list_data, titles)
  | classe :: rest =>
      data <- read (image self) classe ;;
      let classe_name := name_of self classe in
      show_class_loop self rest (class_list_data ++ [data])
        (titles ++ [("Classe : " ++ classe_name)%string])
  end.

(** [ClassesReader.show_class_list]: the list it returns, with the titles
    of the plots. *)
Definition show_class_list (self : t) (class_list : option (list Z))
  : result (list (Grid F) * list string) :=
  class_list <- match class_list with
                | None => detect_classes self
                | Some l => Return l
                end ;;
  _ <- plt_subplots (length class_list) ;;
  show_class_loop self class_list [] [].
End Plots.

End WithSamples.
Arguments t F : clear implicits.

End ClassesReader.

(* ===================================================================== *)
(** * Python strings, paths and [sorted] *)
(* ===================================================================== *)

(** [s.endswith(suffix)]: [s] is [suffix], or what follows its first
    character ends with [suffix]. *)
Fixpoint ends_with (suffix s : string) : bool :=
  String.eqb s suffix
  || match s with
     | EmptyString => false
     | String _ rest => ends_with suffix rest
     end.

(** [s.startswith(p)] *)
Definition starts_with (p s : string) : bool := String.prefix p s.

Definition slash : ascii := "/"%char.

(** [os.path.join(a, b)] on a POSIX system. *)
Definition os_path_join (a b : string) : string :=
  if starts_with "/" b then b
  else if String.eqb a "" || ends_with "/" a then (a ++ b)%string
  else (a ++ "/" ++ b)%string.

(** [cur] is the text after the last separator met so far. *)
Fixpoint basename_from (cur p : string) : string :=
  match p with
  | EmptyString => cur
  | String c rest =>
      if Ascii.eqb c slash then basename_from rest rest
      else basename_from cur rest
  end.

(** [os.path.basename(p)] *)
Definition os_path_basename (p : string) : string := basename_from p p.

(** The name holds a path separator. *)
Fixpoint has_slash (s : string) : bool :=
  match s with
  | EmptyString => false
  | String c rest => Ascii.eqb c slash || has_slash rest
  end.

(** What [os.path.join(a, _)] puts in front of a relative name. *)
Definition path_prefix (a : string) : string :=
  if String.eqb a "" || ends_with "/" a then a else (a ++ "/")%string.

(** [s.replace(old, new)] for single characters. *)
Fixpoint replace_char (old new : ascii) (s : string) : string :=
  match s with
  | EmptyString => EmptyString
  | String c rest =>
      String (if Ascii.eqb c old then new else c) (replace_char old new rest)
  end.

(** Strings compare by code unit, the shorter first on a common prefix. *)
Module StringOrder <: TotalLeBool.
Definition t : Type := string.
Definition leb : t -> t -> bool := String.leb.
Definition leb_total : forall a1 a2, leb a1 a2 = true \/ leb a2 a1 = true :=
  String.leb_total.
End StringOrder.

Module StringSort := Sort StringOrder.

(** [sorted(l)] for a list of [str]. *)
Definition sorted (l : list string) : list string := StringSort.sort l.

(** [enumerate(l)] *)
Definition enumerate {A : Type} (l : list A) : list (Z * A) :=
  combine (range 0 (Z.of_nat (length l))) l.

(* ===================================================================== *)
(** * Text: the code points of a [str] kept as UTF-8 bytes *)
(* ===================================================================== *)

(** A Python [str] is kept as the bytes of its UTF-8 encoding; a byte
    that is part of no well-formed sequence stands for the lone surrogate
    that the file system decoding puts in its place. *)
Definition byte_of (c : ascii) : Z := Z.of_N (N_of_ascii c).

Definition of_byte (b : Z) : ascii := ascii_of_N (Z.to_N b).

(** A continuation byte, 10xxxxxx. *)
Definition continuation (c : ascii) : bool :=
  (128 <=? byte_of c) && (byte_of c <=? 191).

(** The code point at the start of [s], with the bytes that encode it and
    what follows them; [None] when [s] does not start with a well-formed
    UTF-8 sequence. *)
Definition utf8_head (s : string) : option (Z * string * string) :=
  match s with
  | EmptyString => None
  | String c1 r1 =>
      let b1 := byte_of c1 in
      if b1 <? 128 then Some (b1, String c1 EmptyString, r1)
      else if (194 <=? b1) && (b1 <=? 223) then
        match r1 with
        | String c2 r2 =>
            if continuation c2
            then Some ((b1 - 192) * 64 + (byte_of c2 - 128),
                       String c1 (String c2 EmptyString), r2)
            else None
        | _ => None
        end
      else if (224 <=? b1) && (b1 <=? 239) then
        match r1 with
        | String c2 (String c3 r3) =>
            let cp := (b1 - 224) * 4096 + (byte_of c2 - 128) * 64
                      + (byte_of c3 - 128) in
            if continuation c2 && continuation c3 && (2048 <=? cp)
               && negb ((55296 <=? cp) && (cp <=? 57343))
            then Some (cp, String c1 (String c2 (String c3 EmptyString)), r3)
            else None
        | _ => None
        end
      else if (240 <=? b1) && (b1 <=? 244) then
        match r1 with
        | String c2 (String c3 (String c4 r4)) =>
            let cp := (b1 - 240) * 262144 + (byte_of c2 - 128) * 4096
                      + (byte_of c3 - 128) * 64 + (byte_of c4 - 128) in
            if continuation c2 && continuation c3 && continuation c4
               && (65536 <=? cp) && (cp <=? 1114111)
            then Some (cp,
                       String c1 (String c2 (String c3 (String c4 EmptyString))),
                       r4)
            else None
        | _ => None
        end
      else None
  end.

(** The ranges of the decimal digits of Unicode 14.0 (general category
    Nd), which are the characters that [\d] matches in a [str]. *)
Definition decimal_ranges : list (Z * Z) :=
  [ (48, 57); (1632, 1641); (1776, 1785); (1984, 1993); (2406, 2415);
    (2534, 2543); (2662, 2671); (2790, 2799); (2918, 2927); (3046, 3055);
    (3174, 3183); (3302, 3311); (3430, 3439); (3558, 3567); (3664, 3673);
    (3792, 3801); (3872, 3881); (4160, 4169); (4240, 4249); (6112, 6121);
    (6160, 6169); (6470, 6479); (6608, 6617); (6784, 6793); (6800, 6809);
    (6992, 7001); (7088, 7097); (7232, 7241); (7248, 7257); (42528, 42537);
    (43216, 43225); (43264, 43273); (43472, 43481); (43504, 43513);
    (43600, 43609); (44016, 44025); (65296, 65305); (66720, 66729);
    (68912, 68921); (69734, 69743); (69872, 69881); (69942, 69951);
    (70096, 70105); (70384, 70393); (70736, 70745); (70864, 70873);
    (71248, 71257); (71360, 71369); (71472, 71481); (71904, 71913);
    (72016, 72025); (72784, 72793); (73040, 73049); (73120, 73129);
    (92768, 92777); (92864, 92873); (93008, 93017); (120782, 120831);
    (123200, 123209); (123632, 123641); (125264, 125273); (130032, 130041) ].

Definition in_ranges (ranges : list (Z * Z)) (cp : Z) : bool :=
  existsb (fun r => (fst r <=? cp) && (cp <=? snd r)) ranges.

(** [\d] on a code point. *)
Definition is_digit (cp : Z) : bool := in_ranges decimal_ranges cp.

(* ===================================================================== *)
(** * Regular expressions of fixed width *)
(* ===================================================================== *)

(** The pattern [\d{4}[-_]\d{2}[-_]\d{2}] is a sequence of character
    classes, one per character matched. *)
Inductive cclass : Type :=
| Digit      (* \d *)
| DashOrUnderscore.  (* [-_] *)

(** The character of class [k] at the start of [s], as the bytes that
    encode it, with what follows. *)
Definition take (k : cclass) (s : string) : option (string * string) :=
  match k with
  | Digit =>
      match utf8_head s with
      | Some (cp, bytes, rest) => if is_digit cp then Some (bytes, rest) else None
      | None => None
      end
  | DashOrUnderscore =>
      match s with
      | String c rest =>
          if Ascii.eqb c "-"%char || Ascii.eqb c "_"%char
          then Some (String c EmptyString, rest)
          else None
      | EmptyString => None
      end
  end.

(** The text matched when the pattern matches at the start of [s]. *)
Fixpoint match_here (p : list cclass) (s : string) : option string :=
  match p with
  | [] => Some EmptyString
  | k :: p' =>
      match take k s with
      | Some (bytes, rest) =>
          match match_here p' rest with
          | Some m => Some (bytes ++ m)%string
          | None => None
          end
      | None => None
      end
  end.

(** [re.search(p, s)]: the leftmost match, [None] when there is none.  A
    pattern can match at the start of a character only, so every byte
    offset is tried. *)
Fixpoint re_search (p : list cclass) (s : string) : option string :=
  match match_here p s with
  | Some m => Some m
  | None =>
      match s with
      | EmptyString => None
      | String _ s' => re_search p s'
      end
  end.

Definition date_pattern : list cclass :=
  [Digit; Digit; Digit; Digit; DashOrUnderscore;
   Digit; Digit; DashOrUnderscore; Digit; Digit].

(* ===================================================================== *)
(** * ground_truth.py *)
(* ===================================================================== *)

Module GroundTruth.

(** What [main] prints. *)
Inductive line : Type :=
| ProcessingFolder (folder_path : string)
| CsvSaved (folder_name : string)
| GraphSaved (folder_name : string)
| FolderError (folder_path : string) (cause : exn).

(** The date of a file name, when it has one. *)
Definition date_label (filename : string) : option string :=
  match re_search date_pattern filename with
  | Some m => Some (replace_char "_" "-" m)
  | None => None
  end.

(** The dates found in the names of the given paths, in order. *)
Definition dates_of (paths : list string) : list string :=
  flat_map
    (fun p => match date_label (os_path_basename p) with
              | Some d => [d]
              | None => []
              end)
    paths.

(** The sorted paths of the [.tif] entries of a folder. *)
Definition tif_files (folder_path : string) (names : list string) : list string :=
  sorted (map (os_path_join folder_path) (filter (ends_with ".tif") names)).

(** Position of index [i] in a sequence of length [n]: negative indices
    count from the end, anything else outside is an [IndexError]. *)
Definition position (n : nat) (i : Z) : result nat :=
  let len := Z.of_nat n in
  if (0 <=? i) && (i <? len) then Return (Z.to_nat i)
  else if (- len <=? i) && (i <? 0) then Return (Z.to_nat (i + len))
  else Raise IndexError.

Fixpoint list_update {A : Type} (l : list A) (k : nat) (f : A -> A) : list A :=
  match l, k with
  | [], _ => []
  | x :: l', O => f x :: l'
  | x :: l', S k' => x :: list_update l' k' f
  end.

Section WithSamples.
(** [F] is the type of a sample after [astype(np.float32)], with its
    operations. *)
Context {F : Type} {arith : Arithmetic F}.

(** [np.sum(band)] *)
Definition np_sum (band : Grid F) : F := num_sum (flatten band).

(** [np.max(band)]; a zero-size array has no maximum. *)
Definition np_max (band : Grid F) : result F :=
  match flatten band with
  | [] => Raise ValueError
  | x :: rest => Return (fold_left num_max rest x)
  end.

(** The percentage written to [evol_matrix[index][i - 1]] for one band
    (the body of the inner loop of [mask_evolution]). *)
Definition coverage_statistic (band : Grid F) : result F :=
  if num_eqb (np_sum band) (num_of_int 0) then Return (num_of_int 0)
  else
    band_max <- np_max band ;;
    let band_normalized :=
      if negb (num_eqb band_max (num_of_int 0))
      then grid_map (fun x => num_div x band_max) band
      else band in
    let total_band := np_sum band_normalized in
    Return (num_mul
              (num_div total_band
                 (num_of_int (fst (shape band) * snd (shape band))))
              (num_of_int 100)).

(** The evolution matrix.  [np.empty] leaves the cells unwritten: [None]
    stands for such a cell. *)
Definition Matrix : Type := list (list (option F)).

(** [np.empty((rows, cols))] *)
Definition np_empty (rows cols : nat) : Matrix :=
  repeat (repeat None cols) rows.

(** [evol_matrix[r][c] = v] *)
Definition matrix_set (m : Matrix) (r c : Z) (v : F) : result Matrix :=
  r' <- position (length m) r ;;
  match nth_error m r' with
  | None => Raise IndexError
  | Some row =>
      c' <- position (length row) c ;;
      Return (list_update m r' (fun row => list_update row c' (fun _ => Some v)))
  end.

(** [for i in range(1, 8)]: read band [i], compute its percentage, write
    it to row [index]. *)
Fixpoint band_loop (src : Dataset F) (index : Z) (indices : list Z)
  (evol_matrix : Matrix) : result Matrix :=
  match indices with
  | [] => Return evol_matrix
  | i :: rest =>
      band <- read src i ;;
      pc_band <- coverage_statistic band ;;
      evol_matrix' <- matrix_set evol_matrix index (i - 1) pc_band ;;
      band_loop src index rest evol_matrix'
  end.

(** The percentage of band [i] of an open raster. *)
Definition band_value (src : Dataset F) (i : Z) : result F :=
  band <- read src i ;; coverage_statistic band.

(** The seven percentages of the raster behind a path. *)
Definition file_row (fs : FileSystem F) (tif_path : string)
  : result (list F) :=
  src <- open fs tif_path ;; collect (band_value src) (range 1 8).

(** A row after the writes [row[i - 1] = v] for [(i, v)] in [cells]. *)
Definition write_cells (row : list (option F)) (cells : list (Z * F))
  : list (option F) :=
  fold_left
    (fun row iv => list_update row (Z.to_nat (fst iv - 1)) (fun _ => Some (snd iv)))
    cells row.

(** [for index, tif_path in enumerate(tif_files)] *)
Fixpoint file_loop (fs : FileSystem F) (files : list (Z * string))
  (evol_matrix : Matrix) (dates : list string)
  : result (Matrix * list string) :=
  match files with
  | [] => Return (evol_matrix, dates)
  | (index, tif_path) :: rest =>
      src <- open fs tif_path ;;
      evol_matrix' <- band_loop src index (range 1 8) evol_matrix ;;
      let filename := os_path_basename tif_path in
      let dates' :=
        match date_label filename with
        | Some d => dates ++ [d]
        | None => dates
        end in
      file_loop fs rest evol_matrix' dates'
  end.

(** [GroundTruth.mask_evolution] *)
Definition mask_evolution (fs : FileSystem F) (folder_path : string)
  : result (Matrix * list string) :=
  names <- listdir fs folder_path ;;
  let files := tif_files folder_path names in
  let evol_matrix := np_empty (length files) 7 in
  file_loop fs (enumerate files) evol_matrix [].

Section Main.
(** Persistence and plotting are outside the modelled core: each either
    succeeds, printing its line, or raises. *)
Variable store_mask_evol : Matrix -> list string -> string -> result unit.
Variable show_mask_evol : Matrix -> list string -> string -> result unit.

(** The body of the [try] for one folder, with the lines printed until it
    ends or raises. *)
Definition try_folder (fs : FileSystem F) (folder_path : string)
  : result unit * list line :=
  let folder_name := os_path_basename folder_path in
  match mask_evolution fs folder_path with
  | Raise e => (Raise e, [ProcessingFolder folder_path])
  | Return (evol_matrix, dates) =>
      match store_mask_evol evol_matrix dates folder_name with
      | Raise e => (Raise e, [ProcessingFolder folder_path])
      | Return _ =>
          match show_mask_evol evol_matrix dates folder_name with
          | Raise e =>
              (Raise e, [ProcessingFolder folder_path; CsvSaved folder_name])
          | Return _ =>
              (Return tt, [ProcessingFolder folder_path; CsvSaved folder_name;
                           GraphSaved folder_name])
          end
      end
  end.

(** [for folder_path in folders: try: ... except Exception as e: ...] *)
Fixpoint main (fs : FileSystem F) (folders : list string)
  : result unit * list line :=
  match folders with
  | [] => (Return tt, [])
  | folder_path :: rest =>
      match try_folder fs folder_path with
      | (Return _, out) =>
          let (r, out') := main fs rest in (r, out ++ out')
      | (Raise e, out) =>
          if is_Exception e then
            let (r, out') := main fs rest in
            (r, out ++ FolderError folder_path e :: out')
          else (Raise e, out)
      end
  end.
End Main.

Section Persistence.
(** A [pandas.DataFrame]: its values, the labels of its columns and the
    labels of its rows. *)
Record DataFrame : Type := {
  df_values : Matrix;
  df_columns : list string;
  df_index : list string
}.

(** [pd.DataFrame(data, columns=..., index=...)] and [df.to_csv(name)]
    belong to the table library. *)
Variable pd_DataFrame : Matrix -> list string -> list string -> result DataFrame.
Variable to_csv : DataFrame -> string -> result unit.

(** [GroundTruth.store_mask_evol] *)
Definition store_mask_evol (evol_matrix : Matrix) (dates : list string)
  (folder_name : string) : result unit :=
  df <- pd_DataFrame evol_matrix
          (map (fun i => ("Band_" ++ str_of_int (i + 1))%string) (range 0 7))
          dates ;;
  let csv_filename := (folder_name ++ ".csv")%string in
  to_csv df csv_filename.
End Persistence.

End WithSamples.
Arguments Matrix F : clear implicits.
Arguments DataFrame F : clear implicits.

End GroundTruth.

(* ===================================================================== *)
(** * sat_image_reader.py *)
(* ===================================================================== *)

Module SatImageReader.

(** The samples are taken after [astype("float32")]: binary32 numbers. *)
Record t : Type := {
  file_path : string;
  image : Dataset float32;
  bandes : Z
}.

(** [SatImageReader.__init__] *)
Definition init (fs : FileSystem float32) (path : string) : result t :=
  try_except
    (img <- open fs path ;;
     Return {| file_path := path; image := img; bandes := count img |})
    is_RasterioIOError
    (fun _ => Raise SystemExit).

(** [ndvi[denominator == 0] = 0] *)
Definition zero_where_zero (ndvi denominator : Grid float32) : Grid float32 :=
  grid_map2 (fun v d => if f32_eqb d f32_zero then f32_zero else v)
    ndvi denominator.

(** The arithmetic of [calculate_ndvi] on the two bands. *)
Definition ndvi_of (red nir : Grid float32) : Grid float32 :=
  let denominator := grid_map2 f32_add nir red in
  let ndvi := grid_map2 f32_div (grid_map2 f32_sub nir red) denominator in
  zero_where_zero ndvi denominator.

(** One pixel of [ndvi_of]. *)
Definition ndvi_pixel (red nir : float32) : float32 :=
  let denominator := f32_add nir red in
  if f32_eqb denominator f32_zero then f32_zero
  else f32_div (f32_sub nir red) denominator.

(** The number a binary32 datum stands for; infinities and NaN stand for
    none. *)
Definition f32_value (x : float32) : option Q :=
  match x with
  | S754_zero _ => Some 0%Q
  | S754_finite s m e => Some (inject_Z (cond_Zopp s (Zpos m)) * 2 ^ e)%Q
  | S754_infinity _ => None
  | S754_nan => None
  end.

(** The datum is a number of [-1, 1]. *)
Definition in_unit_interval (x : float32) : Prop :=
  exists q, f32_value x = Some q /\ (-1 <= q <= 1)%Q.

(** The datum is a well-formed binary32 number that is zero or positive. *)
Definition nonneg_finite (x : float32) : Prop :=
  match x with
  | S754_zero _ => True
  | S754_finite false m e => bounded prec emax m e = true
  | _ => False
  end.

(** [SatImageReader.calculate_ndvi]; the Python [None] is [None]. *)
Definition calculate_ndvi (self : t) (red_band_index nir_band_index : Z)
  : result (option (Grid float32)) :=
  if bandes self <? Z.max red_band_index nir_band_index then Return None
  else
    try_except
      (red <- read (image self) red_band_index ;;
       nir <- read (image self) nir_band_index ;;
       Return (Some (ndvi_of red nir)))
      is_RasterioIOError
      (fun _ => Return None).

(** [np.where(ndvi > threshold, 1, 0)] *)
Definition np_where_gt (ndvi : Grid float32) (threshold : float32) : Grid Z :=
  grid_map (fun v => if f32_ltb threshold v then 1 else 0) ndvi.

(** [SatImageReader.show_ndvi], up to the plotting: the grid handed to
    [plt.imshow]. *)
Definition show_ndvi (self : t) (red_band_index nir_band_index : Z)
  (threshold : option float32) : result (Grid float32 + Grid Z) :=
  r <- calculate_ndvi self red_band_index nir_band_index ;;
  match r with
  | None => Raise SystemExit
  | Some ndvi =>
      match threshold with
      | Some th => Return (inr (np_where_gt ndvi th))
      | None => Return (inl ndvi)
      end
  end.

(** [SatImageReader.get_n_bands] *)
Definition get_n_bands (self : t) : Z := bandes self.

(** What [plt.imshow] is given, with the title of the plot. *)
Record figure : Type := {
  shown : Grid float32;
  cmap : string;
  title : string
}.

(** [SatImageReader.show_band], for a raster stored as float32. *)
Definition show_band (self : t) (band : Z) : result figure :=
  if (band <? 1) || (bandes self <? band) then Raise SystemExit
  else
    data <- read (image self) band ;;
    Return {| shown := data; cmap := "gray";
              title := ("Bande " ++ str_of_int band)%string |}.

(** [np.minimum(a, b)]: a NaN wins. *)
Definition f32_min (a b : float32) : float32 :=
  match a, b with
  | S754_nan, _ => a
  | _, S754_nan => b
  | _, _ => if f32_ltb b a then b else a
  end.

(** [data.max()] and [data.min()]; a zero-size array has neither. *)
Definition np_max (data : Grid float32) : result float32 :=
  match flatten data with
  | [] => Raise ValueError
  | x :: rest => Return (fold_left f32_max rest x)
  end.

Definition np_min (data : Grid float32) : result float32 :=
  match flatten data with
  | [] => Raise ValueError
  | x :: rest => Return (fold_left f32_min rest x)
  end.



Section Histogram.
(** [plt.hist(data, bins=bins, range=(lo, hi))] on a finite range; it
    belongs to the plotting library. *)
Variable plt_hist : list float32 -> Z -> float32 * float32 -> result unit.

End Histogram.

(** [(b - b.min()) / (b.max() - b.min()) if b.max() != b.min()
     else np.zeros_like(b)] *)
Definition normalize_band (b : Grid float32) : result (Grid float32) :=
  hi <- np_max b ;;
  lo <- np_min b ;;
  if negb (f32_eqb hi lo)
  then Return (grid_map (fun x => f32_div (f32_sub x lo) (f32_sub hi lo)) b)
  else Return (grid_map (fun _ => f32_zero) b).

(** [np.dstack((red, green, blue))] *)
Definition np_dstack (red green blue : Grid float32)
  : Grid (float32 * float32 * float32) :=
  grid_map2 (fun rg b => (fst rg, snd rg, b)) (grid_map2 pair red green) blue.

(** [SatImageReader.show_rgb], for a raster stored as float32: the image
    given to [plt.imshow].  Both [except] clauses end in [SystemExit]. *)
Definition show_rgb (self : t) (bands_rgb : Z * Z * Z)
  : result (Grid (float32 * float32 * float32)) :=
  if bandes self <? 3 then Raise SystemExit
  else
    try_except
      (red <- read (image self) (fst (fst bands_rgb)) ;;
       green <- read (image self) (snd (fst bands_rgb)) ;;
       blue <- read (image self) (snd bands_rgb) ;;
       red <- normalize_band red ;;
       green <- normalize_band green ;;
       blue <- normalize_band blue ;;
       Return (np_dstack red green blue))
      (fun e => is_RasterioIOError e || is_Exception e)
      (fun _ => Raise SystemExit).

(** [max(a, b, ...)] on numbers: a later item replaces the current one
    when it is greater. *)
Definition py_max (x : float32) (rest : list float32) : float32 :=
  fold_left (fun acc y => if f32_ltb acc y then y else acc) rest x.

(** What the calls to [plt.hist] of [show_rgb_hist] are given. *)
Record rgb_histogram : Type := {
  series : list (string * list float32);
  range_bins : float32 * float32
}.

(** [self.image.read(i).flatten()] inside [try: ... except
    RasterioIOError: raise SystemExit]. *)
Definition read_flat (self : t) (i : Z) : result (list float32) :=
  try_except (data <- read (image self) i ;; Return (flatten data))
    is_RasterioIOError (fun _ => Raise SystemExit).

(** [a.max()] for a flattened band. *)
Definition flat_max (a : list float32) : result float32 :=
  match a with
  | [] => Raise ValueError
  | x :: rest => Return (fold_left f32_max rest x)
  end.

(** [SatImageReader.show_rgb_hist], for a raster stored as float32: what
    the calls to [plt.hist] are given, up to these calls. *)
Definition show_rgb_hist (self : t) (bands_rgb : Z * Z * Z)
  (show_infrared : bool) : result rgb_histogram :=
  let red_band := fst (fst bands_rgb) in
  let green_band := snd (fst bands_rgb) in
  let blue_band := snd bands_rgb in
  let max_band := Z.max (Z.max red_band green_band) blue_band in
  let max_band := if show_infrared then Z.max max_band 4 else max_band in
  if bandes self <? max_band then Raise SystemExit
  else
    (* the three reads share one [try] *)
    data_red <- read_flat self red_band ;;
    data_green <- read_flat self green_band ;;
    data_blue <- read_flat self blue_band ;;
    data_infrared <-
      (if show_infrared && (4 <=? bandes self)
       then d <- read_flat self 4 ;; Return (Some d)
       else Return None) ;;
    range_bins <-
      (if negb show_infrared then Return (f32_of_Z 0, f32_of_Z 255)
       else
         r <- flat_max data_red ;;
         g <- flat_max data_green ;;
         b <- flat_max data_blue ;;
         match data_infrared with
         | Some d =>
             i <- flat_max d ;;
             Return (f32_of_Z 0, py_max r [g; b; i])
         | None => Return (f32_of_Z 0, py_max r [g; b])
         end) ;;
    let rgb := [("Rouge"%string, data_red); ("Vert"%string, data_green);
                ("Bleu"%string, data_blue)] in
    Return {| series :=
                match data_infrared with
                | Some d =>
                    if show_infrared && (4 <=? bandes self)
                    then rgb ++ [("Infrarouge"%string, d)]
                    else rgb
                | None => rgb
                end;
              range_bins := range_bins |}.

End SatImageReader.

(* ===================================================================== *)
(** * subfolder.py *)
(* ===================================================================== *)

Module Subfolder.

(** The ranges of the code points that [str.isspace] holds of; they are
    the characters that [str.strip()] removes. *)
Definition space_ranges : list (Z * Z) :=
  [ (9, 13); (28, 32); (133, 133); (160, 160); (5760, 5760); (8192, 8202);
    (8232, 8233); (8239, 8239); (8287, 8287); (12288, 12288) ].

Definition is_space (cp : Z) : bool := in_ranges space_ranges cp.

(** [s.lstrip()], on the UTF-8 bytes of [s]; [fuel] bounds the number of
    characters removed. *)
Fixpoint lstrip_from (fuel : nat) (s : string) : string :=
  match fuel with
  | O => s
  | S fuel' =>
      match utf8_head s with
      | Some (cp, _, rest) => if is_space cp then lstrip_from fuel' rest else s
      | None => s
      end
  end.

Definition lstrip (s : string) : string := lstrip_from (String.length s) s.

(** [s.rstrip()]: the text is cut where nothing but white space
    follows. *)
Fixpoint rstrip (s : string) : string :=
  match s with
  | EmptyString => EmptyString
  | String c rest =>
      if String.eqb (lstrip s) EmptyString then EmptyString
      else String c (rstrip rest)
  end.

(** [s.strip()] *)
Definition strip (s : string) : string := rstrip (lstrip s).

(** [set.add]: the set is kept as the list of its members. *)
Definition set_add (x : string) (set : list string) : list string :=
  if existsb (String.eqb x) set then set else set ++ [x].

(** The truth value of [current_dir]: [None] and the empty string are
    false. *)
Definition truthy (current_dir : option string) : bool :=
  match current_dir with
  | Some d => negb (String.eqb d "")
  | None => false
  end.

(** [for line in file: ...] *)
Fixpoint scan (lines : list string) (current_dir : option string)
  (directories_with_tif : list string) : list string :=
  match lines with
  | [] => directories_with_tif
  | line :: rest =>
      let line := strip line in
      if ends_with "/" line then scan rest (Some line) directories_with_tif
      else if ends_with ".tif" line && truthy current_dir then
        match current_dir with
        | Some d => scan rest current_dir (set_add d directories_with_tif)
        | None => scan rest current_dir directories_with_tif
        end
      else scan rest current_dir directories_with_tif
  end.

(** The script: the sorted list it prints, from the lines of the file. *)
Definition directories (lines : list string) : list string :=
  sorted (scan lines None []).

End Subfolder.

(* ===================================================================== *)
(** * Words of the specification and sample data *)
(* ===================================================================== *)

(** A code point that a [str] decoded from UTF-8 can hold: no
    surrogate. *)
Definition scalar_value (cp : Z) : Prop :=
  0 <= cp < 55296 \/ 57344 <= cp <= 1114111.

(** The UTF-8 encoding of a code point. *)
Definition utf8_encode (cp : Z) : string :=
  if cp <? 128 then String (of_byte cp) EmptyString
  else if cp <? 2048 then
    String (of_byte (192 + cp / 64))
      (String (of_byte (128 + cp mod 64)) EmptyString)
  else if cp <? 65536 then
    String (of_byte (224 + cp / 4096))
      (String (of_byte (128 + (cp / 64) mod 64))
         (String (of_byte (128 + cp mod 64)) EmptyString))
  else
    String (of_byte (240 + cp / 262144))
      (String (of_byte (128 + (cp / 4096) mod 64))
         (String (of_byte (128 + (cp / 64) mod 64))
            (String (of_byte (128 + cp mod 64)) EmptyString))).

(** [bytes] is one character of the class [k]. *)
Definition character (k : cclass) (bytes : string) : Prop :=
  match k with
  | Digit =>
      exists cp, scalar_value cp /\ is_digit cp = true
                 /\ bytes = utf8_encode cp
  | DashOrUnderscore => bytes = "-" \/ bytes = "_"
  end.

(** [m] is matched, character by character, by the classes of [p]. *)
Fixpoint matches (p : list cclass) (m : string) : Prop :=
  match p with
  | [] => m = EmptyString
  | k :: p' =>
      exists bytes m', m = (bytes ++ m')%string
                       /\ character k bytes /\ matches p' m'
  end.

(** A file system given by its folders and its readable rasters; any
    other path fails to open. *)
Definition make_fs {A : Type} (folders : list (string * list string))
  (rasters : list (string * Dataset A)) : FileSystem A :=
  {| listdir := fun d =>
       match dict_find String.eqb folders d with
       | Some names => Return names
       | None => Raise FileNotFoundError
       end;
     open := fun p =>
       match dict_find String.eqb rasters p with
       | Some ds => Return ds
       | None => Raise RasterioIOError
       end |}.

Definition uniform (v : Q) : Grid Q := [[v; v]; [v; v]]%Q.

(** Seven bands, the third one empty, the others uniformly 5. *)
Definition seven_bands : Dataset Q :=
  {| bands := [Readable (uniform 5); Readable (uniform 5); Readable (uniform 0);
               Readable (uniform 5); Readable (uniform 5); Readable (uniform 5);
               Readable (uniform 5)] |}.

(** Three bands of which only the second has a pixel that is not zero. *)
Definition three_bands : Dataset Q :=
  {| bands := [Readable (uniform 0); Readable [[0; 1]; [0; 0]]%Q;
               Readable (uniform 0)] |}.

Definition dated_fs : FileSystem Q :=
  make_fs
    [("data", ["scene_2020-05-12_v1.tif"; "scene.tif"; "notes.txt";
               "scene_2019_01_31.tif"])]
    [("data/scene_2020-05-12_v1.tif", seven_bands);
     ("data/scene.tif", seven_bands);
     ("data/scene_2019_01_31.tif", seven_bands);
     ("classes.tif", three_bands)].

(** A folder whose first raster does not open and whose second does. *)
Definition broken_fs : FileSystem Q :=
  make_fs [("data", ["b.tif"; "a.tif"]); ("next", ["c.tif"])]
          [("data/b.tif", seven_bands); ("next/c.tif", seven_bands)].

(** A satellite image of three bands. *)
Definition three_band_image : SatImageReader.t :=
  {| SatImageReader.file_path := "image.tif";
     SatImageReader.image :=
       {| bands := [Readable [[f32_of_Z 1]];
                    Readable [[f32_of_Z 2]];
                    Readable [[f32_of_Z 3]]] |};
     SatImageReader.bandes := 3 |}.

(** A four-band image whose red sample is negative. *)
Definition signed_image : SatImageReader.t :=
  {| SatImageReader.file_path := "signed.tif";
     SatImageReader.image :=
       {| bands := [Readable [[f32_of_Z 0]];
                    Readable [[f32_of_Z 0]];
                    Readable [[f32_of_Z (-1)]];
                    Readable [[f32_of_Z 3]]] |};
     SatImageReader.bandes := 4 |}.

(** A four-band image with red [[0, 2]] and near-infrared [[0, 2]] in bands
    3 and 4. *)
Definition flat_image : SatImageReader.t :=
  {| SatImageReader.file_path := "flat.tif";
     SatImageReader.image :=
       {| bands := [Readable [[f32_of_Z 7; f32_of_Z 7]];
                    Readable [[f32_of_Z 7; f32_of_Z 7]];
                    Readable [[f32_of_Z 0; f32_of_Z 2]];
                    Readable [[f32_of_Z 0; f32_of_Z 2]]] |};
     SatImageReader.bandes := 4 |}.

(** The reader that [ClassesReader.__init__] builds on "classes.tif". *)
Definition classes_reader : ClassesReader.t Q :=
  {| ClassesReader.file_path := "classes.tif";
     ClassesReader.image := three_bands;
     ClassesReader.bandes := 3;
     ClassesReader.dict_classes := ClassesReader.class_table;
     ClassesReader.reverse_dict_classes :=
       ClassesReader.invert ClassesReader.class_table |}.

(** The number of pixels of a mask that are set (that are not zero). *)
Definition set_pixels (l : list float32) : nat :=
  length (filter (fun x => negb (f32_eqb x f32_zero)) l).

Definition count_set (band : Grid float32) : nat := set_pixels (flatten band).



(** The numbers that the pixels stand for add up to zero, without
    rounding. *)
Definition sums_to_zero (band : Grid float32) : Prop :=
  exists values,
    map SatImageReader.f32_value (flatten band) = map Some values
    /\ (qsum values == 0)%Q.

(** A mask of two by two pixels with the values 0 and 255, and a mask of
    three pixels with the values 0 and 1. *)
Definition half_mask : Grid float32 :=
  [[f32_of_Z 0; f32_of_Z 255]; [f32_of_Z 255; f32_of_Z 0]].

Definition third_mask : Grid float32 := [[f32_of_Z 1; f32_of_Z 0; f32_of_Z 0]].

(** A band whose additions round. *)
Definition cancelling_band : Grid float32 :=
  [[f32_of_Z 16777216; f32_of_Z 1; f32_of_Z (-16777216); f32_of_Z (-1)]].



(** A raster of five bands. *)
Definition five_bands : Dataset Q :=
  {| bands := [Readable (uniform 5); Readable (uniform 5); Readable (uniform 0);
               Readable (uniform 5); Readable (uniform 5)] |}.

(** Eight bands: those of [seven_bands] and one more. *)
Definition eight_bands : Dataset Q :=
  {| bands := bands seven_bands ++ [Readable (uniform 9)] |}.

(** A folder holding a raster of five bands. *)
Definition short_fs : FileSystem Q :=
  make_fs [("data", ["a.tif"; "b.tif"])]
          [("data/a.tif", seven_bands); ("data/b.tif", five_bands)].

(** [dated_fs] with an eighth band in one raster. *)
Definition eight_fs : FileSystem Q :=
  make_fs
    [("data", ["scene_2020-05-12_v1.tif"; "scene.tif"; "notes.txt";
               "scene_2019_01_31.tif"])]
    [("data/scene_2020-05-12_v1.tif", eight_bands);
     ("data/scene.tif", seven_bands);
     ("data/scene_2019_01_31.tif", seven_bands);
     ("classes.tif", three_bands)].

(** [dated_fs] with the folder listed in the reverse order, and another
    entry that is no raster. *)
Definition shuffled_fs : FileSystem Q :=
  make_fs
    [("data", ["scene_2019_01_31.tif"; "readme.md"; "scene.tif";
               "scene_2020-05-12_v1.tif"])]
    [("data/scene_2020-05-12_v1.tif", seven_bands);
     ("data/scene.tif", seven_bands);
     ("data/scene_2019_01_31.tif", seven_bands);
     ("classes.tif", three_bands)].

(** A class raster whose second band does not decode. *)
Definition damaged_fs : FileSystem Q :=
  make_fs [] [("damaged.tif", {| bands := [Readable (uniform 0); Corrupt] |})].

(** A two-band image. *)
Definition two_band_image : SatImageReader.t :=
  {| SatImageReader.file_path := "pair.tif";
     SatImageReader.image :=
       {| bands := [Readable [[f32_of_Z 1]]; Readable [[f32_of_Z 2]]] |};
     SatImageReader.bandes := 2 |}.

(** A four-band image whose fourth band does not decode. *)
Definition damaged_image : SatImageReader.t :=
  {| SatImageReader.file_path := "damaged.tif";
     SatImageReader.image :=
       {| bands := [Readable [[f32_of_Z 1]]; Readable [[f32_of_Z 2]];
                    Readable [[f32_of_Z 3]]; Corrupt] |};
     SatImageReader.bandes := 4 |}.

(** A file system holding the sample images. *)
Definition image_fs : FileSystem float32 :=
  make_fs []
    [("flat.tif", SatImageReader.image flat_image);
     ("damaged.tif", SatImageReader.image damaged_image);
     ("image.tif", SatImageReader.image three_band_image)].

(** The end of a line of a text file. *)
Definition newline : string := String (of_byte 10) EmptyString.

(** [s] is made of white space only: of encodings of code points that
    [str.isspace] holds of. *)
Inductive white_space : string -> Prop :=
| white_space_nil : white_space EmptyString
| white_space_cons (cp : Z) (rest : string) :
    scalar_value cp -> Subfolder.is_space cp = true -> white_space rest ->
    white_space (utf8_encode cp ++ rest).

(** Below the line of a directory: a line of a [.tif] file comes before
    the line of any other directory. *)
Definition tif_follows (lines : list string) : Prop :=
  exists before tif after,
    lines = before ++ tif :: after
    /\ (forall x, In x before -> ends_with "/" (Subfolder.strip x) = false)
    /\ ends_with "/" (Subfolder.strip tif) = false
    /\ ends_with ".tif" (Subfolder.strip tif) = true.

(** [d] is the line of a directory under which a [.tif] file is
    listed. *)
Definition holds_tif (lines : list string) (d : string) : Prop :=
  exists above dir below,
    lines = above ++ dir :: below
    /\ Subfolder.strip dir = d
    /\ ends_with "/" d = true
    /\ tif_follows below.

(** The lines of a listing of two directories, the second without
    rasters. *)
Definition tree_lines : list string :=
  [ "root/"; "  b/"; "    x.tif"; "    y.tif"; "  a/"; "    notes.txt";
    "  c/"; "    z.tif" ].

(** A table constructor that checks the row labels against the rows. *)
Definition checked_frame (data : GroundTruth.Matrix Q)
  (columns index : list string) : result (GroundTruth.DataFrame Q) :=
  if (length index =? length data)%nat
  then Return {| GroundTruth.df_values := data;
                 GroundTruth.df_columns := columns;
                 GroundTruth.df_index := index |}
  else Raise ValueError.

(** A four-band image whose red sample is NaN. *)
Definition nan_image : SatImageReader.t :=
  {| SatImageReader.file_path := "nan.tif";
     SatImageReader.image :=
       {| bands := [Readable [[f32_of_Z 0]]; Readable [[f32_of_Z 0]];
                    Readable [[S754_nan]]; Readable [[f32_of_Z 3]]] |};
     SatImageReader.bandes := 4 |}.

(* ===================================================================== *)
(** * Rounding to binary32: auxiliary notions *)
(* ===================================================================== *)

(** The exponent that the format gives to a number of binary magnitude
    [e] ([fexp] at precision 24 and largest exponent 128). *)
Definition fexp32 (e : Z) : Z := Z.max (e - 24) (-149).

(** 1 when the location says that something was cut off, 0 otherwise. *)
Definition excess (l : location) : Z :=
  match l with
  | loc_Exact => 0
  | loc_Inexact _ => 1
  end.

Definition record_excess (mrs : shr_record) : Z :=
  if shr_r mrs || shr_s mrs then 1 else 0.

(** The last steps of [binary_round_aux], from the rounded mantissa [m]
    at exponent [e]. *)
Definition renormalize (s : bool) (m e : Z) : float32 :=
  let k := Z.max 0 (fexp32 (Zdigits2 m + e) - e) in
  match m / 2 ^ k with
  | Z0 => S754_zero s
  | Zpos p => if e + k <=? 104 then S754_finite s p (e + k) else S754_infinity s
  | Zneg _ => S754_nan
  end.

(** [m1 * 2 ^ e1 <= m2 * 2 ^ e2], both sides being scaled by [2 ^ (- c)]
    for an exponent [c] below [e1] and [e2]. *)
Definition le_at (c m1 e1 m2 e2 : Z) : Prop :=
  m1 * 2 ^ (e1 - c) <= m2 * 2 ^ (e2 - c).

(** Zero, or a positive number of at most [K]. *)
Definition at_most (K : Z) (x : float32) : Prop :=
  match x with
  | S754_zero _ => True
  | S754_finite false m e => -149 <= e /\ le_at (-149) (Z.pos m) e K 0
  | _ => False
  end.

(** A positive number of at least [M * 2 ^ E], or the positive infinity. *)
Definition at_least (M : positive) (E : Z) (x : float32) : Prop :=
  match x with
  | S754_finite false m e => -149 <= e /\ le_at (-149) (Z.pos M) E (Z.pos m) e
  | S754_infinity false => True
  | _ => False
  end.

(** Zero, a positive number with an exponent of the format, or the
    positive infinity. *)
Definition not_negative (x : float32) : Prop :=
  match x with
  | S754_zero _ => True
  | S754_finite false m e => -149 <= e
  | S754_infinity false => True
  | _ => False
  end.

Definition is_zero (x : float32) : Prop :=
  match x with
  | S754_zero _ => True
  | _ => False
  end.

(** [a <= b] for two numbers that are zero or positive. *)
Definition below (a b : float32) : Prop :=
  match a, b with
  | S754_zero _, _ => True
  | S754_finite _ ma ea, S754_finite _ mb eb =>
      le_at (-149) (Z.pos ma) ea (Z.pos mb) eb
  | _, _ => False
  end.

(* ===================================================================== *)
(** * Facts about the runtime model *)
(* ===================================================================== *)

Lemma bind_Return_inv {A B : Type} (c : result A) (k : A -> result B) (b : B) :
  bind c k = Return b -> exists a, c = Return a /\ k a = Return b.
Proof.
  destruct c as [a | e]; simpl; intros H; [ eauto | discriminate ].
Qed.

Lemma bind_Raise_inv {A B : Type} (c : result A) (k : A -> result B) (e : exn) :
  bind c k = Raise e ->
  c = Raise e \/ exists a, c = Return a /\ k a = Raise e.
Proof.
  destruct c as [a | e']; simpl; intros H;
    [ right; eauto | left; now injection H as -> ].
Qed.

Lemma In_range (lo hi i : Z) : In i (range lo hi) <-> lo <= i < hi.
Proof.
  unfold range. rewrite in_map_iff. split.
  - intros [k [<- Hk]]. apply in_seq in Hk. lia.
  - intros H. exists (Z.to_nat (i - lo)). split; [ lia | apply in_seq; lia ].
Qed.

Lemma range_cons (lo hi : Z) :
  lo < hi -> range lo hi = lo :: range (lo + 1) hi.
Proof.
  intros H. unfold range.
  replace (Z.to_nat (hi - lo)) with (S (Z.to_nat (hi - (lo + 1)))) by lia.
  simpl. f_equal; [ lia | ].
  rewrite <- seq_shift, map_map. apply map_ext. intros k. lia.
Qed.

Lemma range_nil (lo hi : Z) : hi <= lo -> range lo hi = [].
Proof.
  intros H. unfold range. replace (Z.to_nat (hi - lo)) with O by lia. reflexivity.
Qed.

Lemma length_range (lo hi : Z) : length (range lo hi) = Z.to_nat (hi - lo).
Proof. unfold range. now rewrite length_map, length_seq. Qed.

Lemma StronglySorted_range (lo hi : Z) : StronglySorted Z.lt (range lo hi).
Proof.
  remember (Z.to_nat (hi - lo)) as n eqn:Hn.
  revert lo Hn. induction n as [| n IH]; intros lo Hn.
  - rewrite range_nil by lia. constructor.
  - rewrite range_cons by lia. constructor.
    + apply IH. lia.
    + apply Forall_forall. intros i Hi. apply In_range in Hi. lia.
Qed.

Lemma StronglySorted_filter_lt {A : Type} (R : A -> A -> Prop) (f : A -> bool)
  (l : list A) :
  StronglySorted R l -> StronglySorted R (filter f l).
Proof.
  induction 1 as [| a l Hs IH Hall]; simpl; [ constructor | ].
  destruct (f a); [ | exact IH ].
  constructor; [ exact IH | ].
  apply Forall_forall. intros x Hx. apply filter_In in Hx.
  rewrite Forall_forall in Hall. now apply Hall.
Qed.

Section ReadFacts.
Context {A : Type}.

Lemma read_in_range (d : Dataset A) (i : Z) :
  all_readable d -> 1 <= i <= count d -> exists g, read d i = Return g.
Proof.
  intros Hr Hi. unfold read.
  replace ((1 <=? i) && (i <=? count d)) with true
    by (symmetry; apply andb_true_iff; split; apply Z.leb_le; lia).
  destruct (nth_error (bands d) (Z.to_nat (i - 1))) as [b |] eqn:Hnth.
  - destruct b as [g |]; [ eauto | ].
    apply nth_error_In in Hnth. now apply Hr in Hnth.
  - apply nth_error_None in Hnth. unfold count in Hi. lia.
Qed.

Lemma read_out_of_range (d : Dataset A) (i : Z) :
  i < 1 \/ count d < i -> read d i = Raise IndexError.
Proof.
  intros Hi. unfold read.
  replace ((1 <=? i) && (i <=? count d)) with false; [ reflexivity | ].
  symmetry. apply andb_false_iff.
  destruct Hi; [ left; apply Z.leb_gt | right; apply Z.leb_gt ]; lia.
Qed.

Lemma read_Return_range (d : Dataset A) (i : Z) (g : Grid A) :
  read d i = Return g -> 1 <= i <= count d.
Proof.
  unfold read. destruct ((1 <=? i) && (i <=? count d)) eqn:E; [ | discriminate ].
  apply andb_true_iff in E. destruct E as [E1 E2].
  apply Z.leb_le in E1. apply Z.leb_le in E2. lia.
Qed.
End ReadFacts.

(* ===================================================================== *)
(** * The class registry and the class detector *)
(* ===================================================================== *)

Section ClassesReaderFacts.
Import ClassesReader.
Context {F : Type} {arith : Arithmetic F}.

Lemma init_fields (fs : FileSystem F) (path : string) (self : t F) :
  init fs path = Return self ->
  open fs path = Return (image self)
  /\ bandes self = count (image self)
  /\ dict_classes self = class_table
  /\ reverse_dict_classes self = invert class_table.
Proof.
  unfold init. destruct (open fs path) as [img | e]; simpl.
  - intros H. injection H as <-. simpl. auto.
  - destruct (is_RasterioIOError e); discriminate.
Qed.


Lemma detect_loop_filter (self : t F) (indices acc : list Z) :
  all_readable (image self) ->
  (forall i, In i indices -> 1 <= i <= count (image self)) ->
  detect_loop self indices acc
  = Return (acc ++ filter (band_present self) indices).
Proof.
  intros Hr. revert acc.
  induction indices as [| i rest IH]; intros acc Hin; simpl.
  - now rewrite app_nil_r.
  - destruct (read_in_range (image self) i Hr) as [g Hg];
      [ apply Hin; now left | ].
    unfold band_present at 1. rewrite Hg. simpl.
    rewrite IH by (intros j Hj; apply Hin; now right).
    destruct (np_any g); [ now rewrite <- app_assoc | reflexivity ].
Qed.

(** C9.  On a reader whose bands all decode, [detect_classes] returns the
    indices [i] of 1..n ([n] the declared band count) whose band has a
    pixel that is not zero, each once and in ascending order; on three
    bands of which only the second has such a pixel it returns [[2]]. *)
Theorem detect_classes_spec :
  forall (fs : FileSystem F) (path : string) (self : t F),
    init fs path = Return self ->
    all_readable (image self) ->
    exists classes,
      detect_classes self = Return classes
      /\ StronglySorted Z.lt classes
      /\ (forall i, In i classes <->
            1 <= i <= bandes self
            /\ exists g, read (image self) i = Return g /\ np_any g = true)
      /\ (forall z1 g z2,
            bands (image self) = [Readable z1; Readable g; Readable z2] ->
            np_any z1 = false -> np_any g = true -> np_any z2 = false ->
            classes = [2]).
Proof.
  intros fs path self Hinit Hr.
  destruct (init_fields _ _ _ Hinit) as (_ & Hb & _ & _).
  assert (Hd : detect_classes self
               = Return (filter (band_present self) (range 1 (bandes self + 1)))).
  { unfold detect_classes. rewrite detect_loop_filter; [ reflexivity | exact Hr | ].
    intros i Hi. apply In_range in Hi. lia. }
  eexists. split; [ exact Hd | ]. split; [ | split ].
  - apply StronglySorted_filter_lt, StronglySorted_range.
  - intros i. rewrite filter_In, In_range. unfold band_present. split.
    + intros [Hi Hp]. split; [ lia | ].
      destruct (read (image self) i) as [g |]; [ eauto | discriminate ].
    + intros [Hi [g [Hg Hp]]]. rewrite Hg. split; [ lia | exact Hp ].
  - intros z1 g z2 Hbands Hz1 Hg Hz2.
    rewrite Hb. unfold count. rewrite Hbands. simpl length.
    change (range 1 (Z.of_nat 3 + 1)) with [1; 2; 3].
    unfold band_present, read, count. rewrite Hbands. simpl.
    now rewrite Hz1, Hg, Hz2.
Qed.

End ClassesReaderFacts.

(* ===================================================================== *)
(** * The coverage statistic *)
(* ===================================================================== *)

Section CoverageFacts.
Import GroundTruth.

Lemma flatten_grid_map {A B : Type} (f : A -> B) (g : Grid A) :
  flatten (grid_map f g) = map f (flatten g).
Proof. unfold flatten, grid_map. now rewrite concat_map. Qed.

Lemma length_flatten_rectangular {A : Type} (g : Grid A) :
  rectangular g ->
  length (flatten g) = (length g * length (hd [] g))%nat.
Proof.
  unfold rectangular, flatten. generalize (length (hd [] g)) as w.
  induction g as [| row g IH]; intros w H; simpl; [ reflexivity | ].
  rewrite length_app, (H row) by now left.
  rewrite IH with (w := w); [ reflexivity | ].
  intros r Hr. apply H. now right.
Qed.

Lemma pixel_count {A : Type} (band : Grid A) :
  rectangular band ->
  fst (shape band) * snd (shape band) = Z.of_nat (length (flatten band)).
Proof.
  intros H. unfold shape. simpl.
  rewrite length_flatten_rectangular by exact H. lia.
Qed.

Lemma shape_grid_map {A B : Type} (f : A -> B) (g : Grid A) :
  shape (grid_map f g) = shape g.
Proof.
  unfold shape, grid_map. rewrite length_map.
  destruct g as [| row g]; simpl; [ reflexivity | now rewrite length_map ].
Qed.

(** C2, as stated, fails: on the one-row band [-3, 1] the sum is -2, the
    maximum is 1, and the percentage is -2 / 2 * 100 = -100, without
    rounding as well as in binary32. *)
Lemma coverage_range_counterexample :
  coverage_statistic [[-3; 1]]%Q = Return (-200 # 2)%Q
  /\ coverage_statistic [[f32_of_Z (-3); f32_of_Z 1]] = Return (f32_of_Z (-100))
  /\ (exists q, SatImageReader.f32_value (f32_of_Z (-100)) = Some q
                 /\ (q == -100)%Q)
  /\ ~ (forall band : Grid Q,
          rectangular band ->
          exists pc, coverage_statistic band = Return pc /\ (0 <= pc <= 100)%Q)
  /\ ~ (forall band : Grid float32,
          rectangular band ->
          exists pc q, coverage_statistic band = Return pc
                       /\ SatImageReader.f32_value pc = Some q
                       /\ (0 <= q <= 100)%Q).
Proof.
  split; [ reflexivity | ]. split; [ reflexivity | ].
  split; [ eexists; split; reflexivity | ]. split.
  - intros H. destruct (H [[-3; 1]]%Q) as (pc & Hpc & Hlo & _).
    + intros row [<- | []]. reflexivity.
    + injection Hpc as <-. revert Hlo. unfold Qle. simpl. lia.
  - intros H.
    destruct (H [[f32_of_Z (-3); f32_of_Z 1]]) as (pc & q & Hpc & Hq & Hlo & _).
    + intros row [<- | []]. reflexivity.
    + injection Hpc as <-. injection Hq as <-.
      vm_compute in Hlo. apply Hlo. reflexivity.
Qed.

End CoverageFacts.

Section CoverageShortCut.
Import GroundTruth.
Context {F : Type} {arith : Arithmetic F}.

(** The test on the sum comes first: when it succeeds, neither the
    maximum nor a quotient is looked at. *)
Lemma coverage_statistic_zero_test (band : Grid F) :
  num_eqb (np_sum band) (num_of_int 0) = true ->
  coverage_statistic band = Return (num_of_int 0).
Proof.
  intros H. unfold coverage_statistic. now rewrite H.
Qed.

(** The scenario of the specification, on binary32 samples: a band that
    is uniformly 5 is covered at 100 percent, an empty one at 0. *)
Example coverage_uniform_binary32 :
  coverage_statistic
    [[f32_of_Z 5; f32_of_Z 5]; [f32_of_Z 5; f32_of_Z 5]] = Return (f32_of_Z 100)
  /\ coverage_statistic
       [[f32_of_Z 0; f32_of_Z 0]; [f32_of_Z 0; f32_of_Z 0]] = Return (f32_of_Z 0).
Proof. split; reflexivity. Qed.

End CoverageShortCut.

(* ===================================================================== *)
(** * Paths and sorted names *)
(* ===================================================================== *)

Section PathFacts.
Local Open Scope string_scope.

Lemma append_assoc (a b c : string) : (a ++ b) ++ c = a ++ (b ++ c).
Proof. induction a as [| x a IH]; simpl; [ reflexivity | now rewrite IH ]. Qed.

Lemma ends_with_app (suffix s : string) :
  ends_with suffix s = true -> exists pre, s = pre ++ suffix.
Proof.
  induction s as [| c s IH]; cbn [ends_with]; intros H.
  - rewrite orb_false_r in H. apply String.eqb_eq in H. now exists "".
  - apply orb_true_iff in H. destruct H as [H | H].
    + apply String.eqb_eq in H. now exists "".
    + destruct (IH H) as [pre ->]. now exists (String c pre).
Qed.

Lemma basename_from_no_slash (cur p : string) :
  has_slash p = false -> basename_from cur p = cur.
Proof.
  induction p as [| c p IH]; simpl; intros H; [ reflexivity | ].
  apply orb_false_iff in H. destruct H as [Hc Hp]. rewrite Hc. now apply IH.
Qed.

Lemma basename_from_app_slash (cur pre f : string) :
  basename_from cur (pre ++ String slash f) = basename_from f f.
Proof.
  revert cur. induction pre as [| c pre IH]; intros cur; simpl.
  - reflexivity.
  - destruct (Ascii.eqb c slash); apply IH.
Qed.

Lemma starts_with_slash (f : string) :
  has_slash f = false -> starts_with "/" f = false.
Proof.
  unfold starts_with. destruct f as [| c f]; [ reflexivity | ].
  cbn [has_slash String.prefix].
  intros H. apply orb_false_iff in H. destruct H as [Hc _].
  destruct (ascii_dec "/" c) as [<- | _]; [ discriminate | reflexivity ].
Qed.

Lemma os_path_join_prefix (folder f : string) :
  has_slash f = false -> os_path_join folder f = path_prefix folder ++ f.
Proof.
  intros H. unfold os_path_join, path_prefix. rewrite starts_with_slash by exact H.
  destruct (String.eqb folder "" || ends_with "/" folder);
    [ reflexivity | now rewrite append_assoc ].
Qed.

Lemma basename_join (folder f : string) :
  has_slash f = false -> os_path_basename (os_path_join folder f) = f.
Proof.
  intros H. rewrite os_path_join_prefix by exact H.
  unfold os_path_basename, path_prefix.
  destruct (String.eqb folder "") eqn:E; simpl.
  - apply String.eqb_eq in E. subst folder. simpl. now apply basename_from_no_slash.
  - destruct (ends_with "/" folder) eqn:E'.
    + destruct (ends_with_app _ _ E') as [pre ->].
      rewrite append_assoc. simpl. change "/"%char with slash.
      rewrite basename_from_app_slash. now apply basename_from_no_slash.
    + rewrite append_assoc. simpl. change "/"%char with slash.
      rewrite basename_from_app_slash. now apply basename_from_no_slash.
Qed.

Lemma ascii_compare_refl (c : ascii) : Ascii.compare c c = Eq.
Proof. unfold Ascii.compare. apply N.compare_refl. Qed.

Lemma compare_app_prefix (p a b : string) :
  String.compare (p ++ a) (p ++ b) = String.compare a b.
Proof.
  induction p as [| c p IH]; simpl; [ reflexivity | ].
  now rewrite ascii_compare_refl.
Qed.

Lemma leb_app_prefix (p a b : string) :
  String.leb (p ++ a) (p ++ b) = String.leb a b.
Proof. unfold String.leb. now rewrite compare_app_prefix. Qed.

Lemma Sorted_map_prefix (p : string) (l : list string) :
  Sorted (fun x y => is_true (String.leb x y)) (map (String.append p) l) ->
  Sorted (fun x y => is_true (String.leb x y)) l.
Proof.
  induction l as [| a l IH]; simpl; intros H; [ constructor | ].
  inversion H as [| ? ? Hs Hhd]; subst. constructor; [ now apply IH | ].
  destruct l as [| b l]; simpl in *; constructor.
  inversion Hhd as [| ? ? Hab]; subst. unfold is_true in *.
  now rewrite leb_app_prefix in Hab.
Qed.

(** The sorted paths are the folder prefix put in front of the sorted
    names. *)
Lemma sorted_paths_names (folder : string) (names : list string) :
  (forall f, In f names -> has_slash f = false) ->
  let paths := sorted (map (os_path_join folder) names) in
  let files := map os_path_basename paths in
  paths = map (os_path_join folder) files
  /\ Permutation names files
  /\ Sorted (fun x y => is_true (String.leb x y)) files.
Proof.
  intros Hns paths files.
  assert (Hperm : Permutation (map (os_path_join folder) names) paths)
    by apply StringSort.Permuted_sort.
  assert (Hin : forall q, In q paths ->
                  exists f, In f names /\ q = os_path_join folder f).
  { intros q Hq. apply Permutation_sym in Hperm.
    apply (Permutation_in _ Hperm) in Hq. apply in_map_iff in Hq.
    destruct Hq as (f & <- & Hf). eauto. }
  assert (Hpaths : paths = map (os_path_join folder) files).
  { unfold files. rewrite map_map. rewrite <- (map_id paths) at 1.
    apply map_ext_in. intros q Hq. destruct (Hin q Hq) as (f & Hf & ->).
    now rewrite basename_join by auto. }
  split; [ exact Hpaths | ]. split.
  - unfold files.
    apply Permutation_trans
      with (map os_path_basename (map (os_path_join folder) names)).
    + rewrite map_map. rewrite <- (map_id names) at 1.
      erewrite map_ext_in; [ apply Permutation_refl | ].
      intros f Hf. simpl. now rewrite basename_join by auto.
    + now apply Permutation_map.
  - apply Sorted_map_prefix with (p := path_prefix folder).
    assert (E : map (String.append (path_prefix folder)) files = paths).
    { rewrite Hpaths. apply map_ext_in. intros f Hf.
      unfold files in Hf. apply in_map_iff in Hf. destruct Hf as (q & <- & Hq).
      destruct (Hin q Hq) as (f & Hf & ->).
      rewrite basename_join by auto. now rewrite os_path_join_prefix by auto. }
    rewrite E. apply StringSort.Sorted_sort.
Qed.

End PathFacts.

(* ===================================================================== *)
(** * The evolution matrix *)
(* ===================================================================== *)

Section CollectFacts.
Context {A B : Type}.
Variable f : A -> result B.

Lemma collect_Forall2 (l : list A) (bs : list B) :
  collect f l = Return bs <-> Forall2 (fun a b => f a = Return b) l bs.
Proof.
  revert bs. induction l as [| a l IH]; intros bs; simpl; split.
  - intros H. injection H as <-. constructor.
  - intros H. inversion H. reflexivity.
  - intros H. apply bind_Return_inv in H. destruct H as (b & Hb & H).
    apply bind_Return_inv in H. destruct H as (bs' & Hbs & H).
    injection H as <-. constructor; [ exact Hb | now apply IH ].
  - intros H. inversion H as [| ? b ? bs' Hb Hbs]; subst.
    rewrite Hb. simpl. apply IH in Hbs. now rewrite Hbs.
Qed.

Lemma length_collect (l : list A) (bs : list B) :
  collect f l = Return bs -> length bs = length l.
Proof.
  intros H. apply collect_Forall2 in H. symmetry. now apply Forall2_length in H.
Qed.

Lemma collect_Raise_member (l : list A) (a : A) (e : exn) :
  In a l -> f a = Raise e ->
  exists a' e', In a' l /\ f a' = Raise e' /\ collect f l = Raise e'.
Proof.
  induction l as [| x l IH]; simpl; intros Hin Hf; [ contradiction | ].
  destruct (f x) as [b | ex] eqn:Hx.
  - destruct Hin as [-> | Hin]; [ congruence | ].
    destruct (IH Hin Hf) as (a' & e' & Ha' & Hfa' & Hc).
    exists a', e'. repeat split; auto. simpl. now rewrite Hc.
  - exists x, ex. repeat split; auto.
Qed.

Lemma collect_Raise_first (l : list A) (a : A) (e : exn) :
  In a l -> f a = Raise e ->
  exists before a' after e',
    l = before ++ a' :: after
    /\ (forall p, In p before -> exists b, f p = Return b)
    /\ f a' = Raise e' /\ collect f l = Raise e'.
Proof.
  induction l as [| x l IH]; simpl; intros Hin Hf; [ contradiction | ].
  destruct (f x) as [b | ex] eqn:Hx.
  - destruct Hin as [-> | Hin]; [ congruence | ].
    destruct (IH Hin Hf) as (before & a' & after & e' & -> & Hb & Hfa' & Hc).
    exists (x :: before), a', after, e'. split; [ reflexivity | ].
    split; [ | split; [ exact Hfa' | simpl; now rewrite Hc ] ].
    intros p [<- | Hp]; [ eauto | now apply Hb ].
  - exists [], x, l, ex. split; [ reflexivity | ].
    split; [ intros p [] | auto ].
Qed.

End CollectFacts.

Section EvolutionFacts.
Import GroundTruth.
Context {F : Type} {arith : Arithmetic F}.

Lemma length_list_update {A : Type} (l : list A) (k : nat) (f : A -> A) :
  length (list_update l k f) = length l.
Proof.
  revert k. induction l as [| x l IH]; intros [| k]; simpl; auto.
Qed.

Lemma list_update_twice {A : Type} (l : list A) (k : nat) (f g : A -> A) :
  list_update (list_update l k f) k g = list_update l k (fun x => g (f x)).
Proof.
  revert k. induction l as [| x l IH]; intros [| k]; simpl; auto.
  now rewrite IH.
Qed.

Lemma list_update_const {A : Type} (l : list A) (k : nat) (f : A -> A) (x : A) :
  nth_error l k = Some x -> list_update l k f = list_update l k (fun _ => f x).
Proof.
  revert k. induction l as [| y l IH]; intros [| k]; simpl; intros H;
    try discriminate.
  - now injection H as ->.
  - now rewrite (IH k H).
Qed.

Lemma list_update_same {A : Type} (l : list A) (k : nat) (x : A) :
  nth_error l k = Some x -> list_update l k (fun _ => x) = l.
Proof.
  revert k. induction l as [| y l IH]; intros [| k]; simpl; intros H;
    try discriminate.
  - now injection H as ->.
  - now rewrite (IH k H).
Qed.

Lemma list_update_app {A : Type} (done todo : list A) (x : A) (f : A -> A) :
  list_update (done ++ x :: todo) (length done) f = done ++ f x :: todo.
Proof. induction done as [| y done IH]; simpl; [ reflexivity | now rewrite IH ]. Qed.

Lemma nth_error_list_update {A : Type} (l : list A) (k : nat) (f : A -> A) (x : A) :
  nth_error l k = Some x -> nth_error (list_update l k f) k = Some (f x).
Proof.
  revert k. induction l as [| y l IH]; intros [| k]; simpl; intros H;
    try discriminate.
  - now injection H as ->.
  - now apply IH.
Qed.

Lemma position_in_range (n : nat) (i : Z) :
  0 <= i < Z.of_nat n -> position n i = Return (Z.to_nat i).
Proof.
  intros H. unfold position.
  replace ((0 <=? i) && (i <? Z.of_nat n)) with true; [ reflexivity | ].
  symmetry. apply andb_true_iff. split; [ apply Z.leb_le | apply Z.ltb_lt ]; lia.
Qed.

Lemma matrix_set_in_range (m : Matrix F) (r c : Z) (v : F) (row : list (option F)) :
  0 <= r < Z.of_nat (length m) ->
  nth_error m (Z.to_nat r) = Some row ->
  0 <= c < Z.of_nat (length row) ->
  matrix_set m r c v
  = Return (list_update m (Z.to_nat r)
              (fun _ => list_update row (Z.to_nat c) (fun _ => Some v))).
Proof.
  intros Hr Hrow Hc. unfold matrix_set.
  rewrite position_in_range by exact Hr. simpl. rewrite Hrow.
  rewrite position_in_range by exact Hc. simpl.
  now rewrite (list_update_const m _ _ row Hrow).
Qed.

(** The inner loop reads and computes in the order of [collect], and its
    writes never fall outside the row. *)
Lemma band_loop_collect (src : Dataset F) (index : Z) (indices : list Z) :
  forall (m : Matrix F) (row : list (option F)),
    0 <= index < Z.of_nat (length m) ->
    nth_error m (Z.to_nat index) = Some row ->
    (forall i, In i indices -> 1 <= i <= Z.of_nat (length row)) ->
    band_loop src index indices m
    = (vals <- collect (band_value src) indices ;;
       Return (list_update m (Z.to_nat index)
                 (fun _ => write_cells row (combine indices vals)))).
Proof.
  induction indices as [| i rest IH]; intros m row Hidx Hrow Hin.
  - simpl. unfold write_cells. simpl. now rewrite list_update_same.
  - cbn [band_loop collect]. unfold band_value at 1.
    destruct (read src i) as [band | e]; [ | reflexivity ]. cbn [bind].
    destruct (coverage_statistic band) as [pc | e]; [ | reflexivity ]. cbn [bind].
    assert (Hi : 1 <= i <= Z.of_nat (length row)) by (apply Hin; now left).
    rewrite (matrix_set_in_range m index (i - 1) pc row Hidx Hrow) by lia.
    cbn [bind].
    rewrite (IH _ (list_update row (Z.to_nat (i - 1)) (fun _ => Some pc))).
    + destruct (collect (band_value src) rest) as [vals | e]; [ | reflexivity ].
      cbn [bind combine]. now rewrite list_update_twice.
    + now rewrite length_list_update.
    + exact (nth_error_list_update m _
               (fun _ => list_update row (Z.to_nat (i - 1)) (fun _ => Some pc))
               row Hrow).
    + intros j Hj. rewrite length_list_update. apply Hin. now right.
Qed.

Lemma write_seven_cells (vals : list F) :
  length vals = 7%nat ->
  write_cells (repeat None 7) (combine (range 1 8) vals) = map Some vals.
Proof.
  intros H.
  do 7 (destruct vals as [| ? vals]; [ discriminate | ]).
  destruct vals; [ reflexivity | discriminate ].
Qed.

Lemma dates_of_cons (p : string) (paths : list string) :
  dates_of (p :: paths)
  = match date_label (os_path_basename p) with
    | Some d => d :: dates_of paths
    | None => dates_of paths
    end.
Proof. unfold dates_of. simpl. now destruct (date_label (os_path_basename p)). Qed.

(** The outer loop, started at row [length done] with the rows of [done]
    already written. *)
Lemma file_loop_collect (fs : FileSystem F) (files : list string) :
  forall (done : Matrix F) (dates : list string),
    file_loop fs
      (combine (range (Z.of_nat (length done))
                  (Z.of_nat (length done) + Z.of_nat (length files))) files)
      (done ++ np_empty (length files) 7) dates
    = (rows <- collect (file_row fs) files ;;
       Return (done ++ map (map Some) rows, dates ++ dates_of files)).
Proof.
  induction files as [| p files IH]; intros done dates.
  - rewrite range_nil by (simpl; lia). simpl. now rewrite !app_nil_r.
  - rewrite range_cons by (simpl length; lia).
    cbn [combine file_loop collect]. unfold file_row at 1.
    destruct (open fs p) as [src | e]; [ | reflexivity ]. cbn [bind].
    change (np_empty (length (p :: files)) 7)
      with (repeat (@None F) 7 :: np_empty (length files) 7).
    rewrite (band_loop_collect src _ (range 1 8) _ (repeat (@None F) 7)).
    + destruct (collect (band_value src) (range 1 8)) as [vals | e] eqn:Hvals;
        [ | reflexivity ].
      cbn [bind]. rewrite Nat2Z.id, list_update_app.
      rewrite write_seven_cells by (now rewrite (length_collect _ _ _ Hvals)).
      replace (done ++ map Some vals :: np_empty (length files) 7)
        with ((done ++ [map Some vals]) ++ np_empty (length files) 7)
        by (now rewrite <- app_assoc).
      replace (Z.of_nat (length done) + 1)
        with (Z.of_nat (length (done ++ [map Some vals])))
        by (rewrite length_app; simpl; lia).
      replace (Z.of_nat (length done) + Z.of_nat (length (p :: files)))
        with (Z.of_nat (length (done ++ [map Some vals]))
              + Z.of_nat (length files))
        by (rewrite length_app; simpl length; lia).
      rewrite IH. rewrite dates_of_cons.
      destruct (collect (file_row fs) files) as [rows | e]; [ | reflexivity ].
      cbn [bind map]. rewrite <- !app_assoc. simpl.
      destruct (date_label (os_path_basename p));
        [ now rewrite <- app_assoc | reflexivity ].
    + rewrite length_app. simpl length. lia.
    + rewrite Nat2Z.id. now rewrite nth_error_app2, Nat.sub_diag by lia.
    + intros i Hi. apply In_range in Hi. rewrite repeat_length. lia.
Qed.

(** [mask_evolution] as a function of the sorted paths: the rows of the
    files in that order, or the exception of the first file that fails. *)
Lemma mask_evolution_collect (fs : FileSystem F) (folder_path : string) :
  mask_evolution fs folder_path
  = (names <- listdir fs folder_path ;;
     rows <- collect (file_row fs) (tif_files folder_path names) ;;
     Return (map (map Some) rows, dates_of (tif_files folder_path names))).
Proof.
  unfold mask_evolution.
  destruct (listdir fs folder_path) as [names | e]; [ | reflexivity ].
  cbn [bind]. unfold enumerate.
  exact (file_loop_collect fs (tif_files folder_path names) [] []).
Qed.

End EvolutionFacts.

(* ===================================================================== *)
(** * The date label *)
(* ===================================================================== *)

Section Utf8Facts.

Lemma byte_of_range (c : ascii) : 0 <= byte_of c < 256.
Proof.
  unfold byte_of. assert (H := N_ascii_bounded c). lia.
Qed.

Lemma of_byte_of (c : ascii) : of_byte (byte_of c) = c.
Proof.
  unfold of_byte, byte_of. rewrite N2Z.id. apply ascii_N_embedding.
Qed.

Lemma byte_of_of (b : Z) : 0 <= b < 256 -> byte_of (of_byte b) = b.
Proof.
  intros H. unfold of_byte, byte_of.
  rewrite N_ascii_embedding by lia. lia.
Qed.

Lemma continuation_range (c : ascii) :
  continuation c = true <-> 128 <= byte_of c <= 191.
Proof.
  unfold continuation. rewrite andb_true_iff, !Z.leb_le. tauto.
Qed.

(** [utf8_head] reads exactly the encodings of the code points that are
    no surrogates. *)
Lemma utf8_head_spec (s : string) (cp : Z) (bytes rest : string) :
  utf8_head s = Some (cp, bytes, rest)
  <-> scalar_value cp /\ bytes = utf8_encode cp /\ s = (bytes ++ rest)%string.
Proof.
  unfold scalar_value. split.
  - unfold utf8_head. destruct s as [| c1 r1]; [ discriminate | ].
    assert (H1 := byte_of_range c1).
    destruct (Z.ltb_spec (byte_of c1) 128) as [L1 | L1].
    { intros H. injection H as <- <- <-. unfold utf8_encode.
      destruct (Z.ltb_spec (byte_of c1) 128); [ | lia ].
      rewrite of_byte_of. repeat split; auto. lia. }
    destruct ((194 <=? byte_of c1) && (byte_of c1 <=? 223)) eqn:L2.
    { apply andb_true_iff in L2. destruct L2 as [La Lb].
      apply Z.leb_le in La. apply Z.leb_le in Lb.
      destruct r1 as [| c2 r2]; [ discriminate | ].
      destruct (continuation c2) eqn:C2; [ | discriminate ].
      apply continuation_range in C2.
      intros H. injection H as <- <- <-. unfold utf8_encode.
      set (v := (byte_of c1 - 192) * 64 + (byte_of c2 - 128)).
      assert (Hcp : 128 <= v < 2048) by (unfold v; lia).
      destruct (Z.ltb_spec v 128); [ lia | ].
      destruct (Z.ltb_spec v 2048); [ | lia ].
      replace (192 + v / 64) with (byte_of c1)
        by (unfold v; Z.div_mod_to_equations; lia).
      replace (128 + v mod 64) with (byte_of c2)
        by (unfold v; Z.div_mod_to_equations; lia).
      rewrite !of_byte_of. repeat split; auto. lia. }
    destruct ((224 <=? byte_of c1) && (byte_of c1 <=? 239)) eqn:L3.
    { apply andb_true_iff in L3. destruct L3 as [La Lb].
      apply Z.leb_le in La. apply Z.leb_le in Lb.
      destruct r1 as [| c2 [| c3 r3]]; try discriminate.
      set (v := (byte_of c1 - 224) * 4096 + (byte_of c2 - 128) * 64
                 + (byte_of c3 - 128)).
      destruct (continuation c2 && continuation c3 && (2048 <=? v)
                && negb ((55296 <=? v) && (v <=? 57343))) eqn:C;
        [ | discriminate ].
      apply andb_true_iff in C. destruct C as [C Cs].
      apply andb_true_iff in C. destruct C as [C Cl].
      apply andb_true_iff in C. destruct C as [C2 C3].
      apply continuation_range in C2. apply continuation_range in C3.
      apply Z.leb_le in Cl. apply negb_true_iff, andb_false_iff in Cs.
      intros H. injection H as <- <- <-. unfold utf8_encode.
      assert (Hcp : 2048 <= v < 65536) by (unfold v; lia).
      destruct (Z.ltb_spec v 128); [ lia | ].
      destruct (Z.ltb_spec v 2048); [ lia | ].
      destruct (Z.ltb_spec v 65536); [ | lia ].
      replace (224 + v / 4096) with (byte_of c1)
        by (unfold v; Z.div_mod_to_equations; lia).
      replace (128 + (v / 64) mod 64) with (byte_of c2)
        by (unfold v; Z.div_mod_to_equations; lia).
      replace (128 + v mod 64) with (byte_of c3)
        by (unfold v; Z.div_mod_to_equations; lia).
      rewrite !of_byte_of. repeat split; auto.
      destruct Cs as [Cs | Cs]; [ apply Z.leb_gt in Cs | apply Z.leb_gt in Cs ];
        lia. }
    destruct ((240 <=? byte_of c1) && (byte_of c1 <=? 244)) eqn:L4;
      [ | discriminate ].
    apply andb_true_iff in L4. destruct L4 as [La Lb].
    apply Z.leb_le in La. apply Z.leb_le in Lb.
    destruct r1 as [| c2 [| c3 [| c4 r4]]]; try discriminate.
    set (v := (byte_of c1 - 240) * 262144 + (byte_of c2 - 128) * 4096
               + (byte_of c3 - 128) * 64 + (byte_of c4 - 128)).
    destruct (continuation c2 && continuation c3 && continuation c4
              && (65536 <=? v) && (v <=? 1114111)) eqn:C; [ | discriminate ].
    apply andb_true_iff in C. destruct C as [C Ch]. apply Z.leb_le in Ch.
    apply andb_true_iff in C. destruct C as [C Cl]. apply Z.leb_le in Cl.
    apply andb_true_iff in C. destruct C as [C C4].
    apply andb_true_iff in C. destruct C as [C2 C3].
    apply continuation_range in C2. apply continuation_range in C3.
    apply continuation_range in C4.
    intros H. injection H as <- <- <-. unfold utf8_encode.
    destruct (Z.ltb_spec v 128); [ lia | ].
    destruct (Z.ltb_spec v 2048); [ lia | ].
    destruct (Z.ltb_spec v 65536); [ lia | ].
    replace (240 + v / 262144) with (byte_of c1)
      by (unfold v; Z.div_mod_to_equations; lia).
    replace (128 + (v / 4096) mod 64) with (byte_of c2)
      by (unfold v; Z.div_mod_to_equations; lia).
    replace (128 + (v / 64) mod 64) with (byte_of c3)
      by (unfold v; Z.div_mod_to_equations; lia).
    replace (128 + v mod 64) with (byte_of c4)
      by (unfold v; Z.div_mod_to_equations; lia).
    rewrite !of_byte_of. repeat split; auto. lia.
  - intros (Hcp & -> & ->). unfold utf8_encode.
    destruct (Z.ltb_spec cp 128) as [L1 | L1].
    { cbn [append utf8_head]. rewrite byte_of_of by lia.
      destruct (Z.ltb_spec cp 128); [ reflexivity | lia ]. }
    destruct (Z.ltb_spec cp 2048) as [L2 | L2].
    { cbn [append utf8_head]. unfold continuation.
      rewrite !byte_of_of by (Z.div_mod_to_equations; lia).
      destruct (Z.ltb_spec (192 + cp / 64) 128);
        [ Z.div_mod_to_equations; lia | ].
      replace ((194 <=? 192 + cp / 64) && (192 + cp / 64 <=? 223)) with true
        by (symmetry; apply andb_true_iff; rewrite !Z.leb_le;
            Z.div_mod_to_equations; lia).
      replace ((128 <=? 128 + cp mod 64) && (128 + cp mod 64 <=? 191)) with true
        by (symmetry; apply andb_true_iff; rewrite !Z.leb_le;
            Z.div_mod_to_equations; lia).
      repeat f_equal. Z.div_mod_to_equations; lia. }
    destruct (Z.ltb_spec cp 65536) as [L3 | L3].
    { cbn [append utf8_head]. unfold continuation.
      rewrite !byte_of_of by (Z.div_mod_to_equations; lia).
      destruct (Z.ltb_spec (224 + cp / 4096) 128);
        [ Z.div_mod_to_equations; lia | ].
      replace ((194 <=? 224 + cp / 4096) && (224 + cp / 4096 <=? 223)) with false
        by (symmetry; apply andb_false_iff; right; apply Z.leb_gt;
            Z.div_mod_to_equations; lia).
      replace ((224 <=? 224 + cp / 4096) && (224 + cp / 4096 <=? 239)) with true
        by (symmetry; apply andb_true_iff; rewrite !Z.leb_le;
            Z.div_mod_to_equations; lia).
      replace ((128 <=? 128 + (cp / 64) mod 64)
               && (128 + (cp / 64) mod 64 <=? 191)) with true
        by (symmetry; apply andb_true_iff; rewrite !Z.leb_le;
            Z.div_mod_to_equations; lia).
      replace ((128 <=? 128 + cp mod 64) && (128 + cp mod 64 <=? 191)) with true
        by (symmetry; apply andb_true_iff; rewrite !Z.leb_le;
            Z.div_mod_to_equations; lia).
      replace ((224 + cp / 4096 - 224) * 4096
               + (128 + (cp / 64) mod 64 - 128) * 64
               + (128 + cp mod 64 - 128)) with cp
        by (Z.div_mod_to_equations; lia).
      replace (2048 <=? cp) with true by (symmetry; apply Z.leb_le; lia).
      replace ((55296 <=? cp) && (cp <=? 57343)) with false
        by (symmetry; apply andb_false_iff;
            destruct Hcp; [ left | right ]; apply Z.leb_gt; lia).
      reflexivity. }
    cbn [append utf8_head]. unfold continuation.
    rewrite !byte_of_of by (Z.div_mod_to_equations; lia).
    destruct (Z.ltb_spec (240 + cp / 262144) 128);
      [ Z.div_mod_to_equations; lia | ].
    replace ((194 <=? 240 + cp / 262144) && (240 + cp / 262144 <=? 223))
      with false
      by (symmetry; apply andb_false_iff; right; apply Z.leb_gt;
          Z.div_mod_to_equations; lia).
    replace ((224 <=? 240 + cp / 262144) && (240 + cp / 262144 <=? 239))
      with false
      by (symmetry; apply andb_false_iff; right; apply Z.leb_gt;
          Z.div_mod_to_equations; lia).
    replace ((240 <=? 240 + cp / 262144) && (240 + cp / 262144 <=? 244))
      with true
      by (symmetry; apply andb_true_iff; rewrite !Z.leb_le;
          Z.div_mod_to_equations; lia).
    replace ((128 <=? 128 + (cp / 4096) mod 64)
             && (128 + (cp / 4096) mod 64 <=? 191)) with true
      by (symmetry; apply andb_true_iff; rewrite !Z.leb_le;
          Z.div_mod_to_equations; lia).
    replace ((128 <=? 128 + (cp / 64) mod 64)
             && (128 + (cp / 64) mod 64 <=? 191)) with true
      by (symmetry; apply andb_true_iff; rewrite !Z.leb_le;
          Z.div_mod_to_equations; lia).
    replace ((128 <=? 128 + cp mod 64) && (128 + cp mod 64 <=? 191)) with true
      by (symmetry; apply andb_true_iff; rewrite !Z.leb_le;
          Z.div_mod_to_equations; lia).
    replace ((240 + cp / 262144 - 240) * 262144
             + (128 + (cp / 4096) mod 64 - 128) * 4096
             + (128 + (cp / 64) mod 64 - 128) * 64
             + (128 + cp mod 64 - 128)) with cp
      by (Z.div_mod_to_equations; lia).
    replace (65536 <=? cp) with true by (symmetry; apply Z.leb_le; lia).
    replace (cp <=? 1114111) with true
      by (symmetry; apply Z.leb_le; destruct Hcp; lia).
    reflexivity.
Qed.

End Utf8Facts.

Section DateFacts.
Import GroundTruth.
Local Open Scope string_scope.

Lemma take_spec (k : cclass) (s bytes rest : string) :
  take k s = Some (bytes, rest) <-> s = bytes ++ rest /\ character k bytes.
Proof.
  destruct k; simpl.
  - split.
    + destruct (utf8_head s) as [[[cp b] r] |] eqn:H; [ | discriminate ].
      destruct (is_digit cp) eqn:Hd; [ | discriminate ].
      intros E. injection E as <- <-. apply utf8_head_spec in H.
      destruct H as (Hs & Hb & Hsr). split; [ exact Hsr | ]. exists cp. auto.
    + intros (-> & cp & Hs & Hd & ->).
      rewrite (proj2 (utf8_head_spec _ cp (utf8_encode cp) rest)) by auto.
      now rewrite Hd.
  - split.
    + destruct s as [| c rest']; [ discriminate | ].
      destruct (Ascii.eqb c "-" || Ascii.eqb c "_") eqn:E; [ | discriminate ].
      intros H. injection H as <- <-. split; [ reflexivity | ].
      apply orb_true_iff in E.
      destruct E as [E | E]; apply Ascii.eqb_eq in E; subst; auto.
    + intros (-> & [-> | ->]); reflexivity.
Qed.

Lemma match_here_spec (p : list cclass) :
  forall s m,
    match_here p s = Some m <-> exists post, s = m ++ post /\ matches p m.
Proof.
  induction p as [| k p IH]; intros s m; simpl; split.
  - intros H. injection H as <-. exists s. split; reflexivity.
  - intros (post & -> & ->). reflexivity.
  - destruct (take k s) as [[bytes rest] |] eqn:Ht; [ | discriminate ].
    destruct (match_here p rest) as [m' |] eqn:Hm; [ | discriminate ].
    intros H. injection H as <-. apply take_spec in Ht. destruct Ht as [-> Hc].
    apply IH in Hm. destruct Hm as (post & -> & Hm).
    exists post. split; [ now rewrite append_assoc | ]. exists bytes, m'. auto.
  - intros (post & -> & bytes & m' & -> & Hc & Hm).
    rewrite append_assoc.
    rewrite (proj2 (take_spec k _ bytes (m' ++ post))) by auto.
    rewrite (proj2 (IH (m' ++ post) m')) by eauto. reflexivity.
Qed.

(** [re_search] returns the leftmost match, and [None] only when the
    pattern matches nowhere. *)
Lemma re_search_spec (p : list cclass) (s : string) :
  match re_search p s with
  | Some m =>
      exists pre post,
        s = pre ++ m ++ post /\ matches p m
        /\ forall pre' m' post',
             s = pre' ++ m' ++ post' -> matches p m' ->
             (String.length pre <= String.length pre')%nat
  | None => forall pre m post, s = pre ++ m ++ post -> ~ matches p m
  end.
Proof.
  induction s as [| c s IH]; cbn [re_search].
  - destruct (match_here p "") as [m |] eqn:Hm.
    + apply match_here_spec in Hm. destruct Hm as (post & E & Hm).
      exists "", post. repeat split; auto. intros. simpl. lia.
    + intros pre m post E Hmm.
      destruct pre; [ | discriminate ]. simpl in E.
      assert (H : match_here p "" = Some m) by (apply match_here_spec; eauto).
      congruence.
  - destruct (match_here p (String c s)) as [m |] eqn:Hm.
    + apply match_here_spec in Hm. destruct Hm as (post & E & Hm).
      exists "", post. repeat split; auto. intros. simpl. lia.
    + assert (Hhere : forall m post, String c s = m ++ post -> ~ matches p m).
      { intros m post E Hmm.
        assert (H : match_here p (String c s) = Some m)
          by (apply match_here_spec; eauto).
        congruence. }
      destruct (re_search p s) as [m |].
      * destruct IH as (pre & post & -> & Hmm & Hleft).
        exists (String c pre), post. repeat split; auto.
        intros pre' m' post' E Hm'. destruct pre' as [| c' pre'].
        -- exfalso. now apply (Hhere m' post').
        -- simpl in E. injection E as _ E. simpl.
           apply le_n_S. now apply (Hleft pre' m' post').
      * intros pre m post E Hmm. destruct pre as [| c' pre].
        -- now apply (Hhere m post).
        -- simpl in E. injection E as _ E. now apply (IH pre m post).
Qed.

Lemma length_dates_of (paths : list string) :
  length (dates_of paths)
  = length (filter (fun p => match date_label (os_path_basename p) with
                             | Some _ => true
                             | None => false
                             end) paths).
Proof.
  induction paths as [| p paths IH]; [ reflexivity | ].
  rewrite dates_of_cons. simpl.
  destruct (date_label (os_path_basename p)); simpl; now rewrite IH.
Qed.

Lemma is_digit_ascii (cp : Z) :
  0 <= cp < 128 -> (is_digit cp = true <-> 48 <= cp <= 57).
Proof.
  intros Hcp. unfold is_digit, in_ranges. rewrite existsb_exists. split.
  - intros ([lo hi] & Hin & Hr). apply andb_true_iff in Hr.
    destruct Hr as [Hlo Hhi]. apply Z.leb_le in Hlo. apply Z.leb_le in Hhi.
    unfold decimal_ranges in Hin. simpl in Hin, Hlo, Hhi.
    repeat (destruct Hin as [Hin | Hin];
            [ injection Hin as <- <-; lia | ]).
    contradiction.
  - intros H. exists (48, 57). split; [ now left | ].
    apply andb_true_iff. split; apply Z.leb_le; simpl; lia.
Qed.

Lemma flat_map_map {A B C : Type} (f : A -> B) (g : B -> list C) (l : list A) :
  flat_map g (map f l) = flat_map (fun a => g (f a)) l.
Proof.
  induction l as [| a l IH]; simpl; [ reflexivity | now rewrite IH ].
Qed.

(** C7.  The date label of a file name is its leftmost stretch of four
    decimal digits, a separator, two digits, a separator and two digits,
    the separators being ['-'] or ['_'] and the digits those of [\d] (the
    decimal digits of Unicode, which among the first 128 characters are
    ['0'] to ['9']), with every ['_'] turned into ['-']; there is none
    exactly when no such stretch exists.  "scene_2020-05-12_v1.tif" gives
    "2020-05-12", "scene.tif" and "abcd-ef-gh.tif" give none; a name dated
    in Arabic-Indic or in fullwidth digits gets its label, one written in
    superscript digits (which are no decimal digits) or with dashes other
    than ['-'] gets none, and a stretch that breaks off is passed over for
    the next one.  In the result of
    [mask_evolution] every [.tif] file has a row, and the dates are the
    labels of the names of these files, in ascending order of the names,
    those without a label being skipped. *)
Theorem date_label_spec :
  (forall filename,
     match date_label filename with
     | Some d =>
         exists pre m post,
           filename = pre ++ m ++ post
           /\ matches date_pattern m
           /\ d = replace_char "_" "-" m
           /\ forall pre' m' post',
                filename = pre' ++ m' ++ post' -> matches date_pattern m' ->
                (String.length pre <= String.length pre')%nat
     | None =>
         forall pre m post,
           filename = pre ++ m ++ post -> ~ matches date_pattern m
     end)
  /\ (forall cp, 0 <= cp < 128 -> (is_digit cp = true <-> 48 <= cp <= 57))
  /\ date_label "scene_2020-05-12_v1.tif" = Some "2020-05-12"
  /\ date_label "scene.tif" = None
  /\ date_label "abcd-ef-gh.tif" = None
  /\ date_label "f_٢٠٢٠_٠٥-١٢.tif" = Some "٢٠٢٠-٠٥-١٢"
  /\ date_label "f_２０２０-０５_１２.tif" = Some "２０２０-０５-１２"
  /\ date_label "f_²⁰²⁰-⁰⁵-¹².tif" = None
  /\ date_label "f_2020–05–12.tif" = None
  /\ date_label "2020-05-1x_2021_06_07" = Some "2021-06-07"
  /\ (forall (F : Type) (arith : Arithmetic F) (fs : FileSystem F)
             folder_path names (evol_matrix : Matrix F) dates,
        listdir fs folder_path = Return names ->
        (forall f, In f names -> has_slash f = false) ->
        mask_evolution fs folder_path = Return (evol_matrix, dates) ->
        exists files,
          Permutation (filter (ends_with ".tif") names) files
          /\ Sorted (fun x y => is_true (String.leb x y)) files
          /\ length evol_matrix = length files
          /\ dates = flat_map (fun f => match date_label f with
                                        | Some d => [d]
                                        | None => []
                                        end) files
          /\ (length dates <= length evol_matrix)%nat).
Proof.
  split; [ | split; [ exact is_digit_ascii | ] ].
  - intros filename. unfold date_label.
    assert (H := re_search_spec date_pattern filename).
    destruct (re_search date_pattern filename) as [m |]; [ | exact H ].
    destruct H as (pre & post & E & Hm & Hleft).
    exists pre, m, post. auto.
  - do 8 (split; [ reflexivity | ]).
    intros F arith fs folder_path names evol_matrix dates Hls Hns H.
    rewrite mask_evolution_collect, Hls in H. cbn [bind] in H.
    destruct (collect (file_row fs) (tif_files folder_path names))
      as [rows |] eqn:Hrows; [ | discriminate ].
    cbn [bind] in H. injection H as <- <-.
    apply length_collect in Hrows.
    assert (Hns' : forall f, In f (filter (ends_with ".tif") names) ->
                     has_slash f = false).
    { intros f Hf. apply filter_In in Hf. now apply Hns. }
    destruct (sorted_paths_names folder_path _ Hns') as (Hpaths & Hperm & Hsorted).
    fold (tif_files folder_path names) in Hpaths, Hperm, Hsorted.
    set (files := map os_path_basename (tif_files folder_path names)) in *.
    assert (Hdates : dates_of (tif_files folder_path names)
                     = flat_map (fun f => match date_label f with
                                          | Some d => [d]
                                          | None => []
                                          end) files).
    { unfold files, dates_of. now rewrite flat_map_map. }
    exists files. split; [ exact Hperm | ]. split; [ exact Hsorted | ].
    split; [ now rewrite length_map, Hrows; unfold files; rewrite length_map | ].
    split; [ exact Hdates | ].
    rewrite length_map, Hrows, length_dates_of. apply filter_length_le.
Qed.

End DateFacts.

(* ===================================================================== *)
(** * Rows, files and failures *)
(* ===================================================================== *)

Section BatchFacts.
Import GroundTruth.

Lemma collect_map {A B C : Type} (f : B -> result C) (g : A -> B) (l : list A) :
  collect f (map g l) = collect (fun a => f (g a)) l.
Proof.
  induction l as [| a l IH]; simpl; [ reflexivity | now rewrite IH ].
Qed.

Lemma Forall2_In_r {A B : Type} (R : A -> B -> Prop) (l : list A) (l' : list B)
  (b : B) :
  Forall2 R l l' -> In b l' -> exists a, In a l /\ R a b.
Proof.
  induction 1 as [| a b' l l' Hab _ IH]; simpl; intros Hin; [ contradiction | ].
  destruct Hin as [-> | Hin]; [ eauto | ].
  destruct (IH Hin) as (a' & Ha' & HR). eauto.
Qed.

Lemma file_row_length {F : Type} {arith : Arithmetic F} (fs : FileSystem F)
  (p : string) (row : list F) :
  file_row fs p = Return row -> length row = 7%nat.
Proof.
  unfold file_row. intros H. apply bind_Return_inv in H.
  destruct H as (src & _ & H). apply length_collect in H.
  now rewrite H, length_range.
Qed.

(** C5.  When [mask_evolution] returns, the [.tif] names of the folder,
    put in ascending order, correspond one to one and in that order to
    the rows of the matrix: each of these files was opened and its seven
    bands were read, and its row holds the seven percentages. *)
Theorem evolution_matrix_rows :
  forall (F : Type) (arith : Arithmetic F) (fs : FileSystem F)
         (folder_path : string) (names : list string)
         (evol_matrix : Matrix F) (dates : list string),
    listdir fs folder_path = Return names ->
    (forall f, In f names -> has_slash f = false) ->
    mask_evolution fs folder_path = Return (evol_matrix, dates) ->
    exists (files : list string) (rows : list (list F)),
      Permutation (filter (ends_with ".tif") names) files
      /\ Sorted (fun x y => is_true (String.leb x y)) files
      /\ Forall2 (fun f row =>
                    file_row fs (os_path_join folder_path f) = Return row)
           files rows
      /\ evol_matrix = map (map Some) rows
      /\ length evol_matrix = length (filter (ends_with ".tif") names)
      /\ (forall row, In row evol_matrix -> length row = 7%nat).
Proof.
  intros F arith fs folder_path names evol_matrix dates Hls Hns H.
  rewrite mask_evolution_collect, Hls in H. cbn [bind] in H.
  destruct (collect (file_row fs) (tif_files folder_path names))
    as [rows |] eqn:Hrows; [ | discriminate ].
  cbn [bind] in H. injection H as <- <-.
  assert (Hns' : forall f, In f (filter (ends_with ".tif") names) ->
                   has_slash f = false).
  { intros f Hf. apply filter_In in Hf. now apply Hns. }
  destruct (sorted_paths_names folder_path _ Hns') as (Hpaths & Hperm & Hsorted).
  fold (tif_files folder_path names) in Hpaths, Hperm, Hsorted.
  set (files := map os_path_basename (tif_files folder_path names)) in *.
  rewrite Hpaths, collect_map in Hrows.
  apply collect_Forall2 in Hrows.
  exists files, rows. repeat split; auto.
  - rewrite length_map. rewrite <- (Forall2_length Hrows).
    symmetry. now apply Permutation_length.
  - intros row Hrow. apply in_map_iff in Hrow. destruct Hrow as (r & <- & Hr).
    rewrite length_map.
    destruct (Forall2_In_r _ _ _ _ Hrows Hr) as (f & _ & Hf).
    now apply file_row_length in Hf.
Qed.

(** C4, as stated, fails: in a folder whose first raster does not open and
    whose second is sound, [mask_evolution] raises at the first and no row
    is produced for the second; [main] reports the folder, not the file. *)
Lemma batch_abort_counterexample :
  file_row broken_fs "data/a.tif" = Raise RasterioIOError
  /\ (exists row, file_row broken_fs "data/b.tif" = Return row)
  /\ mask_evolution broken_fs "data" = Raise RasterioIOError
  /\ main (fun _ _ _ => Return tt) (fun _ _ _ => Return tt) broken_fs ["data"]
     = (Return tt,
        [ProcessingFolder "data"; FolderError "data" RasterioIOError])
  /\ ~ (forall (fs : FileSystem Q) folder_path names,
          listdir fs folder_path = Return names ->
          exists evol_matrix dates,
            mask_evolution fs folder_path = Return (evol_matrix, dates)).
Proof.
  split; [ reflexivity | ]. split; [ eexists; vm_compute; reflexivity | ].
  split; [ vm_compute; reflexivity | ]. split; [ vm_compute; reflexivity | ].
  intros H.
  destruct (H broken_fs "data"%string ["b.tif"; "a.tif"]%string eq_refl)
    as (evol_matrix & dates & Hret).
  vm_compute in Hret. discriminate.
Qed.

(** C4, amended.  When a [.tif] file of a folder fails to open or to give
    one of its seven bands, [mask_evolution] raises the exception of the
    first such file in the sorted order of the paths, the files before it
    having given their rows, so that the folder yields no matrix and the
    files after it are not read; [main] catches the exception for that
    folder, prints the folder path with the cause, and goes on with the
    remaining folders. *)
Theorem folder_failure_isolated :
  forall (F : Type) (arith : Arithmetic F)
         (store_mask_evol show_mask_evol :
            Matrix F -> list string -> string -> result unit)
         (fs : FileSystem F) (folder_path : string) (names : list string)
         (tif_path : string) (e : exn) (rest : list string),
    listdir fs folder_path = Return names ->
    In tif_path (tif_files folder_path names) ->
    file_row fs tif_path = Raise e ->
    exists (before : list string) (failing : string) (after : list string)
           (cause : exn),
      tif_files folder_path names = before ++ failing :: after
      /\ (forall p, In p before -> exists row, file_row fs p = Return row)
      /\ file_row fs failing = Raise cause
      /\ mask_evolution fs folder_path = Raise cause
      /\ (is_Exception cause = true ->
          main store_mask_evol show_mask_evol fs (folder_path :: rest)
          = (fst (main store_mask_evol show_mask_evol fs rest),
             ProcessingFolder folder_path :: FolderError folder_path cause
               :: snd (main store_mask_evol show_mask_evol fs rest))).
Proof.
  intros F arith store_mask_evol show_mask_evol fs folder_path names tif_path
         e rest Hls Hin Hfail.
  destruct (collect_Raise_first (file_row fs) _ _ _ Hin Hfail)
    as (before & failing & after & cause & Hsplit & Hbefore & Hrow & Hcollect).
  assert (Hmask : mask_evolution fs folder_path = Raise cause).
  { rewrite mask_evolution_collect, Hls. cbn [bind]. now rewrite Hcollect. }
  exists before, failing, after, cause. repeat split; auto.
  intros Hexc. cbn [main]. unfold try_folder. rewrite Hmask, Hexc.
  now destruct (main store_mask_evol show_mask_evol fs rest).
Qed.

End BatchFacts.

(* ===================================================================== *)
(** * NDVI: band check and pixelwise form *)
(* ===================================================================== *)

Section NdviFacts.
Import SatImageReader.

(** C3, as stated, fails: with three bands and the default indices 3 and
    4 the call raises nothing and hands back [None]. *)
Lemma insufficient_bands_counterexample :
  bandes three_band_image < Z.max 3 4
  /\ calculate_ndvi three_band_image 3 4 = Return None
  /\ ~ (forall self red_band_index nir_band_index,
          bandes self < Z.max red_band_index nir_band_index ->
          exists e, calculate_ndvi self red_band_index nir_band_index = Raise e).
Proof.
  split; [ reflexivity | ]. split; [ reflexivity | ].
  intros H. destruct (H three_band_image 3 4 eq_refl) as [e He]. discriminate.
Qed.

(** C3, amended.  When a band index exceeds the band count,
    [calculate_ndvi] raises nothing and returns [None], whatever the
    bands hold; its caller [show_ndvi] turns that [None] into
    [SystemExit]. *)
Theorem insufficient_bands_none :
  forall (self : t) (red_band_index nir_band_index : Z)
         (threshold : option float32),
    bandes self < Z.max red_band_index nir_band_index ->
    calculate_ndvi self red_band_index nir_band_index = Return None
    /\ show_ndvi self red_band_index nir_band_index threshold = Raise SystemExit.
Proof.
  intros self r n th H.
  assert (E : calculate_ndvi self r n = Return None).
  { unfold calculate_ndvi. apply Z.ltb_lt in H. now rewrite H. }
  split; [ exact E | ]. unfold show_ndvi. now rewrite E.
Qed.

Lemma zip_with_fuse {A B C D E : Type} (f : C -> D -> E) (g : A -> B -> C)
  (h : A -> B -> D) (l1 : list A) (l2 : list B) :
  zip_with f (zip_with g l1 l2) (zip_with h l1 l2)
  = zip_with (fun a b => f (g a b) (h a b)) l1 l2.
Proof.
  revert l2. induction l1 as [| a l1 IH]; intros [| b l2]; simpl; auto.
  now rewrite IH.
Qed.

Lemma zip_with_ext {A B C : Type} (f g : A -> B -> C) (l1 : list A) (l2 : list B) :
  (forall a b, f a b = g a b) -> zip_with f l1 l2 = zip_with g l1 l2.
Proof.
  intros H. revert l2. induction l1 as [| a l1 IH]; intros [| b l2]; simpl; auto.
  now rewrite H, IH.
Qed.

(** [ndvi_of] computes every pixel from the two samples at its place. *)
Lemma ndvi_of_pixelwise (red nir : Grid float32) :
  ndvi_of red nir = grid_map2 (fun n r => ndvi_pixel r n) nir red.
Proof.
  unfold ndvi_of, zero_where_zero, grid_map2.
  rewrite !zip_with_fuse. apply zip_with_ext. intros rn rr.
  rewrite !zip_with_fuse. apply zip_with_ext. intros n r.
  unfold ndvi_pixel. reflexivity.
Qed.

Lemma In_zip_with {A B C : Type} (f : A -> B -> C) (l1 : list A) (l2 : list B)
  (c : C) :
  In c (zip_with f l1 l2) -> exists a b, In a l1 /\ In b l2 /\ c = f a b.
Proof.
  revert l2. induction l1 as [| a l1 IH]; intros [| b l2]; simpl;
    try contradiction.
  intros [<- | H]; [ exists a, b; auto | ].
  destruct (IH _ H) as (a' & b' & Ha & Hb & ->). exists a', b'. auto.
Qed.

Lemma In_flatten_grid_map2 {A B C : Type} (f : A -> B -> C) (g1 : Grid A)
  (g2 : Grid B) (c : C) :
  In c (flatten (grid_map2 f g1 g2)) ->
  exists a b, In a (flatten g1) /\ In b (flatten g2) /\ c = f a b.
Proof.
  unfold flatten, grid_map2. intros H. apply in_concat in H.
  destruct H as (row & Hrow & Hc).
  apply In_zip_with in Hrow. destruct Hrow as (r1 & r2 & H1 & H2 & ->).
  apply In_zip_with in Hc. destruct Hc as (a & b & Ha & Hb & ->).
  exists a, b. repeat split; auto; apply in_concat; eauto.
Qed.

(** C1, as stated, fails: with red -1 and near-infrared 3 the quotient is
    4 / 2 = 2. *)
Lemma ndvi_range_counterexample :
  calculate_ndvi signed_image 3 4 = Return (Some [[f32_of_Z 2]])
  /\ f32_value (f32_of_Z 2) = Some (8388608 * 2 ^ (-22))%Q
  /\ ~ in_unit_interval (f32_of_Z 2)
  /\ ~ (forall self red_band_index nir_band_index ndvi,
          calculate_ndvi self red_band_index nir_band_index
          = Return (Some ndvi) ->
          forall v, In v (flatten ndvi) -> in_unit_interval v).
Proof.
  assert (Hout : ~ in_unit_interval (f32_of_Z 2)).
  { intros (q & Hq & _ & Hle). vm_compute in Hq. injection Hq as <-.
    revert Hle. unfold Qle. simpl. lia. }
  split; [ reflexivity | ]. split; [ reflexivity | ]. split; [ exact Hout | ].
  intros H. apply Hout.
  apply (H signed_image 3 4 [[f32_of_Z 2]] eq_refl). simpl. auto.
Qed.

End NdviFacts.

(* ===================================================================== *)
(** * Rounding to binary32 *)
(* ===================================================================== *)

Section Binary32.
Import SatImageReader.

Lemma fexp_fexp32 (e : Z) : fexp prec emax e = fexp32 e.
Proof. reflexivity. Qed.

Lemma fexp32_mono (a b : Z) : a <= b -> fexp32 a <= fexp32 b.
Proof. unfold fexp32. lia. Qed.

Lemma pow2_pos (k : Z) : 0 <= k -> 0 < 2 ^ k.
Proof. intros. now apply Z.pow_pos_nonneg. Qed.

Lemma pow2_split (a b : Z) : 0 <= b <= a -> 2 ^ a = 2 ^ (a - b) * 2 ^ b.
Proof. intros H. rewrite <- Z.pow_add_r by lia. f_equal. lia. Qed.

Lemma digits2_pos_size (p : positive) : digits2_pos p = Pos.size p.
Proof. induction p as [p IH | p IH |]; simpl; now rewrite ?IH. Qed.

Lemma Zdigits2_log2 (m : Z) : 0 < m -> Zdigits2 m = Z.log2 m + 1.
Proof.
  destruct m as [| p | p]; try lia. intros _. simpl.
  destruct p as [p | p |]; simpl; rewrite ?digits2_pos_size; lia.
Qed.

Lemma Zdigits2_nonneg (m : Z) : 0 <= Zdigits2 m.
Proof. destruct m; simpl; lia. Qed.

Lemma Zdigits2_bounds (m : Z) :
  0 < m -> 2 ^ (Zdigits2 m - 1) <= m < 2 ^ Zdigits2 m.
Proof.
  intros H. rewrite Zdigits2_log2 by exact H.
  replace (Z.log2 m + 1 - 1) with (Z.log2 m) by lia.
  now apply Z.log2_spec.
Qed.

Lemma Zdigits2_mono (a b : Z) : 0 <= a <= b -> Zdigits2 a <= Zdigits2 b.
Proof.
  intros [Ha Hab]. destruct (Z.eq_dec a 0) as [-> | Hne].
  - apply Zdigits2_nonneg.
  - rewrite !Zdigits2_log2 by lia.
    assert (Z.log2 a <= Z.log2 b) by now apply Z.log2_le_mono. lia.
Qed.

Lemma Zdigits2_shift (m k : Z) :
  0 < m -> 0 <= k -> Zdigits2 (m * 2 ^ k) = Zdigits2 m + k.
Proof.
  intros Hm Hk. assert (0 < 2 ^ k) by now apply pow2_pos.
  rewrite !Zdigits2_log2 by nia. rewrite Z.log2_mul_pow2 by lia. lia.
Qed.

Lemma Zdigits2_le_pow2 (m k : Z) : 0 <= k -> 0 <= m <= 2 ^ k -> Zdigits2 m <= k + 1.
Proof.
  intros Hk [H0 Hm]. destruct (Z.eq_dec m 0) as [-> | Hne]; [ simpl; lia | ].
  rewrite Zdigits2_log2 by lia.
  assert (Z.log2 m <= Z.log2 (2 ^ k)) by now apply Z.log2_le_mono.
  rewrite Z.log2_pow2 in * by lia. lia.
Qed.

(** ** Shifting to the right *)

Lemma iter_pos_nat {A : Type} (f : A -> A) (p : positive) (x : A) :
  iter_pos f p x = Nat.iter (Pos.to_nat p) f x.
Proof.
  revert x. induction p as [p IH | p IH |]; intros x; cbn [iter_pos].
  - rewrite !IH, Pos2Nat.inj_xI. rewrite <- Nat.iter_add.
    replace (S (2 * Pos.to_nat p)) with (S (Pos.to_nat p + Pos.to_nat p)) by lia.
    now rewrite Nat.iter_succ_r.
  - rewrite !IH, Pos2Nat.inj_xO. rewrite <- Nat.iter_add.
    f_equal. lia.
  - reflexivity.
Qed.

Lemma shr_1_spec (mrs : shr_record) :
  0 <= shr_m mrs ->
  shr_m (shr_1 mrs) = shr_m mrs / 2
  /\ record_excess (shr_1 mrs)
     = (if Z.odd (shr_m mrs) then 1 else record_excess mrs).
Proof.
  destruct mrs as [m r s]. unfold record_excess. simpl. intros Hm.
  rewrite <- Z.div2_div.
  destruct m as [| [p | p |] | p]; try lia; simpl;
    destruct r, s; simpl; auto.
Qed.

Lemma shr_iter_spec (n : nat) (mrs : shr_record) :
  0 <= shr_m mrs ->
  let mrs' := Nat.iter n shr_1 mrs in
  shr_m mrs' = shr_m mrs / 2 ^ Z.of_nat n
  /\ (shr_m mrs' + record_excess mrs') * 2 ^ Z.of_nat n
     < shr_m mrs + record_excess mrs + 2 ^ Z.of_nat n.
Proof.
  intros Hm. induction n as [| n IH].
  - simpl. rewrite Z.div_1_r. lia.
  - cbn zeta in *. rewrite Nat.iter_succ.
    set (cur := Nat.iter n shr_1 mrs) in *.
    destruct IH as [Hdiv Hub].
    assert (Hp : 0 < 2 ^ Z.of_nat n) by (apply pow2_pos; lia).
    assert (Hcur : 0 <= shr_m cur)
      by (rewrite Hdiv; apply Z.div_pos; lia).
    destruct (shr_1_spec cur Hcur) as [Hm1 Hex1].
    rewrite Nat2Z.inj_succ, Z.pow_succ_r by lia.
    split.
    + rewrite Hm1, Hdiv, Z.div_div by lia. f_equal. lia.
    + rewrite Hm1, Hex1.
      assert (Hodd := Z.div2_odd (shr_m cur)). rewrite Z.div2_div in Hodd.
      destruct (Z.odd (shr_m cur)); simpl Z.b2z in Hodd.
      * assert (shr_m cur * 2 ^ Z.of_nat n <= shr_m mrs).
        { rewrite Hdiv. rewrite Z.mul_comm. apply Z.mul_div_le. lia. }
        assert (0 <= record_excess mrs)
          by (unfold record_excess; destruct (_ || _); lia).
        nia.
      * unfold record_excess in *.
        destruct (shr_r cur || shr_s cur); nia.
Qed.

Lemma shr_spec (mrs : shr_record) (e n : Z) :
  0 <= shr_m mrs ->
  let k := Z.max 0 n in
  snd (shr mrs e n) = e + k
  /\ shr_m (fst (shr mrs e n)) = shr_m mrs / 2 ^ k
  /\ (shr_m (fst (shr mrs e n)) + record_excess (fst (shr mrs e n))) * 2 ^ k
     < shr_m mrs + record_excess mrs + 2 ^ k.
Proof.
  intros Hm. destruct n as [| p | p]; cbn [shr fst snd].
  - cbn. rewrite Z.div_1_r. lia.
  - rewrite iter_pos_nat.
    replace (Z.max 0 (Z.pos p)) with (Z.of_nat (Pos.to_nat p))
      by (rewrite positive_nat_Z; lia).
    split; [ rewrite positive_nat_Z; lia | ].
    now apply shr_iter_spec.
  - replace (Z.max 0 (Z.neg p)) with 0 by lia.
    rewrite Z.div_1_r. cbn. lia.
Qed.

Lemma shr_record_of_loc_spec (m : Z) (l : location) :
  shr_m (shr_record_of_loc m l) = m
  /\ record_excess (shr_record_of_loc m l) = excess l.
Proof. destruct l as [| []]; split; reflexivity. Qed.

Lemma excess_loc_of_shr_record (mrs : shr_record) :
  excess (loc_of_shr_record mrs) = record_excess mrs.
Proof. destruct mrs as [m [] []]; reflexivity. Qed.

Lemma round_nearest_even_bounds (m : Z) (l : location) :
  m <= round_nearest_even m l <= m + excess l.
Proof.
  destruct l as [| []]; simpl; try lia.
  destruct (Z.even m); lia.
Qed.

(** [binary_round_aux] cuts the mantissa down to the exponent of the
    format, moves to a neighbour that is at most one unit above what was
    cut, and renormalizes. *)
Lemma binary_round_aux_spec (s : bool) (m e : Z) (l : location) :
  0 <= m ->
  let k := Z.max 0 (fexp32 (Zdigits2 m + e) - e) in
  exists m2,
    m / 2 ^ k <= m2
    /\ m2 * 2 ^ k < m + excess l + 2 ^ k
    /\ binary_round_aux prec emax s m e l = renormalize s m2 (e + k).
Proof.
  intros Hm k. unfold binary_round_aux, shr_fexp. rewrite fexp_fexp32.
  destruct (shr_record_of_loc_spec m l) as [Hrm Hrx].
  assert (H1 := shr_spec (shr_record_of_loc m l) e
                  (fexp32 (Zdigits2 m + e) - e)).
  rewrite Hrm, Hrx in H1. specialize (H1 Hm). cbn zeta in H1. fold k in H1.
  destruct (shr (shr_record_of_loc m l) e (fexp32 (Zdigits2 m + e) - e))
    as [mrs' e'].
  cbn [fst snd] in H1. destruct H1 as (-> & Hdiv & Hub).
  set (m2 := round_nearest_even (shr_m mrs') (loc_of_shr_record mrs')).
  assert (Hk : 0 < 2 ^ k) by (apply pow2_pos; lia).
  assert (Hb := round_nearest_even_bounds (shr_m mrs') (loc_of_shr_record mrs')).
  rewrite excess_loc_of_shr_record in Hb. fold m2 in Hb.
  assert (Hm2 : 0 <= m2).
  { assert (0 <= shr_m mrs') by (rewrite Hdiv; apply Z.div_pos; lia). lia. }
  exists m2. split; [ lia | ]. split; [ nia | ].
  rewrite fexp_fexp32.
  assert (H2 := shr_spec (shr_record_of_loc m2 loc_Exact) (e + k)
                  (fexp32 (Zdigits2 m2 + (e + k)) - (e + k)) Hm2).
  cbn zeta in H2.
  destruct (shr (shr_record_of_loc m2 loc_Exact) (e + k)
              (fexp32 (Zdigits2 m2 + (e + k)) - (e + k))) as [mrs'' e''].
  cbn [fst snd] in H2. destruct H2 as (-> & Hdiv2 & _).
  unfold renormalize. rewrite Hdiv2. cbn [shr_record_of_loc shr_m].
  reflexivity.
Qed.

End Binary32.

Section Binary32Bounds.
Import SatImageReader.

Lemma le_at_base (c c' m1 e1 m2 e2 : Z) :
  c' <= c -> c <= e1 -> c <= e2 ->
  le_at c m1 e1 m2 e2 <-> le_at c' m1 e1 m2 e2.
Proof.
  intros Hc H1 H2. unfold le_at.
  rewrite (pow2_split (e1 - c') (c - c')) by lia.
  rewrite (pow2_split (e2 - c') (c - c')) by lia.
  replace (e1 - c' - (c - c')) with (e1 - c) by lia.
  replace (e2 - c' - (c - c')) with (e2 - c) by lia.
  assert (0 < 2 ^ (c - c')) by (apply pow2_pos; lia).
  rewrite !Z.mul_assoc. split; intros H'; nia.
Qed.

Lemma le_at_any (c c' m1 e1 m2 e2 : Z) :
  c <= e1 -> c <= e2 -> c' <= e1 -> c' <= e2 ->
  le_at c m1 e1 m2 e2 -> le_at c' m1 e1 m2 e2.
Proof.
  intros. apply (le_at_base c' (Z.min c c')); try lia.
  apply (le_at_base c (Z.min c c')); try lia. assumption.
Qed.

Lemma le_at_trans (c m1 e1 m2 e2 m3 e3 : Z) :
  le_at c m1 e1 m2 e2 -> le_at c m2 e2 m3 e3 -> le_at c m1 e1 m3 e3.
Proof. unfold le_at. lia. Qed.

Lemma le_at_digits (c m1 e1 m2 e2 : Z) :
  c <= e1 -> c <= e2 -> 0 < m1 -> le_at c m1 e1 m2 e2 ->
  0 < m2 /\ Zdigits2 m1 + e1 <= Zdigits2 m2 + e2.
Proof.
  unfold le_at. intros H1 H2 Hm1 Hle.
  assert (0 < 2 ^ (e1 - c)) by (apply pow2_pos; lia).
  assert (0 < 2 ^ (e2 - c)) by (apply pow2_pos; lia).
  assert (Hm2 : 0 < m2) by nia.
  split; [ exact Hm2 | ].
  assert (Hd : Zdigits2 (m1 * 2 ^ (e1 - c)) <= Zdigits2 (m2 * 2 ^ (e2 - c)))
    by (apply Zdigits2_mono; nia).
  rewrite !Zdigits2_shift in Hd by lia. lia.
Qed.

(** Cutting a number down to the exponent of the format does not take it
    below a number of the format that it exceeds. *)
Lemma floor_keeps_representable (c M E m e : Z) :
  0 < M -> E = fexp32 (Zdigits2 M + E) ->
  c <= E -> c <= e -> e <= fexp32 (Zdigits2 m + e) ->
  le_at c M E m e ->
  le_at c M E (m / 2 ^ (fexp32 (Zdigits2 m + e) - e)) (fexp32 (Zdigits2 m + e)).
Proof.
  intros HM Hcan HcE Hce He Hle.
  destruct (le_at_digits c M E m e HcE Hce HM Hle) as [Hm Hdig].
  set (E1 := fexp32 (Zdigits2 m + e)) in *.
  assert (HE : E <= E1) by (rewrite Hcan; now apply fexp32_mono).
  assert (Hk : 0 < 2 ^ (E1 - e)) by (apply pow2_pos; lia).
  unfold le_at in *.
  destruct (Z.eq_dec E E1) as [Heq | Hne].
  - rewrite <- Heq in *.
    rewrite (pow2_split (E - c) (e - c)) in Hle by lia.
    replace (E - c - (e - c)) with (E - e) in Hle by lia.
    assert (0 < 2 ^ (e - c)) by (apply pow2_pos; lia).
    assert (M * 2 ^ (E - e) <= m) by nia.
    assert (M <= m / 2 ^ (E - e)) by (apply Z.div_le_lower_bound; lia).
    assert (0 < 2 ^ (E - c)) by (apply pow2_pos; lia).
    nia.
  - assert (HE1 : E1 = Zdigits2 m + e - 24) by (unfold E1, fexp32 in *; lia).
    assert (Hlt : Zdigits2 M + E <= Zdigits2 m + e - 1)
      by (unfold fexp32 in Hcan; lia).
    destruct (Zdigits2_bounds M HM) as [_ HMub].
    destruct (Zdigits2_bounds m Hm) as [Hmlb _].
    assert (HdM : 1 <= Zdigits2 M)
      by (rewrite Zdigits2_log2 by lia; assert (0 <= Z.log2 M) by apply Z.log2_nonneg; lia).
    (* the cut mantissa keeps its leading bit *)
    assert (Hq : 2 ^ 23 <= m / 2 ^ (E1 - e)).
    { apply Z.div_le_lower_bound; [ lia | ].
      rewrite <- Z.pow_add_r by lia.
      replace (E1 - e + 23) with (Zdigits2 m - 1) by lia. lia. }
    assert (H1 : M * 2 ^ (E - c) < 2 ^ (Zdigits2 M + E - c)).
    { rewrite (pow2_split (Zdigits2 M + E - c) (E - c)) by lia.
      replace (Zdigits2 M + E - c - (E - c)) with (Zdigits2 M) by lia.
      assert (0 < 2 ^ (E - c)) by (apply pow2_pos; lia). nia. }
    assert (H2 : 2 ^ (Zdigits2 M + E - c) <= 2 ^ (Zdigits2 m + e - 1 - c))
      by (apply Z.pow_le_mono_r; lia).
    assert (H3 : 2 ^ (Zdigits2 m + e - 1 - c) = 2 ^ 23 * 2 ^ (E1 - c)).
    { rewrite <- Z.pow_add_r by lia. f_equal. lia. }
    assert (0 < 2 ^ (E1 - c)) by (apply pow2_pos; lia).
    nia.
Qed.

Lemma renormalize_upper (s : bool) (m2 b E1 : Z) :
  0 <= m2 <= b -> E1 <= 104 -> Zdigits2 b + E1 <= 128 ->
  match renormalize s m2 E1 with
  | S754_zero s' => s' = s
  | S754_finite s' m3 E2 =>
      s' = s /\ E1 <= E2 /\ Z.pos m3 * 2 ^ (E2 - E1) <= b
  | _ => False
  end.
Proof.
  intros [H0 Hb] HE Hd. unfold renormalize.
  set (k := Z.max 0 (fexp32 (Zdigits2 m2 + E1) - E1)).
  assert (Hk : 0 < 2 ^ k) by (apply pow2_pos; lia).
  assert (Hdiv : m2 / 2 ^ k * 2 ^ k <= m2)
    by (rewrite Z.mul_comm; apply Z.mul_div_le; lia).
  assert (Hpos : 0 <= m2 / 2 ^ k) by (apply Z.div_pos; lia).
  assert (Hdm : Zdigits2 m2 <= Zdigits2 b) by (apply Zdigits2_mono; lia).
  assert (HE2 : E1 + k <= 104) by (unfold k, fexp32; lia).
  destruct (m2 / 2 ^ k) as [| p | p] eqn:Hq; [ reflexivity | | lia ].
  apply Z.leb_le in HE2. rewrite HE2.
  split; [ reflexivity | ]. split; [ lia | ].
  replace (E1 + k - E1) with k by lia. lia.
Qed.

Lemma renormalize_lower (s : bool) (c M E m2 E1 : Z) :
  0 < M -> E = fexp32 (Zdigits2 M + E) -> c <= E -> c <= E1 ->
  le_at c M E m2 E1 ->
  match renormalize s m2 E1 with
  | S754_finite s' m3 E2 => s' = s /\ E1 <= E2 /\ le_at c M E (Z.pos m3) E2
  | S754_infinity s' => s' = s
  | _ => False
  end.
Proof.
  intros HM Hcan HcE Hc1 Hle. unfold renormalize.
  set (k := Z.max 0 (fexp32 (Zdigits2 m2 + E1) - E1)).
  assert (Hle' : le_at c M E (m2 / 2 ^ k) (E1 + k)).
  { destruct (Z.le_gt_cases (fexp32 (Zdigits2 m2 + E1)) E1) as [Hsmall | Hbig].
    - replace k with 0 by (unfold k; lia).
      rewrite Z.div_1_r, Z.add_0_r. exact Hle.
    - replace k with (fexp32 (Zdigits2 m2 + E1) - E1) by (unfold k; lia).
      replace (E1 + (fexp32 (Zdigits2 m2 + E1) - E1))
        with (fexp32 (Zdigits2 m2 + E1)) by lia.
      apply floor_keeps_representable; auto; lia. }
  assert (Hpos : 0 < m2 / 2 ^ k).
  { unfold le_at in Hle'.
    assert (0 < 2 ^ (E - c)) by (apply pow2_pos; lia).
    assert (0 < 2 ^ (E1 + k - c)) by (apply pow2_pos; lia). nia. }
  destruct (m2 / 2 ^ k) as [| p | p]; try lia.
  destruct (E1 + k <=? 104); [ | reflexivity ].
  split; [ reflexivity | ]. split; [ lia | exact Hle' ].
Qed.

End Binary32Bounds.

Section Binary32Operations.
Import SatImageReader.

Lemma iter_xO (m d : positive) :
  Z.pos (Pos.iter xO m d) = Z.pos m * 2 ^ Z.pos d.
Proof.
  induction d as [| d IH] using Pos.peano_ind.
  - simpl. lia.
  - rewrite Pos.iter_succ, Pos2Z.inj_succ, Z.pow_succ_r by lia.
    rewrite Pos2Z.inj_xO, IH. ring.
Qed.

Lemma shl_align_spec (mx : positive) (ex ex' : Z) :
  snd (shl_align mx ex ex') = Z.min ex ex'
  /\ Z.pos (fst (shl_align mx ex ex')) = Z.pos mx * 2 ^ (ex - Z.min ex ex').
Proof.
  unfold shl_align. destruct (ex' - ex) as [| d | d] eqn:E; cbn [fst snd].
  - replace (Z.min ex ex') with ex by lia.
    rewrite Z.sub_diag, Z.pow_0_r. lia.
  - replace (Z.min ex ex') with ex by lia.
    rewrite Z.sub_diag, Z.pow_0_r. lia.
  - replace (Z.min ex ex') with ex' by lia.
    replace (ex - ex') with (Z.pos d) by lia.
    split; [ reflexivity | apply iter_xO ].
Qed.

Lemma bounded_inv (m : positive) (e : Z) :
  bounded prec emax m e = true ->
  e = fexp32 (Zdigits2 (Z.pos m) + e) /\ -149 <= e <= 104
  /\ Zdigits2 (Z.pos m) + e <= 128.
Proof.
  unfold bounded, canonical_mantissa. rewrite fexp_fexp32. intros H.
  apply andb_true_iff in H. destruct H as [H1 H2].
  apply Z.eqb_eq in H1. apply Z.leb_le in H2.
  change (emax - prec) with 104 in H2.
  change (Z.pos (digits2_pos m)) with (Zdigits2 (Z.pos m)) in H1.
  split; [ now symmetry | ]. unfold fexp32 in H1. lia.
Qed.

(** [binary_round] on a positive mantissa. *)
Lemma binary_round_spec (s : bool) (mx : positive) (ex : Z) :
  let E1 := fexp32 (Zdigits2 (Z.pos mx) + ex) in
  let e0 := Z.min ex E1 in
  let mz := Z.pos mx * 2 ^ (ex - e0) in
  exists m2,
    mz / 2 ^ (E1 - e0) <= m2
    /\ m2 * 2 ^ (E1 - e0) < mz + 2 ^ (E1 - e0)
    /\ binary_round prec emax s mx ex = renormalize s m2 E1.
Proof.
  intros E1 e0 mz. unfold binary_round. rewrite fexp_fexp32.
  change (Z.pos (digits2_pos mx)) with (Zdigits2 (Z.pos mx)). fold E1.
  destruct (shl_align_spec mx ex E1) as [He Hm]. fold e0 in He, Hm.
  destruct (shl_align mx ex E1) as [mz' ez']. cbn [fst snd] in He, Hm.
  subst ez'. fold mz in Hm.
  assert (Hdig : Zdigits2 (Z.pos mz') + e0 = Zdigits2 (Z.pos mx) + ex).
  { rewrite Hm. unfold mz. rewrite Zdigits2_shift by lia. lia. }
  destruct (binary_round_aux_spec s (Z.pos mz') e0 loc_Exact) as (m2 & H1 & H2 & H3);
    [ lia | ].
  rewrite Hdig in H1, H2, H3. fold E1 in H1, H2, H3.
  replace (Z.max 0 (E1 - e0)) with (E1 - e0) in H1, H2, H3 by lia.
  replace (e0 + (E1 - e0)) with E1 in H3 by lia.
  rewrite Hm in H1, H2. simpl excess in H2.
  exists m2. split; [ exact H1 | ]. split; [ lia | exact H3 ].
Qed.

(** Rounding a positive number stays at or below a number of the format
    that bounds it, and does not overflow. *)
Lemma binary_round_upper (s : bool) (pa M : positive) (ez E : Z) :
  bounded prec emax M E = true -> -149 <= ez ->
  le_at (-149) (Z.pos pa) ez (Z.pos M) E ->
  match binary_round prec emax s pa ez with
  | S754_zero s' => s' = s
  | S754_finite s' m3 E3 =>
      s' = s /\ -149 <= E3 /\ le_at (-149) (Z.pos m3) E3 (Z.pos M) E
  | _ => False
  end.
Proof.
  intros HB Hez Hle. destruct (bounded_inv M E HB) as (Hcan & HE & HdM).
  destruct (binary_round_spec s pa ez) as (m2 & H1 & H2 & ->).
  set (E1 := fexp32 (Zdigits2 (Z.pos pa) + ez)) in *.
  set (e0 := Z.min ez E1) in *.
  assert (HE1lo : -149 <= E1) by (unfold E1, fexp32; lia).
  destruct (le_at_digits _ _ _ _ _ Hez (proj1 HE) (Pos2Z.is_pos pa) Hle)
    as [_ Hdig].
  assert (HE1 : E1 <= E) by (rewrite Hcan; now apply fexp32_mono).
  assert (Hk : 0 < 2 ^ (E1 - e0)) by (apply pow2_pos; lia).
  set (b := Z.pos M * 2 ^ (E - E1)).
  assert (Hle0 : le_at e0 (Z.pos pa) ez (Z.pos M) E)
    by (apply (le_at_any (-149)); auto; lia).
  unfold le_at in Hle0.
  assert (Hb : b * 2 ^ (E1 - e0) = Z.pos M * 2 ^ (E - e0)).
  { unfold b. rewrite <- Z.mul_assoc, <- Z.pow_add_r by lia. do 2 f_equal. lia. }
  assert (Hm2 : 0 <= m2 <= b).
  { split.
    - assert (0 <= Z.pos pa * 2 ^ (ez - e0) / 2 ^ (E1 - e0)); [ | lia ].
      apply Z.div_pos; [ | lia ].
      assert (0 < 2 ^ (ez - e0)) by (apply pow2_pos; lia). nia.
    - nia. }
  assert (Hd : Zdigits2 b + E1 <= 128)
    by (unfold b; rewrite Zdigits2_shift by lia; lia).
  assert (Hup := renormalize_upper s m2 b E1 Hm2 ltac:(lia) Hd).
  destruct (renormalize s m2 E1) as [s' | s' | | s' m3 E3]; auto.
  destruct Hup as (-> & HE3 & Hm3). split; [ reflexivity | ]. split; [ lia | ].
  apply (le_at_any E1); try lia.
  unfold le_at. unfold b in Hm3. exact Hm3.
Qed.

(** Rounding a positive number stays at or above a number of the format
    that it exceeds. *)
Lemma binary_round_lower (s : bool) (pa M : positive) (ez E : Z) :
  bounded prec emax M E = true -> -149 <= ez ->
  le_at (-149) (Z.pos M) E (Z.pos pa) ez ->
  match binary_round prec emax s pa ez with
  | S754_finite s' m3 E3 =>
      s' = s /\ -149 <= E3 /\ le_at (-149) (Z.pos M) E (Z.pos m3) E3
  | S754_infinity s' => s' = s
  | _ => False
  end.
Proof.
  intros HB Hez Hle. destruct (bounded_inv M E HB) as (Hcan & HE & HdM).
  destruct (binary_round_spec s pa ez) as (m2 & H1 & H2 & ->).
  set (E1 := fexp32 (Zdigits2 (Z.pos pa) + ez)) in *.
  set (e0 := Z.min ez E1) in *.
  set (mz := Z.pos pa * 2 ^ (ez - e0)) in *.
  assert (HE1lo : -149 <= E1) by (unfold E1, fexp32; lia).
  assert (Hmz : le_at (-149) (Z.pos M) E mz e0).
  { unfold le_at in *. unfold mz.
    rewrite <- Z.mul_assoc, <- Z.pow_add_r by lia.
    replace (ez - e0 + (e0 - -149)) with (ez - -149) by lia. exact Hle. }
  assert (Hdig : Zdigits2 mz + e0 = Zdigits2 (Z.pos pa) + ez)
    by (unfold mz; rewrite Zdigits2_shift by lia; lia).
  assert (Hfloor : le_at (-149) (Z.pos M) E (mz / 2 ^ (E1 - e0)) E1).
  { assert (HF := floor_keeps_representable (-149) (Z.pos M) E mz e0).
    rewrite Hdig in HF. fold E1 in HF. apply HF; auto; lia. }
  assert (Hm2 : le_at (-149) (Z.pos M) E m2 E1).
  { unfold le_at in *.
    assert (0 < 2 ^ (E1 - -149)) by (apply pow2_pos; lia). nia. }
  assert (Hlow := renormalize_lower s (-149) (Z.pos M) E m2 E1
                    (Pos2Z.is_pos M) Hcan ltac:(lia) HE1lo Hm2).
  destruct (renormalize s m2 E1) as [s' | s' | | s' m3 E3]; auto.
  destruct Hlow as (-> & HE3 & Hm3). split; [ reflexivity | ]. split; [ lia | exact Hm3 ].
Qed.

End Binary32Operations.

Section NdviRange.
Import SatImageReader.
Local Open Scope Z_scope.

Lemma le_at_refl (c m e : Z) : le_at c m e m e.
Proof. unfold le_at. lia. Qed.

(** The sum and the difference of two positive binary32 numbers: the
    difference is a number below the sum. *)
Lemma add_sub_finite (mx my : positive) (ex ey : Z) :
  bounded prec emax mx ex = true -> bounded prec emax my ey = true ->
  let x := S754_finite false mx ex in
  let y := S754_finite false my ey in
  ((exists s, f32_sub y x = S754_zero s)
   \/ exists sn mn en, f32_sub y x = S754_finite sn mn en)
  /\ (f32_add y x = S754_infinity false
      \/ exists md ed,
           f32_add y x = S754_finite false md ed
           /\ -149 <= ed
           /\ forall sn mn en,
                f32_sub y x = S754_finite sn mn en ->
                -149 <= en /\ le_at (-149) (Z.pos mn) en (Z.pos md) ed).
Proof.
  intros Hx Hy x y.
  destruct (bounded_inv mx ex Hx) as (Hcx & Hex & Hdx).
  destruct (bounded_inv my ey Hy) as (Hcy & Hey & Hdy).
  unfold f32_sub, f32_add, x, y. cbn [SFsub SFadd cond_Zopp].
  set (ez := Z.min ey ex).
  destruct (shl_align_spec my ey ez) as [_ HY].
  destruct (shl_align_spec mx ex ez) as [_ HX].
  replace (Z.min ey ez) with ez in HY by lia.
  replace (Z.min ex ez) with ez in HX by lia.
  set (Y := Z.pos (fst (shl_align my ey ez))) in *.
  set (X := Z.pos (fst (shl_align mx ex ez))) in *.
  assert (HpY : 0 < 2 ^ (ey - ez)) by (apply pow2_pos; lia).
  assert (HpX : 0 < 2 ^ (ex - ez)) by (apply pow2_pos; lia).
  assert (Hz : 0 < 2 ^ (ez - -149)) by (apply pow2_pos; lia).
  assert (HYv : Y * 2 ^ (ez - -149) = Z.pos my * 2 ^ (ey - -149)).
  { rewrite HY, <- Z.mul_assoc, <- Z.pow_add_r by lia. do 2 f_equal. lia. }
  assert (HXv : X * 2 ^ (ez - -149) = Z.pos mx * 2 ^ (ex - -149)).
  { rewrite HX, <- Z.mul_assoc, <- Z.pow_add_r by lia. do 2 f_equal. lia. }
  (* the larger of the two operands bounds the difference from above and
     the sum from below *)
  assert (Hbig : exists M E,
            bounded prec emax M E = true
            /\ Z.pos M * 2 ^ (E - -149) = Z.max X Y * 2 ^ (ez - -149)).
  { destruct (Z.le_ge_cases X Y) as [H | H].
    - exists my, ey. split; [ exact Hy | ].
      replace (Z.max X Y) with Y by lia. now rewrite HYv.
    - exists mx, ex. split; [ exact Hx | ].
      replace (Z.max X Y) with X by lia. now rewrite HXv. }
  destruct Hbig as (M & E & HB & HBv).
  assert (HXpos : 0 < X) by (unfold X; lia).
  assert (HYpos : 0 < Y) by (unfold Y; lia).
  (* the sum *)
  assert (Hsum : match binary_normalize prec emax (Y + X) ez false with
                 | S754_finite s' m3 E3 =>
                     s' = false /\ -149 <= E3
                     /\ le_at (-149) (Z.pos M) E (Z.pos m3) E3
                 | S754_infinity s' => s' = false
                 | _ => False
                 end).
  { destruct (Y + X) as [| p | p] eqn:Hs; try lia. cbn [binary_normalize].
    apply binary_round_lower; [ exact HB | lia | ].
    unfold le_at. rewrite HBv. nia. }
  (* the difference *)
  assert (Hdiff : match binary_normalize prec emax (Y - X) ez false with
                  | S754_zero _ => True
                  | S754_finite s' m3 E3 =>
                      -149 <= E3 /\ le_at (-149) (Z.pos m3) E3 (Z.pos M) E
                  | _ => False
                  end).
  { assert (Hround : forall s p,
              Z.pos p <= Z.max X Y ->
              match binary_round prec emax s p ez with
              | S754_zero _ => True
              | S754_finite s' m3 E3 =>
                  -149 <= E3 /\ le_at (-149) (Z.pos m3) E3 (Z.pos M) E
              | _ => False
              end).
    { intros s p Hp.
      assert (Hle : le_at (-149) (Z.pos p) ez (Z.pos M) E)
        by (unfold le_at; rewrite HBv; nia).
      assert (Hup := binary_round_upper s p M ez E HB ltac:(lia) Hle).
      destruct (binary_round prec emax s p ez); auto. tauto. }
    destruct (Y - X) as [| p | p] eqn:Hs; cbn [binary_normalize];
      [ exact I | apply Hround; lia | apply Hround; lia ]. }
  split.
  - destruct (binary_normalize prec emax (Y - X) ez false)
      as [s' | s' | | s' m3 E3]; try contradiction.
    + left. eauto.
    + right. eauto.
  - destruct (binary_normalize prec emax (Y + X) ez false)
      as [s' | s' | | s' md ed]; try contradiction.
    + left. now subst s'.
    + right. destruct Hsum as (-> & Hed & Hle).
      exists md, ed. split; [ reflexivity | ]. split; [ exact Hed | ].
      intros sn mn en Hn. rewrite Hn in Hdiff. destruct Hdiff as [Hen Hle'].
      split; [ exact Hen | ]. now apply le_at_trans with (Z.pos M) E.
Qed.

Lemma excess_new_location (md r : Z) :
  excess (new_location md r) = if r =? 0 then 0 else 1.
Proof.
  unfold new_location, new_location_even, new_location_odd.
  destruct (Z.even md); destruct (r =? 0); reflexivity.
Qed.

Lemma Zdigits2_pow2 (k : Z) : 0 <= k -> Zdigits2 (2 ^ k) = k + 1.
Proof.
  intros H. rewrite Zdigits2_log2 by (now apply pow2_pos).
  now rewrite Z.log2_pow2.
Qed.

(** A mantissa and an exponent that stand for a number of [0, 1]. *)
Lemma scaled_le_one (m : positive) (E1 E2 : Z) :
  E1 <= 0 -> E1 <= E2 -> Z.pos m * 2 ^ (E2 - E1) <= 2 ^ (- E1) ->
  (0 <= inject_Z (Z.pos m) * 2 ^ E2 <= 1)%Q.
Proof.
  intros H0 H12 Hle.
  assert (H2 : ~ (2 == 0)%Q) by (intros E; discriminate E).
  assert (Hpos : (0 < 2 ^ (- E1))%Q) by (apply Qpower_0_lt; reflexivity).
  assert (Hsplit : (2 ^ E2 == inject_Z (2 ^ (E2 - E1)) / 2 ^ (- E1))%Q).
  { replace E2 with ((E2 - E1) - (- E1)) at 1 by lia.
    rewrite Qpower_minus by exact H2.
    rewrite Zpower_Qpower by lia. reflexivity. }
  split.
  - apply Qmult_le_0_compat.
    + change (inject_Z 0 <= inject_Z (Z.pos m))%Q. rewrite <- Zle_Qle. lia.
    + apply Qpower_0_le. discriminate.
  - rewrite Hsplit. unfold Qdiv. rewrite Qmult_assoc.
    apply Qle_shift_div_r; [ exact Hpos | ].
    rewrite Qmult_1_l, <- inject_Z_mult.
    change 2%Q with (inject_Z 2). rewrite <- Zpower_Qpower by lia.
    now rewrite <- Zle_Qle.
Qed.

(** The quotient of a number by one that is at least as large is a number
    of [0, 1], up to the sign. *)
Lemma div_le_one (c : Z) (sn sd : bool) (mn md : positive) (en ed : Z) :
  c <= en -> c <= ed -> le_at c (Z.pos mn) en (Z.pos md) ed ->
  match f32_div (S754_finite sn mn en) (S754_finite sd md ed) with
  | S754_zero _ => True
  | S754_finite _ m e => (0 <= inject_Z (Z.pos m) * 2 ^ e <= 1)%Q
  | _ => False
  end.
Proof.
  intros Hcn Hcd Hle.
  destruct (le_at_digits _ _ _ _ _ Hcn Hcd (Pos2Z.is_pos mn) Hle) as [_ Hdig].
  unfold f32_div. cbn [SFdiv]. unfold SFdiv_core_binary. rewrite fexp_fexp32.
  set (e' := Z.min (fexp32 (Zdigits2 (Z.pos mn) + en - (Zdigits2 (Z.pos md) + ed)))
                   (en - ed)).
  assert (He' : e' <= -24) by (unfold e', fexp32; lia).
  set (sh := en - ed - e').
  assert (Hsh : 0 <= sh) by (unfold sh, e'; lia).
  set (m' := match sh with
             | 0 => Z.pos mn
             | Z.pos _ => Z.shiftl (Z.pos mn) sh
             | Z.neg _ => 0
             end).
  assert (Hm' : m' = Z.pos mn * 2 ^ sh).
  { unfold m'. destruct sh as [| p | p] eqn:E; try lia.
    now rewrite Z.shiftl_mul_pow2 by lia. }
  assert (Hmle : m' <= Z.pos md * 2 ^ (- e')).
  { rewrite Hm'.
    assert (H : le_at (ed + e') (Z.pos mn) en (Z.pos md) ed)
      by (apply (le_at_any c); auto; unfold sh in Hsh; lia).
    unfold le_at in H.
    replace (en - (ed + e')) with sh in H by (unfold sh; lia).
    replace (ed - (ed + e')) with (- e') in H by lia. exact H. }
  assert (Hdm := Z_div_mod m' (Z.pos md) ltac:(lia)).
  destruct (Z.div_eucl m' (Z.pos md)) as [q r]. destruct Hdm as [Hqr Hr].
  assert (HP : 0 < 2 ^ (- e')) by (apply pow2_pos; lia).
  assert (Hq0 : 0 <= q) by (rewrite Hm' in Hqr;
    assert (0 < 2 ^ sh) by (apply pow2_pos; lia); nia).
  assert (Hqx : q + excess (new_location (Z.pos md) r) <= 2 ^ (- e')).
  { rewrite excess_new_location. destruct (Z.eqb_spec r 0); nia. }
  destruct (binary_round_aux_spec (xorb sn sd) q e' (new_location (Z.pos md) r) Hq0)
    as (m2 & H1 & H2 & ->).
  set (k := Z.max 0 (fexp32 (Zdigits2 q + e') - e')) in *.
  assert (Hk : 0 < 2 ^ k) by (apply pow2_pos; lia).
  assert (Hdq : Zdigits2 q <= - e' + 1)
    by (apply Zdigits2_le_pow2; [ lia | ];
        assert (0 <= excess (new_location (Z.pos md) r))
          by (rewrite excess_new_location; destruct (r =? 0); lia); lia).
  assert (HE1 : e' + k <= -23) by (unfold k, fexp32; lia).
  set (b := 2 ^ (- (e' + k))).
  assert (Hb : b * 2 ^ k = 2 ^ (- e')).
  { unfold b. rewrite <- Z.pow_add_r by lia. f_equal. lia. }
  assert (Hm2 : 0 <= m2 <= b).
  { split; [ assert (0 <= q / 2 ^ k) by (apply Z.div_pos; lia); lia | nia ]. }
  assert (Hd : Zdigits2 b + (e' + k) <= 128)
    by (unfold b; rewrite Zdigits2_pow2 by lia; lia).
  assert (Hup := renormalize_upper (xorb sn sd) m2 b (e' + k) Hm2 ltac:(lia) Hd).
  destruct (renormalize (xorb sn sd) m2 (e' + k)) as [s' | s' | | s' m3 E3]; auto.
  destruct Hup as (_ & HE3 & Hm3).
  apply (scaled_le_one m3 (e' + k) E3); [ lia | exact HE3 | exact Hm3 ].
Qed.

Lemma in_unit_interval_zero (s : bool) : in_unit_interval (S754_zero s).
Proof. exists 0%Q. split; [ reflexivity | split; discriminate ]. Qed.

Lemma in_unit_interval_finite (s : bool) (m : positive) (e : Z) :
  (0 <= inject_Z (Z.pos m) * 2 ^ e <= 1)%Q ->
  in_unit_interval (S754_finite s m e).
Proof.
  intros [H0 H1]. eexists. split; [ reflexivity | ].
  destruct s; cbn [cond_Zopp].
  - change (Z.neg m) with (- Z.pos m)%Z. rewrite inject_Z_opp.
    set (v := (inject_Z (Z.pos m) * 2 ^ e)%Q) in *.
    assert (E : (- inject_Z (Z.pos m) * 2 ^ e == - v)%Q) by (unfold v; ring).
    rewrite E. split; lra.
  - split; lra.
Qed.

Lemma div_in_unit_interval (c : Z) (sn sd : bool) (mn md : positive) (en ed : Z) :
  c <= en -> c <= ed -> le_at c (Z.pos mn) en (Z.pos md) ed ->
  in_unit_interval (f32_div (S754_finite sn mn en) (S754_finite sd md ed)).
Proof.
  intros Hcn Hcd Hle. assert (H := div_le_one c sn sd mn md en ed Hcn Hcd Hle).
  destruct (f32_div (S754_finite sn mn en) (S754_finite sd md ed));
    try contradiction.
  - apply in_unit_interval_zero.
  - now apply in_unit_interval_finite.
Qed.

(** One pixel: two binary32 samples that are zero or positive give an
    index in [-1, 1]. *)
Lemma ndvi_pixel_in_unit_interval (red nir : float32) :
  nonneg_finite red -> nonneg_finite nir -> in_unit_interval (ndvi_pixel red nir).
Proof.
  unfold ndvi_pixel.
  destruct red as [sr | sr | | [|] mr er]; try contradiction;
    destruct nir as [sn | sn | | [|] mn en]; try contradiction;
    cbn [nonneg_finite]; intros Hr Hn.
  - (* both zero *)
    assert (E : f32_eqb (f32_add (S754_zero sn) (S754_zero sr)) f32_zero = true)
      by (destruct sn, sr; reflexivity).
    rewrite E. apply in_unit_interval_zero.
  - (* red zero *)
    change (f32_add (S754_finite false mn en) (S754_zero sr))
      with (S754_finite false mn en).
    change (f32_sub (S754_finite false mn en) (S754_zero sr))
      with (S754_finite false mn en).
    change (f32_eqb (S754_finite false mn en) f32_zero) with false. cbv iota.
    apply (div_in_unit_interval en); try lia. apply le_at_refl.
  - (* near-infrared zero *)
    change (f32_add (S754_zero sn) (S754_finite false mr er))
      with (S754_finite false mr er).
    change (f32_sub (S754_zero sn) (S754_finite false mr er))
      with (S754_finite true mr er).
    change (f32_eqb (S754_finite false mr er) f32_zero) with false. cbv iota.
    apply (div_in_unit_interval er); try lia. apply le_at_refl.
  - (* both positive *)
    destruct (add_sub_finite mr mn er en Hr Hn) as [Hsub Hadd].
    cbv zeta in Hsub, Hadd.
    destruct Hadd as [Hinf | (md & ed & Hd & Hed & Hle)].
    + rewrite Hinf. change (f32_eqb (S754_infinity false) f32_zero) with false.
      cbv iota. destruct Hsub as [[s ->] | (s & m & e & ->)];
        apply in_unit_interval_zero.
    + rewrite Hd. change (f32_eqb (S754_finite false md ed) f32_zero) with false.
      cbv iota. destruct Hsub as [[s ->] | (s & m & e & Hs)].
      * apply in_unit_interval_zero.
      * rewrite Hs. destruct (Hle s m e Hs) as [He Hlt].
        now apply (div_in_unit_interval (-149)).
Qed.

End NdviRange.

(* ===================================================================== *)
(** * NDVI: the range of the index *)
(* ===================================================================== *)

Section NdviTheorem.
Import SatImageReader.

Lemma calculate_ndvi_readable (self : t) (red_band_index nir_band_index : Z)
  (red nir : Grid float32) :
  bandes self = count (image self) ->
  read (image self) red_band_index = Return red ->
  read (image self) nir_band_index = Return nir ->
  calculate_ndvi self red_band_index nir_band_index
  = Return (Some (grid_map2 (fun n r => ndvi_pixel r n) nir red)).
Proof.
  intros Hb Hred Hnir. unfold calculate_ndvi.
  assert (Hr := read_Return_range _ _ _ Hred).
  assert (Hn := read_Return_range _ _ _ Hnir).
  replace (bandes self <? Z.max red_band_index nir_band_index) with false
    by (symmetry; apply Z.ltb_ge; lia).
  rewrite Hred, Hnir. cbn [bind try_except]. now rewrite ndvi_of_pixelwise.
Qed.

(** C1, amended.  On two bands that decode, [calculate_ndvi] returns the
    grid whose pixel at each place is computed in binary32 from the two
    samples at that place: 0 where [nir + red] compares equal to zero,
    [(nir - red) / (nir + red)] elsewhere.  When the samples of both
    bands are well-formed binary32 numbers that are zero or positive,
    every element of that grid is a number (neither NaN nor infinite) of
    [-1, 1]. *)
Theorem ndvi_in_unit_interval :
  forall (self : t) (red_band_index nir_band_index : Z) (red nir : Grid float32),
    bandes self = count (image self) ->
    read (image self) red_band_index = Return red ->
    read (image self) nir_band_index = Return nir ->
    exists ndvi,
      calculate_ndvi self red_band_index nir_band_index = Return (Some ndvi)
      /\ ndvi = grid_map2
                  (fun n r =>
                     if f32_eqb (f32_add n r) f32_zero then f32_zero
                     else f32_div (f32_sub n r) (f32_add n r))
                  nir red
      /\ ((forall x, In x (flatten red) -> nonneg_finite x) ->
          (forall x, In x (flatten nir) -> nonneg_finite x) ->
          forall v, In v (flatten ndvi) -> in_unit_interval v).
Proof.
  intros self ri ni red nir Hb Hred Hnir.
  eexists. split; [ exact (calculate_ndvi_readable _ _ _ _ _ Hb Hred Hnir) | ].
  split; [ reflexivity | ].
  intros Hr Hn v Hv. apply In_flatten_grid_map2 in Hv.
  destruct Hv as (n & r & Hin_n & Hin_r & ->).
  apply ndvi_pixel_in_unit_interval; auto.
Qed.

End NdviTheorem.

(* ===================================================================== *)
(** * Sums, quotients and percentages in binary32 *)
(* ===================================================================== *)

Section Binary32Sums.
Import SatImageReader.

Lemma binary_round_shape (s : bool) (p : positive) (e : Z) :
  match binary_round prec emax s p e with
  | S754_zero s' => s' = s
  | S754_finite s' m3 E3 => s' = s /\ -149 <= E3
  | S754_infinity s' => s' = s
  | S754_nan => False
  end.
Proof.
  destruct (binary_round_spec s p e) as (m2 & H1 & H2 & ->).
  set (E1 := fexp32 (Zdigits2 (Z.pos p) + e)) in *.
  set (e0 := Z.min e E1) in *.
  assert (HE1 : -149 <= E1) by (unfold E1, fexp32; lia).
  assert (Hk : 0 < 2 ^ (E1 - e0)) by (apply pow2_pos; lia).
  assert (Hm2 : 0 <= m2).
  { assert (0 <= Z.pos p * 2 ^ (e - e0) / 2 ^ (E1 - e0)); [ | lia ].
    apply Z.div_pos; [ | lia ].
    assert (0 < 2 ^ (e - e0)) by (apply pow2_pos; lia). nia. }
  unfold renormalize.
  set (k := Z.max 0 (fexp32 (Zdigits2 m2 + E1) - E1)).
  assert (Hk' : 0 < 2 ^ k) by (apply pow2_pos; lia).
  assert (Hq : 0 <= m2 / 2 ^ k) by (apply Z.div_pos; lia).
  destruct (m2 / 2 ^ k) as [| q | q]; [ reflexivity | | lia ].
  destruct (E1 + k <=? 104); [ | reflexivity ].
  split; [ reflexivity | lia ].
Qed.

(** Rounding a number of the format gives that number. *)
Lemma binary_round_exact (s : bool) (p K : positive) (e E : Z) :
  bounded prec emax K E = true -> -149 <= e ->
  Z.pos p * 2 ^ (e - -149) = Z.pos K * 2 ^ (E - -149) ->
  binary_round prec emax s p e = S754_finite s K E.
Proof.
  intros HB He Hv. destruct (bounded_inv K E HB) as (Hcan & HE & HdK).
  destruct (binary_round_spec s p e) as (m2 & H1 & H2 & ->).
  assert (Hdig : Zdigits2 (Z.pos p) + e = Zdigits2 (Z.pos K) + E).
  { assert (Hd : Zdigits2 (Z.pos p * 2 ^ (e - -149))
                 = Zdigits2 (Z.pos K * 2 ^ (E - -149))) by now rewrite Hv.
    rewrite !Zdigits2_shift in Hd by lia. lia. }
  rewrite Hdig, <- Hcan in *.
  set (e0 := Z.min e E) in *.
  assert (Hk : 0 < 2 ^ (E - e0)) by (apply pow2_pos; lia).
  assert (Hmz : Z.pos p * 2 ^ (e - e0) = Z.pos K * 2 ^ (E - e0)).
  { assert (Hs : 0 < 2 ^ (e0 - -149)) by (apply pow2_pos; lia).
    rewrite (pow2_split (e - -149) (e0 - -149)) in Hv by lia.
    rewrite (pow2_split (E - -149) (e0 - -149)) in Hv by lia.
    replace (e - -149 - (e0 - -149)) with (e - e0) in Hv by lia.
    replace (E - -149 - (e0 - -149)) with (E - e0) in Hv by lia.
    nia. }
  rewrite Hmz in H1, H2. rewrite Z.div_mul in H1 by lia.
  assert (Hm2 : m2 = Z.pos K) by nia. subst m2.
  unfold renormalize. rewrite <- Hcan.
  replace (Z.max 0 (E - E)) with 0 by lia.
  rewrite Z.pow_0_r, Z.div_1_r, Z.add_0_r.
  replace (E <=? 104) with true by (symmetry; apply Z.leb_le; lia).
  reflexivity.
Qed.


Lemma bounded_intro (m : positive) (e : Z) :
  e = fexp32 (Zdigits2 (Z.pos m) + e) -> e <= 104 ->
  bounded prec emax m e = true.
Proof.
  intros Hcan He. unfold bounded, canonical_mantissa. rewrite fexp_fexp32.
  change (Z.pos (digits2_pos m)) with (Zdigits2 (Z.pos m)).
  apply andb_true_iff. split; [ apply Z.eqb_eq; now symmetry | ].
  apply Z.leb_le. change (emax - prec) with 104. exact He.
Qed.

(** The integers up to [2 ^ 24] are numbers of the format. *)
Lemma f32_of_Z_exact (k : Z) :
  1 <= k <= 2 ^ 24 ->
  exists M E,
    f32_of_Z k = S754_finite false M E /\ bounded prec emax M E = true
    /\ Z.pos M * 2 ^ (E - -149) = k * 2 ^ (0 - -149).
Proof.
  intros Hk. destruct k as [| p | p]; try lia.
  destruct (Z.eq_dec (Z.pos p) (2 ^ 24)) as [E24 | Hne].
  - injection E24 as ->. exists (2 ^ 23)%positive, 1.
    split; [ reflexivity | ]. split; reflexivity.
  - assert (Hlt : Z.pos p < 2 ^ 24) by lia.
    set (d := Zdigits2 (Z.pos p)).
    assert (Hd : 1 <= d <= 24).
    { unfold d. rewrite Zdigits2_log2 by lia.
      assert (0 <= Z.log2 (Z.pos p)) by apply Z.log2_nonneg.
      assert (Z.log2 (Z.pos p) < 24) by (apply Z.log2_lt_pow2; lia). lia. }
    assert (Hp : 0 < 2 ^ (24 - d)) by (apply pow2_pos; lia).
    destruct (Z.pos p * 2 ^ (24 - d)) as [| M | M] eqn:HM; try lia.
    exists M, (d - 24).
    assert (Hv : Z.pos M * 2 ^ (d - 24 - -149) = Z.pos p * 2 ^ (0 - -149)).
    { rewrite <- HM, <- Z.mul_assoc, <- Z.pow_add_r by lia.
      do 2 f_equal. lia. }
    assert (HB : bounded prec emax M (d - 24) = true).
    { apply bounded_intro; [ | lia ].
      rewrite <- HM, Zdigits2_shift by lia. fold d. unfold fexp32. lia. }
    split; [ | split; [ exact HB | exact Hv ] ].
    unfold f32_of_Z. cbn [binary_normalize].
    apply binary_round_exact; [ exact HB | lia | now symmetry ].
Qed.

Lemma f32_add_finite (m1 m2 : positive) (e1 e2 : Z) :
  exists p,
    Z.pos p = Z.pos m1 * 2 ^ (e1 - Z.min e1 e2)
              + Z.pos m2 * 2 ^ (e2 - Z.min e1 e2)
    /\ f32_add (S754_finite false m1 e1) (S754_finite false m2 e2)
       = binary_round prec emax false p (Z.min e1 e2).
Proof.
  unfold f32_add. cbn [SFadd cond_Zopp].
  set (ez := Z.min e1 e2).
  destruct (shl_align_spec m1 e1 ez) as [_ H1].
  destruct (shl_align_spec m2 e2 ez) as [_ H2].
  replace (Z.min e1 ez) with ez in H1 by lia.
  replace (Z.min e2 ez) with ez in H2 by lia.
  exists (fst (shl_align m1 e1 ez) + fst (shl_align m2 e2 ez))%positive.
  split; [ rewrite Pos2Z.inj_add; now rewrite H1, H2 | reflexivity ].
Qed.

(** Zero, a positive number or the positive infinity. *)
Lemma f32_add_not_negative (x y : float32) :
  not_negative x -> not_negative y -> not_negative (f32_add x y).
Proof.
  destruct x as [sx | [|] | | [|] mx ex]; try contradiction;
    destruct y as [sy | [|] | | [|] my ey]; try contradiction;
    cbn [not_negative]; intros Hx Hy; try exact I; try assumption.
  - destruct sx, sy; exact I.
  - destruct (f32_add_finite mx my ex ey) as (p & _ & ->).
    assert (H := binary_round_shape false p (Z.min ex ey)).
    destruct (binary_round prec emax false p (Z.min ex ey)) as [s | s | | s m e];
      cbn [not_negative]; auto.
    + now subst s.
    + destruct H as [-> H]. exact H.
Qed.

Lemma f32_add_zeros (x y : float32) :
  is_zero x -> is_zero y -> is_zero (f32_add x y).
Proof.
  destruct x as [sx | | |]; try contradiction.
  destruct y as [sy | | |]; try contradiction.
  intros _ _. destruct sx, sy; exact I.
Qed.

Lemma f32_add_at_least (M : positive) (E : Z) (x y : float32) :
  bounded prec emax M E = true ->
  not_negative x -> not_negative y ->
  at_least M E x \/ at_least M E y -> at_least M E (f32_add x y).
Proof.
  intros HB.
  destruct x as [sx | [|] | | [|] mx ex]; try contradiction;
    destruct y as [sy | [|] | | [|] my ey]; try contradiction;
    cbn [not_negative at_least]; intros Hx Hy H;
    try exact I; try (destruct H as [H | H]; (contradiction || exact H)).
  destruct (f32_add_finite mx my ex ey) as (p & Hp & ->).
  set (ez := Z.min ex ey) in *.
  assert (Hpx : 0 < 2 ^ (ex - ez)) by (apply pow2_pos; lia).
  assert (Hpy : 0 < 2 ^ (ey - ez)) by (apply pow2_pos; lia).
  assert (Hz : 0 < 2 ^ (ez - -149)) by (apply pow2_pos; lia).
  assert (Hvx : Z.pos mx * 2 ^ (ex - -149)
                = Z.pos mx * 2 ^ (ex - ez) * 2 ^ (ez - -149)).
  { rewrite <- Z.mul_assoc, <- Z.pow_add_r by lia. do 2 f_equal. lia. }
  assert (Hvy : Z.pos my * 2 ^ (ey - -149)
                = Z.pos my * 2 ^ (ey - ez) * 2 ^ (ez - -149)).
  { rewrite <- Z.mul_assoc, <- Z.pow_add_r by lia. do 2 f_equal. lia. }
  assert (Hle : le_at (-149) (Z.pos M) E (Z.pos p) ez).
  { unfold le_at in *. rewrite Hp.
    destruct H as [[_ H] | [_ H]]; nia. }
  assert (Hlow := binary_round_lower false p M ez E HB ltac:(lia) Hle).
  destruct (binary_round prec emax false p ez) as [s | s | | s m e];
    try contradiction.
  - now subst s.
  - destruct Hlow as (-> & He & Hm). split; assumption.
Qed.

Lemma at_most_zero (x : float32) : at_most 0 x -> is_zero x.
Proof.
  destruct x as [s | s | | [|] m e]; cbn [at_most is_zero]; auto.
  intros [He H]. unfold le_at in H.
  assert (0 < 2 ^ (e - -149)) by (apply pow2_pos; lia). nia.
Qed.

Lemma at_most_mono (K K' : Z) (x : float32) :
  K <= K' -> at_most K x -> at_most K' x.
Proof.
  intros HK. destruct x as [s | s | | [|] m e]; cbn [at_most]; auto.
  intros [He H]. split; [ exact He | ]. unfold le_at in *.
  assert (0 < 2 ^ (0 - -149)) by (apply pow2_pos; lia). nia.
Qed.

Lemma at_most_not_negative (K : Z) (x : float32) :
  at_most K x -> not_negative x.
Proof.
  destruct x as [s | s | | [|] m e]; cbn [at_most not_negative]; tauto.
Qed.

Lemma f32_add_at_most (K1 K2 : Z) (x y : float32) :
  0 <= K1 -> 0 <= K2 -> K1 + K2 <= 2 ^ 24 ->
  at_most K1 x -> at_most K2 y -> at_most (K1 + K2) (f32_add x y).
Proof.
  intros H1 H2 H12 Hx Hy.
  destruct x as [sx | sx | | [|] mx ex]; try contradiction;
    destruct y as [sy | sy | | [|] my ey]; try contradiction.
  - destruct sx, sy; exact I.
  - apply (at_most_mono K2); [ lia | exact Hy ].
  - apply (at_most_mono K1); [ lia | exact Hx ].
  - cbn [at_most] in Hx, Hy. destruct Hx as [Hex Hx]. destruct Hy as [Hey Hy].
    destruct (f32_add_finite mx my ex ey) as (p & Hp & ->).
    set (ez := Z.min ex ey) in *.
    assert (Hpx : 0 < 2 ^ (ex - ez)) by (apply pow2_pos; lia).
    assert (Hpy : 0 < 2 ^ (ey - ez)) by (apply pow2_pos; lia).
    assert (Hz : 0 < 2 ^ (ez - -149)) by (apply pow2_pos; lia).
    assert (Hvx : Z.pos mx * 2 ^ (ex - -149)
                  = Z.pos mx * 2 ^ (ex - ez) * 2 ^ (ez - -149)).
    { rewrite <- Z.mul_assoc, <- Z.pow_add_r by lia. do 2 f_equal. lia. }
    assert (Hvy : Z.pos my * 2 ^ (ey - -149)
                  = Z.pos my * 2 ^ (ey - ez) * 2 ^ (ez - -149)).
    { rewrite <- Z.mul_assoc, <- Z.pow_add_r by lia. do 2 f_equal. lia. }
    assert (HK : 1 <= K1 + K2).
    { unfold le_at in Hx, Hy.
      assert (0 < 2 ^ (ex - -149)) by (apply pow2_pos; lia).
      assert (0 < 2 ^ (0 - -149)) by (apply pow2_pos; lia). nia. }
    destruct (f32_of_Z_exact (K1 + K2) ltac:(lia)) as (M & E & _ & HB & HM).
    assert (Hle : le_at (-149) (Z.pos p) ez (Z.pos M) E).
    { unfold le_at in *. rewrite Hp, HM. nia. }
    assert (Hup := binary_round_upper false p M ez E HB ltac:(lia) Hle).
    destruct (binary_round prec emax false p ez) as [s | s | | s m e];
      try contradiction; [ exact I | ].
    destruct Hup as (-> & He & Hm). cbn [at_most]. split; [ exact He | ].
    unfold le_at in *. rewrite <- HM. exact Hm.
Qed.

(** ** Sums in any order *)

Lemma summation_not_negative (l : list float32) (s : float32) :
  summation l s -> (forall x, In x l -> not_negative x) -> not_negative s.
Proof.
  induction 1 as [sg | x | l l1 l2 s1 s2 Hperm H1 IH1 H2 IH2]; intros Hall.
  - exact I.
  - apply Hall. now left.
  - apply f32_add_not_negative.
    + apply IH1. intros x Hx. apply Hall.
      apply (Permutation_in _ (Permutation_sym Hperm)), in_or_app. now left.
    + apply IH2. intros x Hx. apply Hall.
      apply (Permutation_in _ (Permutation_sym Hperm)), in_or_app. now right.
Qed.

Lemma summation_zeros (l : list float32) (s : float32) :
  summation l s -> (forall x, In x l -> is_zero x) -> is_zero s.
Proof.
  induction 1 as [sg | x | l l1 l2 s1 s2 Hperm H1 IH1 H2 IH2]; intros Hall.
  - exact I.
  - apply Hall. now left.
  - apply f32_add_zeros.
    + apply IH1. intros x Hx. apply Hall.
      apply (Permutation_in _ (Permutation_sym Hperm)), in_or_app. now left.
    + apply IH2. intros x Hx. apply Hall.
      apply (Permutation_in _ (Permutation_sym Hperm)), in_or_app. now right.
Qed.

Lemma summation_at_least (M : positive) (E : Z) (l : list float32)
  (s : float32) :
  bounded prec emax M E = true ->
  summation l s -> (forall x, In x l -> not_negative x) ->
  (exists x, In x l /\ at_least M E x) -> at_least M E s.
Proof.
  intros HB. induction 1 as [sg | x | l l1 l2 s1 s2 Hperm H1 IH1 H2 IH2];
    intros Hall (y & Hy & Hlow).
  - destruct Hy.
  - destruct Hy as [<- | []]. exact Hlow.
  - assert (Hl1 : forall x, In x l1 -> not_negative x).
    { intros x Hx. apply Hall.
      apply (Permutation_in _ (Permutation_sym Hperm)), in_or_app. now left. }
    assert (Hl2 : forall x, In x l2 -> not_negative x).
    { intros x Hx. apply Hall.
      apply (Permutation_in _ (Permutation_sym Hperm)), in_or_app. now right. }
    apply f32_add_at_least; [ exact HB | | | ].
    + now apply (summation_not_negative l1).
    + now apply (summation_not_negative l2).
    + apply (Permutation_in _ Hperm), in_app_or in Hy.
      destruct Hy as [Hy | Hy]; [ left; apply IH1 | right; apply IH2 ]; eauto.
Qed.

Lemma summation_at_most (l : list float32) (s : float32) :
  summation l s -> (forall x, In x l -> at_most 1 x) ->
  Z.of_nat (length l) <= 2 ^ 24 -> at_most (Z.of_nat (length l)) s.
Proof.
  induction 1 as [sg | x | l l1 l2 s1 s2 Hperm H1 IH1 H2 IH2];
    intros Hall Hlen.
  - exact I.
  - apply Hall. now left.
  - assert (Hl : length l = (length l1 + length l2)%nat)
      by (rewrite (Permutation_length Hperm); apply length_app).
    rewrite Hl, Nat2Z.inj_add in *.
    apply f32_add_at_most; try lia.
    + apply IH1; [ | lia ]. intros x Hx. apply Hall.
      apply (Permutation_in _ (Permutation_sym Hperm)), in_or_app. now left.
    + apply IH2; [ | lia ]. intros x Hx. apply Hall.
      apply (Permutation_in _ (Permutation_sym Hperm)), in_or_app. now right.
Qed.

Lemma f32_sum_summation (l : list float32) : summation l (f32_sum l).
Proof.
  destruct l as [| x rest]; [ apply sum_identity | ].
  unfold f32_sum. revert x.
  induction rest as [| y rest IH] using rev_ind; intros x.
  - apply sum_item.
  - rewrite fold_left_app. cbn [fold_left].
    apply (sum_add _ (x :: rest) [y]); [ | apply IH | apply sum_item ].
    apply Permutation_refl.
Qed.

End Binary32Sums.

Section Binary32Order.
Import SatImageReader.

Lemma nonneg_finite_not_negative (x : float32) :
  nonneg_finite x -> not_negative x.
Proof.
  destruct x as [s | s | | [|] m e]; cbn [nonneg_finite not_negative];
    try tauto.
  intros H. apply bounded_inv in H. lia.
Qed.

Lemma f32_ltb_order (a b : float32) :
  nonneg_finite a -> nonneg_finite b ->
  if f32_ltb a b then below a b else below b a.
Proof.
  destruct a as [sa | sa | | [|] ma ea]; try contradiction;
    destruct b as [sb | sb | | [|] mb eb]; try contradiction;
    cbn [nonneg_finite]; intros Ha Hb; try exact I.
  destruct (bounded_inv ma ea Ha) as (Hca & Hea & Hda).
  destruct (bounded_inv mb eb Hb) as (Hcb & Heb & Hdb).
  destruct (Zdigits2_bounds (Z.pos ma) (Pos2Z.is_pos ma)) as [Hla Hua].
  destruct (Zdigits2_bounds (Z.pos mb) (Pos2Z.is_pos mb)) as [Hlb Hub].
  unfold f32_ltb, SFltb. cbn [SFcompare below]. unfold le_at.
  assert (Hpa : 0 < 2 ^ (ea - -149)) by (apply pow2_pos; lia).
  assert (Hpb : 0 < 2 ^ (eb - -149)) by (apply pow2_pos; lia).
  destruct (Z.compare_spec ea eb) as [E | E | E].
  - subst eb. rewrite Pos.compare_cont_spec.
    destruct (Pos.compare_spec ma mb) as [E | E | E];
      cbv beta iota delta [Pos.switch_Eq]; nia.
  - (* the exponent of [a] is the smaller one *)
    assert (Hdb' : Zdigits2 (Z.pos mb) = 24) by (unfold fexp32 in *; lia).
    assert (Hda' : Zdigits2 (Z.pos ma) <= 24) by (unfold fexp32 in *; lia).
    rewrite Hdb' in Hlb.
    assert (H1 : Z.pos ma < 2 ^ 24).
    { apply Z.lt_le_trans with (2 ^ Zdigits2 (Z.pos ma)); [ lia | ].
      apply Z.pow_le_mono_r; lia. }
    cbv beta iota.
    rewrite (pow2_split (eb - -149) (ea - -149)) by lia.
    replace (eb - -149 - (ea - -149)) with (eb - ea) by lia.
    assert (H2 : 2 ^ 1 <= 2 ^ (eb - ea)) by (apply Z.pow_le_mono_r; lia).
    change (2 ^ (24 - 1)) with 8388608 in Hlb.
    change (2 ^ 24) with 16777216 in H1. change (2 ^ 1) with 2 in H2.
    assert (H3 : Z.pos ma <= Z.pos mb * 2 ^ (eb - ea)) by nia.
    rewrite Z.mul_assoc. apply Z.mul_le_mono_nonneg_r; lia.
  - assert (Hda' : Zdigits2 (Z.pos ma) = 24) by (unfold fexp32 in *; lia).
    assert (Hdb' : Zdigits2 (Z.pos mb) <= 24) by (unfold fexp32 in *; lia).
    rewrite Hda' in Hla.
    assert (H1 : Z.pos mb < 2 ^ 24).
    { apply Z.lt_le_trans with (2 ^ Zdigits2 (Z.pos mb)); [ lia | ].
      apply Z.pow_le_mono_r; lia. }
    cbv beta iota.
    rewrite (pow2_split (ea - -149) (eb - -149)) by lia.
    replace (ea - -149 - (eb - -149)) with (ea - eb) by lia.
    assert (H2 : 2 ^ 1 <= 2 ^ (ea - eb)) by (apply Z.pow_le_mono_r; lia).
    change (2 ^ (24 - 1)) with 8388608 in Hla.
    change (2 ^ 24) with 16777216 in H1. change (2 ^ 1) with 2 in H2.
    assert (H3 : Z.pos mb <= Z.pos ma * 2 ^ (ea - eb)) by nia.
    rewrite Z.mul_assoc. apply Z.mul_le_mono_nonneg_r; lia.
Qed.

Lemma below_refl (a : float32) : nonneg_finite a -> below a a.
Proof.
  destruct a as [s | s | | [|] m e]; try contradiction; intros _;
    [ exact I | apply le_at_refl ].
Qed.

Lemma below_trans (a b c : float32) :
  nonneg_finite a -> nonneg_finite b -> nonneg_finite c ->
  below a b -> below b c -> below a c.
Proof.
  destruct a as [sa | sa | | [|] ma ea]; try contradiction;
    destruct b as [sb | sb | | [|] mb eb]; try contradiction;
    destruct c as [sc | sc | | [|] mc ec]; try contradiction;
    cbn [below]; auto; try contradiction.
  intros _ _ _. apply le_at_trans.
Qed.

Lemma f32_max_order (a b : float32) :
  nonneg_finite a -> nonneg_finite b ->
  (f32_max a b = a \/ f32_max a b = b)
  /\ below a (f32_max a b) /\ below b (f32_max a b).
Proof.
  intros Ha Hb. assert (H := f32_ltb_order a b Ha Hb).
  assert (E : f32_max a b = if f32_ltb a b then b else a).
  { destruct a as [sa | sa | | sa ma ea]; try contradiction;
      destruct b as [sb | sb | | sb mb eb]; try contradiction; reflexivity. }
  rewrite E. destruct (f32_ltb a b).
  - split; [ now right | ]. split; [ exact H | now apply below_refl ].
  - split; [ now left | ]. split; [ now apply below_refl | exact H ].
Qed.

(** The greatest pixel. *)
Lemma fold_max_order (l : list float32) (x : float32) :
  (forall y, In y (x :: l) -> nonneg_finite y) ->
  In (fold_left f32_max l x) (x :: l)
  /\ forall y, In y (x :: l) -> below y (fold_left f32_max l x).
Proof.
  revert x. induction l as [| a l IH]; intros x Hall.
  - split; [ now left | ]. intros y [<- | []]. apply below_refl.
    apply Hall. now left.
  - cbn [fold_left].
    assert (Hx : nonneg_finite x) by (apply Hall; now left).
    assert (Ha : nonneg_finite a) by (apply Hall; right; now left).
    destruct (f32_max_order x a Hx Ha) as (Hcase & Hbx & Hba).
    assert (Hm : nonneg_finite (f32_max x a))
      by (destruct Hcase as [-> | ->]; assumption).
    destruct (IH (f32_max x a)) as [Hin Hub].
    { intros y [<- | Hy]; [ exact Hm | apply Hall; right; now right ]. }
    assert (Hres : nonneg_finite (fold_left f32_max l (f32_max x a))).
    { destruct Hin as [<- | Hin]; [ exact Hm | apply Hall; right; now right ]. }
    split.
    + destruct Hin as [Hin | Hin]; [ | right; now right ].
      rewrite <- Hin. destruct Hcase as [-> | ->]; [ now left | right; now left ].
    + assert (Hmm := Hub _ (or_introl eq_refl)).
      intros y [<- | [<- | Hy]].
      * now apply (below_trans x (f32_max x a)).
      * now apply (below_trans a (f32_max x a)).
      * apply Hub. now right.
Qed.

End Binary32Order.

Section Binary32Quotients.
Import SatImageReader.

(** What [binary_round_aux] gives stays at or below a number of the
    format that bounds what it is given. *)
Lemma binary_round_aux_upper (s : bool) (m e : Z) (l : location)
  (B : positive) (EB c : Z) :
  0 <= m -> bounded prec emax B EB = true ->
  c <= e -> c <= -149 -> e <= EB ->
  (m + excess l) * 2 ^ (e - c) <= Z.pos B * 2 ^ (EB - c) ->
  match binary_round_aux prec emax s m e l with
  | S754_zero s' => s' = s
  | S754_finite s' m3 E3 =>
      s' = s /\ -149 <= E3 /\ le_at (-149) (Z.pos m3) E3 (Z.pos B) EB
  | _ => False
  end.
Proof.
  intros Hm HB Hce Hc HeB Hle.
  destruct (bounded_inv B EB HB) as (Hcan & HE & HdB).
  destruct (binary_round_aux_spec s m e l Hm) as (m2 & H1 & H2 & ->).
  set (k := Z.max 0 (fexp32 (Zdigits2 m + e) - e)) in *.
  assert (Hx : 0 <= excess l) by (destruct l; simpl; lia).
  assert (Hpe : 0 < 2 ^ (e - c)) by (apply pow2_pos; lia).
  assert (HpB : 0 < 2 ^ (EB - c)) by (apply pow2_pos; lia).
  assert (Hk : 0 < 2 ^ k) by (apply pow2_pos; lia).
  assert (Hdig : fexp32 (Zdigits2 m + e) <= EB).
  { rewrite Hcan. apply fexp32_mono.
    destruct (Z.eq_dec m 0) as [-> | Hne].
    - simpl Zdigits2.
      assert (1 <= Zdigits2 (Z.pos B))
        by (rewrite Zdigits2_log2 by lia;
            assert (0 <= Z.log2 (Z.pos B)) by apply Z.log2_nonneg; lia).
      unfold fexp32 in Hcan. lia.
    - apply (le_at_digits c m e (Z.pos B) EB); try lia.
      unfold le_at. nia. }
  assert (HE1 : e + k <= EB) by (unfold k; lia).
  assert (HE1lo : -149 <= e + k) by (unfold k, fexp32; lia).
  set (b := Z.pos B * 2 ^ (EB - (e + k))).
  assert (HpE : 0 < 2 ^ (EB - (e + k))) by (apply pow2_pos; lia).
  assert (Hb : b * 2 ^ k * 2 ^ (e - c) = Z.pos B * 2 ^ (EB - c)).
  { unfold b. rewrite <- !Z.mul_assoc, <- !Z.pow_add_r by lia.
    do 2 f_equal. lia. }
  assert (Hm2 : 0 <= m2 <= b).
  { split.
    - assert (0 <= m / 2 ^ k) by (apply Z.div_pos; lia). lia.
    - assert (m + excess l <= b * 2 ^ k) by nia. nia. }
  assert (Hd : Zdigits2 b + (e + k) <= 128)
    by (unfold b; rewrite Zdigits2_shift by lia; lia).
  assert (Hup := renormalize_upper s m2 b (e + k) Hm2 ltac:(lia) Hd).
  destruct (renormalize s m2 (e + k)) as [s' | s' | | s' m3 E3]; auto.
  destruct Hup as (-> & HE3 & Hm3). split; [ reflexivity | ].
  split; [ lia | ].
  apply (le_at_any (e + k)); try lia.
  unfold le_at. unfold b in Hm3. exact Hm3.
Qed.

(** What [binary_round_aux] gives stays at or above a number of the
    format that is below what it is given. *)
Lemma binary_round_aux_lower (s : bool) (m e : Z) (l : location)
  (M : positive) (E c : Z) :
  0 <= m -> bounded prec emax M E = true ->
  c <= e -> c <= -149 ->
  le_at c (Z.pos M) E m e ->
  match binary_round_aux prec emax s m e l with
  | S754_finite s' m3 E3 =>
      s' = s /\ -149 <= E3 /\ le_at (-149) (Z.pos M) E (Z.pos m3) E3
  | S754_infinity s' => s' = s
  | _ => False
  end.
Proof.
  intros Hm HB Hce Hc Hle.
  destruct (bounded_inv M E HB) as (Hcan & HE & HdM).
  destruct (binary_round_aux_spec s m e l Hm) as (m2 & H1 & H2 & ->).
  set (k := Z.max 0 (fexp32 (Zdigits2 m + e) - e)) in *.
  assert (Hk : 0 < 2 ^ k) by (apply pow2_pos; lia).
  assert (HE1lo : -149 <= e + k) by (unfold k, fexp32; lia).
  assert (Hfloor : le_at c (Z.pos M) E (m / 2 ^ k) (e + k)).
  { destruct (Z.le_gt_cases (fexp32 (Zdigits2 m + e)) e) as [Hsmall | Hbig].
    - replace k with 0 by (unfold k; lia).
      rewrite Z.div_1_r, Z.add_0_r. exact Hle.
    - replace k with (fexp32 (Zdigits2 m + e) - e) by (unfold k; lia).
      replace (e + (fexp32 (Zdigits2 m + e) - e))
        with (fexp32 (Zdigits2 m + e)) by lia.
      apply floor_keeps_representable; auto; lia. }
  assert (Hm2 : le_at c (Z.pos M) E m2 (e + k)).
  { unfold le_at in *.
    assert (0 < 2 ^ (e + k - c)) by (apply pow2_pos; lia). nia. }
  assert (Hlow := renormalize_lower s c (Z.pos M) E m2 (e + k)
                    (Pos2Z.is_pos M) Hcan ltac:(lia) ltac:(lia) Hm2).
  destruct (renormalize s m2 (e + k)) as [s' | s' | | s' m3 E3]; auto.
  destruct Hlow as (-> & HE3 & Hm3). split; [ reflexivity | ].
  split; [ lia | ]. apply (le_at_any c); try lia. exact Hm3.
Qed.

(** The quotient and the remainder that [SFdiv] rounds. *)
Lemma SFdiv_core_spec (mx my : positive) (ex ey : Z) :
  exists q r e',
    SFdiv_core_binary prec emax (Z.pos mx) ex (Z.pos my) ey
    = (q, e', new_location (Z.pos my) r)
    /\ e' <= ex - ey
    /\ e' = Z.min (fexp32 (Zdigits2 (Z.pos mx) + ex
                           - (Zdigits2 (Z.pos my) + ey))) (ex - ey)
    /\ Z.pos mx * 2 ^ (ex - ey - e') = Z.pos my * q + r
    /\ 0 <= r < Z.pos my /\ 0 <= q.
Proof.
  unfold SFdiv_core_binary. rewrite fexp_fexp32.
  set (e' := Z.min (fexp32 (Zdigits2 (Z.pos mx) + ex
                            - (Zdigits2 (Z.pos my) + ey))) (ex - ey)).
  set (sh := ex - ey - e').
  assert (Hsh : 0 <= sh) by (unfold sh, e'; lia).
  set (m' := match sh with
             | 0 => Z.pos mx
             | Z.pos _ => Z.shiftl (Z.pos mx) sh
             | Z.neg _ => 0
             end).
  assert (Hm' : m' = Z.pos mx * 2 ^ sh).
  { unfold m'. destruct sh as [| p | p] eqn:E; try lia.
    now rewrite Z.shiftl_mul_pow2 by lia. }
  assert (Hdm := Z_div_mod m' (Z.pos my) ltac:(lia)).
  destruct (Z.div_eucl m' (Z.pos my)) as [q r]. destruct Hdm as [Hqr Hr].
  exists q, r, e'. split; [ reflexivity | ].
  assert (Hp : 0 < 2 ^ sh) by (apply pow2_pos; lia).
  split; [ unfold e'; lia | ]. split; [ reflexivity | ].
  split; [ rewrite Hm' in Hqr; exact Hqr | ]. split; [ lia | nia ].
Qed.

(** The quotient of a positive number by one that is at least as large
    is at most 1. *)
Lemma f32_div_at_most_one (mx my : positive) (ex ey : Z) :
  -149 <= ex -> -149 <= ey ->
  le_at (-149) (Z.pos mx) ex (Z.pos my) ey ->
  at_most 1 (f32_div (S754_finite false mx ex) (S754_finite false my ey)).
Proof.
  intros Hex Hey Hle.
  destruct (SFdiv_core_spec mx my ex ey) as (q & r & e' & Hcore & Hee
                                             & He'def & Hqr & Hr & Hq).
  destruct (le_at_digits _ _ _ _ _ Hex Hey (Pos2Z.is_pos mx) Hle) as [_ Hdig].
  assert (He' : e' <= -24) by (rewrite He'def; unfold fexp32; lia).
  unfold f32_div. cbn [SFdiv]. rewrite Hcore. cbn [xorb].
  set (c := Z.min e' (-149)).
  assert (Hx : excess (new_location (Z.pos my) r) = if r =? 0 then 0 else 1)
    by apply excess_new_location.
  assert (HP : 0 < 2 ^ (- e')) by (apply pow2_pos; lia).
  assert (Hmle : Z.pos mx * 2 ^ (ex - ey - e') <= Z.pos my * 2 ^ (- e')).
  { assert (H : le_at (ey + e') (Z.pos mx) ex (Z.pos my) ey)
      by (apply (le_at_any (-149)); auto; lia).
    unfold le_at in H.
    replace (ex - (ey + e')) with (ex - ey - e') in H by lia.
    replace (ey - (ey + e')) with (- e') in H by lia. exact H. }
  assert (Hqx : q + excess (new_location (Z.pos my) r) <= 2 ^ (- e')).
  { rewrite Hx. destruct (Z.eqb_spec r 0); nia. }
  assert (Hup := binary_round_aux_upper false q e'
                   (new_location (Z.pos my) r) (2 ^ 23)%positive (-23) c
                   Hq eq_refl ltac:(unfold c; lia) ltac:(unfold c; lia)
                   ltac:(lia)).
  assert (Hpc : 0 < 2 ^ (e' - c)) by (apply pow2_pos; unfold c; lia).
  assert (Hone : Z.pos (2 ^ 23) * 2 ^ (-23 - c) = 2 ^ (- e') * 2 ^ (e' - c)).
  { change (Z.pos (2 ^ 23)) with (2 ^ 23).
    rewrite <- !Z.pow_add_r by (unfold c; lia). f_equal. lia. }
  specialize (Hup ltac:(rewrite Hone; nia)).
  destruct (binary_round_aux prec emax false q e' (new_location (Z.pos my) r))
    as [s' | s' | | s' m3 E3]; try contradiction; [ exact I | ].
  destruct Hup as (-> & HE3 & Hm3). cbn [at_most]. split; [ exact HE3 | ].
  unfold le_at in *. exact Hm3.
Qed.

(** The quotient of a number by itself is 1. *)
Lemma f32_div_same (m : positive) (e : Z) :
  f32_div (S754_finite false m e) (S754_finite false m e)
  = S754_finite false (2 ^ 23) (-23).
Proof.
  unfold f32_div. cbn [SFdiv]. unfold SFdiv_core_binary.
  replace (Zdigits2 (Z.pos m) + e - (Zdigits2 (Z.pos m) + e)) with 0 by lia.
  replace (e - e) with 0 by lia.
  change (Z.min (fexp prec emax 0) 0) with (-24).
  change (0 - -24) with 24. cbv iota.
  rewrite Z.shiftl_mul_pow2 by lia.
  assert (Hdm := Z_div_mod (Z.pos m * 2 ^ 24) (Z.pos m) ltac:(lia)).
  destruct (Z.div_eucl (Z.pos m * 2 ^ 24) (Z.pos m)) as [q r].
  destruct Hdm as [Hqr Hr].
  assert (Hq : q = 2 ^ 24) by nia.
  assert (Hr0 : r = 0) by nia. subst q r.
  destruct m; reflexivity.
Qed.

(** The quotient of a number that is at least 1 by one that is at most
    [2 ^ 24] is at least [2 ^ (-24)]. *)
Lemma f32_div_at_least (mx my : positive) (ex ey : Z) :
  -149 <= ex -> -149 <= ey ->
  le_at (-149) (Z.pos mx) ex (Z.pos my) ey ->
  le_at (-149) (2 ^ 23) (-23) (Z.pos mx) ex ->
  le_at (-149) (Z.pos my) ey (2 ^ 24) 0 ->
  at_least (2 ^ 23) (-47)
    (f32_div (S754_finite false mx ex) (S754_finite false my ey)).
Proof.
  intros Hex Hey Hle Hx Hy.
  destruct (SFdiv_core_spec mx my ex ey) as (q & r & e' & Hcore & Hee
                                             & He'def & Hqr & Hr & Hq).
  destruct (le_at_digits _ _ _ _ _ Hex Hey (Pos2Z.is_pos mx) Hle) as [_ Hdig].
  assert (He' : e' <= -24) by (rewrite He'def; unfold fexp32; lia).
  unfold f32_div. cbn [SFdiv]. rewrite Hcore. cbn [xorb].
  assert (Hey' : ey <= 24).
  { unfold le_at in Hy.
    assert (Hp : 2 ^ (ey - -149) <= 2 ^ 173).
    { change (2 ^ 24 * 2 ^ (0 - -149)) with (2 ^ 173) in Hy.
      assert (0 < 2 ^ (ey - -149)) by (apply pow2_pos; lia). nia. }
    apply (Z.pow_le_mono_r_iff 2) in Hp; lia. }
  assert (He'lo : -253 <= e') by (rewrite He'def; unfold fexp32; lia).
  set (c := -253).
  (* the quotient is at least [2 ^ (-24)] *)
  assert (Hquot : 2 ^ (-24 - e') <= q).
  { unfold le_at in Hx, Hy.
    change (2 ^ 23 * 2 ^ (-23 - -149)) with (2 ^ 149) in Hx.
    change (2 ^ 24 * 2 ^ (0 - -149)) with (2 ^ 173) in Hy.
    assert (Hpx : 0 < 2 ^ (ex - -149)) by (apply pow2_pos; lia).
    assert (Hpy : 0 < 2 ^ (ey - -149)) by (apply pow2_pos; lia).
    assert (Hps : 0 < 2 ^ (ex - ey - e')) by (apply pow2_pos; lia).
    assert (Hpq : 0 < 2 ^ (-24 - e')) by (apply pow2_pos; lia).
    (* [my * 2 ^ (-24 - e') <= mx * 2 ^ (ex - ey - e')] *)
    assert (Hmain : Z.pos my * 2 ^ (-24 - e') <= Z.pos mx * 2 ^ (ex - ey - e')).
    { assert (H1 : Z.pos my * 2 ^ (-24 - e') * 2 ^ (ey - -149) * 2 ^ 149
                   <= Z.pos mx * 2 ^ (ex - ey - e') * 2 ^ (ey - -149) * 2 ^ 149).
      { replace (Z.pos my * 2 ^ (-24 - e') * 2 ^ (ey - -149) * 2 ^ 149)
          with (Z.pos my * 2 ^ (ey - -149) * (2 ^ (-24 - e') * 2 ^ 149)) by ring.
        replace (Z.pos mx * 2 ^ (ex - ey - e') * 2 ^ (ey - -149) * 2 ^ 149)
          with (Z.pos mx * 2 ^ (ex - -149) * 2 ^ (- e') * 2 ^ 149).
        - apply Z.le_trans with (2 ^ 173 * (2 ^ (-24 - e') * 2 ^ 149)).
          + apply Z.mul_le_mono_nonneg_r; [ | exact Hy ].
            assert (0 < 2 ^ 149) by (apply pow2_pos; lia). nia.
          + replace (2 ^ 173 * (2 ^ (-24 - e') * 2 ^ 149))
              with (2 ^ 149 * 2 ^ (- e') * 2 ^ 149).
            * apply Z.mul_le_mono_nonneg_r; [ apply Z.pow_nonneg; lia | ].
              apply Z.mul_le_mono_nonneg_r; [ apply Z.pow_nonneg; lia | ].
              exact Hx.
            * rewrite <- !Z.pow_add_r by lia. f_equal. lia.
        - rewrite <- !Z.mul_assoc. f_equal.
          rewrite <- !Z.pow_add_r by lia. f_equal. lia. }
      assert (0 < 2 ^ (ey - -149) * 2 ^ 149) by (apply Z.mul_pos_pos; [ lia | apply pow2_pos; lia ]).
      rewrite <- !Z.mul_assoc in H1.
      rewrite !(Z.mul_assoc (2 ^ _) (2 ^ (ey - -149)) (2 ^ 149)) in H1.
      rewrite !Z.mul_assoc in H1.
      rewrite <- (Z.mul_assoc (Z.pos my * 2 ^ (-24 - e'))) in H1.
      rewrite <- (Z.mul_assoc (Z.pos mx * 2 ^ (ex - ey - e'))) in H1.
      apply Z.mul_le_mono_pos_r in H1; [ exact H1 | exact H ]. }
    rewrite Hqr in Hmain. nia. }
  assert (Hleq : le_at c (2 ^ 23) (-47) q e').
  { unfold le_at, c.
    replace (2 ^ 23 * 2 ^ (-47 - -253)) with (2 ^ (-24 - e') * 2 ^ (e' - -253))
      by (rewrite <- !Z.pow_add_r by lia; f_equal; lia).
    apply Z.mul_le_mono_nonneg_r; [ apply Z.pow_nonneg; lia | exact Hquot ]. }
  assert (Hlow := binary_round_aux_lower false q e'
                    (new_location (Z.pos my) r) (2 ^ 23)%positive (-47) c
                    Hq eq_refl ltac:(unfold c; lia) ltac:(unfold c; lia) Hleq).
  destruct (binary_round_aux prec emax false q e' (new_location (Z.pos my) r))
    as [s' | s' | | s' m3 E3]; try contradiction.
  - now subst s'.
  - destruct Hlow as (-> & HE3 & Hm3). split; assumption.
Qed.

End Binary32Quotients.

Section Binary32Percent.
Import SatImageReader.

Lemma f32_mul_hundred_at_most (x : float32) :
  at_most 1 x -> at_most 100 (f32_mul x (f32_of_Z 100)).
Proof.
  change (f32_of_Z 100) with (S754_finite false 13107200 (-17)).
  destruct x as [s | s | | [|] mx ex]; try contradiction; [ intros _; exact I | ].
  intros [Hex Hx]. unfold f32_mul. cbn [SFmul xorb].
  unfold le_at in Hx.
  assert (Hp : 0 < 2 ^ (ex - -149)) by (apply pow2_pos; lia).
  assert (Hex0 : ex <= 0).
  { assert (H : 2 ^ (ex - -149) <= 2 ^ 149)
      by (change (1 * 2 ^ (0 - -149)) with (2 ^ 149) in Hx; nia).
    apply (Z.pow_le_mono_r_iff 2) in H; lia. }
  assert (Hup := binary_round_aux_upper false (Z.pos (mx * 13107200)) (ex + -17)
                   loc_Exact 13107200 (-17) (-166)
                   ltac:(lia) eq_refl ltac:(lia) ltac:(lia) ltac:(lia)).
  replace (ex + -17 - -166) with (ex - -149) in Hup by lia.
  change (-17 - -166) with 149 in Hup. cbn [excess] in Hup.
  change (1 * 2 ^ (0 - -149)) with (2 ^ 149) in Hx.
  specialize (Hup ltac:(rewrite Pos2Z.inj_mul; nia)).
  destruct (binary_round_aux prec emax false (Z.pos (mx * 13107200)) (ex + -17)
              loc_Exact) as [s' | s' | | s' m3 E3]; try contradiction;
    [ exact I | ].
  destruct Hup as (-> & HE3 & Hm3). split; [ exact HE3 | ].
  unfold le_at in *. exact Hm3.
Qed.

Lemma f32_mul_hundred_at_least (x : float32) :
  at_least (2 ^ 23) (-47) x ->
  at_least (2 ^ 23) (-47) (f32_mul x (f32_of_Z 100)).
Proof.
  change (f32_of_Z 100) with (S754_finite false 13107200 (-17)).
  destruct x as [s | [|] | | [|] mx ex]; try contradiction; [ intros _; exact I | ].
  intros [Hex Hx]. unfold f32_mul. cbn [SFmul xorb].
  unfold le_at in Hx.
  assert (Hp : 0 < 2 ^ (ex - -149)) by (apply pow2_pos; lia).
  assert (Hle : le_at (-166) (Z.pos (2 ^ 23)) (-47)
                  (Z.pos (mx * 13107200)) (ex + -17)).
  { unfold le_at. replace (ex + -17 - -166) with (ex - -149) by lia.
    rewrite Pos2Z.inj_mul.
    change (Z.pos (2 ^ 23) * 2 ^ (-47 - -166))
      with (2 ^ 23 * 2 ^ (-47 - -149) * 131072).
    change (Z.pos (2 ^ 23)) with (2 ^ 23) in Hx. nia. }
  assert (Hlow := binary_round_aux_lower false (Z.pos (mx * 13107200)) (ex + -17)
                    loc_Exact (2 ^ 23)%positive (-47) (-166)
                    ltac:(lia) eq_refl ltac:(lia) ltac:(lia) Hle).
  destruct (binary_round_aux prec emax false (Z.pos (mx * 13107200)) (ex + -17)
              loc_Exact) as [s' | s' | | s' m3 E3]; try contradiction.
  - now subst s'.
  - destruct Hlow as (-> & HE3 & Hm3). split; assumption.
Qed.

(** From the integers of the bounds to the number a datum stands for. *)
Lemma at_most_value (K : Z) (x : float32) :
  at_most K x -> 0 <= K ->
  exists q, f32_value x = Some q /\ (0 <= q <= inject_Z K)%Q.
Proof.
  destruct x as [s | s | | [|] m e]; try contradiction.
  - intros _ HK. exists 0%Q. split; [ reflexivity | ].
    split; [ apply Qle_refl | ].
    change 0%Q with (inject_Z 0). now rewrite <- Zle_Qle.
  - intros [He Hle] HK. eexists. split; [ reflexivity | ].
    cbn [cond_Zopp]. unfold le_at in Hle.
    assert (H2 : ~ (2 == 0)%Q) by (intros E; discriminate E).
    assert (Hpos : (0 < 2 ^ 149)%Q) by reflexivity.
    assert (Hsplit : (2 ^ e == inject_Z (2 ^ (e - -149)) / 2 ^ 149)%Q).
    { replace e with ((e - -149) - 149) at 1 by lia.
      rewrite Qpower_minus by exact H2.
      rewrite Zpower_Qpower by lia. reflexivity. }
    split.
    + apply Qmult_le_0_compat.
      * change (inject_Z 0 <= inject_Z (Z.pos m))%Q. rewrite <- Zle_Qle. lia.
      * apply Qpower_0_le. discriminate.
    + rewrite Hsplit. unfold Qdiv. rewrite Qmult_assoc.
      apply Qle_shift_div_r; [ exact Hpos | ].
      rewrite <- inject_Z_mult.
      change (2 ^ 149)%Q with (inject_Z (2 ^ (0 - -149))).
      rewrite <- inject_Z_mult, <- Zle_Qle. exact Hle.
Qed.


End Binary32Percent.

(* ===================================================================== *)
(** * The coverage statistic in binary32 *)
(* ===================================================================== *)

Section CoverageBinary32.
Import GroundTruth SatImageReader.
Variable np_sum32 : list float32 -> float32.
Hypothesis sum_order : forall l, summation l (np_sum32 l).

Lemma is_zero_dec (x : float32) : {is_zero x} + {~ is_zero x}.
Proof. destruct x; simpl; auto. Qed.

Lemma nonneg_finite_at_least (x : float32) :
  nonneg_finite x -> ~ is_zero x ->
  exists m e, x = S754_finite false m e /\ bounded prec emax m e = true
              /\ at_least m e x.
Proof.
  destruct x as [s | s | | [|] m e]; try contradiction.
  intros HB _. exists m, e. split; [ reflexivity | ]. split; [ exact HB | ].
  apply bounded_inv in HB. split; [ lia | apply le_at_refl ].
Qed.

(** The test on the sum, for pixels that are zero or positive numbers:
    whatever the order of the additions, the sum compares equal to zero
    exactly when every pixel is a zero. *)
Lemma sum_test_binary32 (l : list float32) :
  (forall x, In x l -> nonneg_finite x) ->
  f32_eqb (np_sum32 l) (f32_of_Z 0) = true <-> forall x, In x l -> is_zero x.
Proof.
  intros Hall. assert (Hs := sum_order l). split.
  - intros Heq x Hx. destruct (is_zero_dec x) as [Hz | Hnz]; [ exact Hz | ].
    exfalso.
    destruct (nonneg_finite_at_least x (Hall x Hx) Hnz) as (m & e & _ & HB & Hlow).
    assert (H : at_least m e (np_sum32 l)).
    { apply (summation_at_least m e l); auto.
      - intros y Hy. apply nonneg_finite_not_negative. now apply Hall.
      - eauto. }
    destruct (np_sum32 l) as [s | [|] | | [|] ms es]; try contradiction;
      discriminate.
  - intros Hz. assert (H := summation_zeros l _ Hs Hz).
    destruct (np_sum32 l) as [s | | |]; try contradiction. reflexivity.
Qed.

(** The path of [coverage_statistic] through the division, in binary32:
    the percentage is a positive number of at most 100. *)
Lemma coverage_statistic_binary32 (band : Grid float32) :
  rectangular band ->
  (forall x, In x (flatten band) -> nonneg_finite x) ->
  fst (shape band) * snd (shape band) <= 2 ^ 24 ->
  ~ (forall x, In x (flatten band) -> is_zero x) ->
  exists pc,
    coverage_statistic (arith := binary32_with np_sum32) band = Return pc
    /\ at_most 100 pc /\ at_least (2 ^ 23) (-47) pc.
Proof.
  intros Hrect Hall Hsize Hnz.
  rewrite (pixel_count band Hrect) in Hsize.
  (* a pixel that is not zero *)
  assert (Hex : exists y, In y (flatten band) /\ ~ is_zero y).
  { clear - Hnz. induction (flatten band) as [| a l IH].
    - exfalso. apply Hnz. intros x [].
    - destruct (is_zero_dec a) as [Ha | Ha];
        [ | exists a; split; [ now left | exact Ha ] ].
      destruct IH as (y & Hy & Hyz).
      + intros H. apply Hnz. intros x [<- | Hx]; auto.
      + exists y. split; [ now right | exact Hyz ]. }
  destruct Hex as (y & Hy & Hyz).
  (* the maximum is a pixel, and it is positive *)
  assert (Hmax : exists mM eM,
             GroundTruth.np_max (arith := binary32_with np_sum32) band
             = Return (S754_finite false mM eM)
             /\ bounded prec emax mM eM = true
             /\ In (S754_finite false mM eM) (flatten band)
             /\ forall z, In z (flatten band) ->
                          below z (S754_finite false mM eM)).
  { unfold GroundTruth.np_max. cbn [num_max binary32_with].
    destruct (flatten band) as [| x rest] eqn:Eflat; [ destruct Hy | ].
    destruct (fold_max_order rest x Hall) as [Hin Hub].
    assert (Hm : nonneg_finite (fold_left f32_max rest x)) by now apply Hall.
    assert (Hb := Hub y Hy).
    destruct (nonneg_finite_at_least y (Hall y Hy) Hyz) as (my & ey & -> & _ & _).
    destruct (fold_left f32_max rest x) as [s | s | | [|] mM eM];
      try contradiction.
    exists mM, eM. auto. }
  destruct Hmax as (mM & eM & Hmax & HBM & Hin & Hub).
  destruct (bounded_inv mM eM HBM) as (_ & HeM & _).
  unfold coverage_statistic, GroundTruth.np_sum.
  rewrite (pixel_count band Hrect), Hmax.
  cbn [num_eqb num_sum num_of_int num_max num_div num_mul binary32_with bind].
  destruct (f32_eqb (np_sum32 (flatten band)) (f32_of_Z 0)) eqn:Etest.
  { exfalso. apply Hnz. now apply sum_test_binary32. }
  change (f32_eqb (S754_finite false mM eM) (f32_of_Z 0)) with false.
  cbn [negb]. rewrite flatten_grid_map.
  set (normalized := map (fun x0 : float32 => f32_div x0 (S754_finite false mM eM))
                         (flatten band)).
  assert (Hunit : forall z, In z normalized -> at_most 1 z).
  { intros z Hz. apply in_map_iff in Hz. destruct Hz as (p & <- & Hp).
    assert (Hpb := Hub p Hp). assert (Hpn := Hall p Hp).
    destruct p as [s | s | | [|] mp ep]; try contradiction.
    - exact I.
    - apply bounded_inv in Hpn.
      apply f32_div_at_most_one; [ lia | lia | exact Hpb ]. }
  assert (Hone : In (S754_finite false (2 ^ 23) (-23)) normalized).
  { apply in_map_iff. exists (S754_finite false mM eM).
    split; [ apply f32_div_same | exact Hin ]. }
  assert (Hlen : length normalized = length (flatten band))
    by apply length_map.
  assert (Htot := sum_order normalized).
  assert (Hup : at_most (Z.of_nat (length (flatten band))) (np_sum32 normalized)).
  { rewrite <- Hlen. apply summation_at_most; auto. now rewrite Hlen. }
  assert (Hlow : at_least (2 ^ 23) (-23) (np_sum32 normalized)).
  { apply (summation_at_least _ _ normalized); auto.
    - intros z Hz. apply (at_most_not_negative 1). now apply Hunit.
    - exists (S754_finite false (2 ^ 23) (-23)). split; [ exact Hone | ].
      split; [ lia | apply le_at_refl ]. }
  set (n := Z.of_nat (length (flatten band))) in *.
  assert (Hn : 1 <= n)
    by (unfold n; destruct (flatten band); [ destruct Hy | simpl length; lia ]).
  destruct (f32_of_Z_exact n ltac:(lia)) as (MN & EN & -> & HBN & HN).
  destruct (bounded_inv MN EN HBN) as (_ & HEN & _).
  destruct (np_sum32 normalized) as [s | [|] | | [|] mt et]; try contradiction.
  destruct Hup as [Het Hup]. destruct Hlow as [_ Hlow].
  assert (Hle : le_at (-149) (Z.pos mt) et (Z.pos MN) EN)
    by (unfold le_at in *; now rewrite HN).
  assert (Hq1 := f32_div_at_most_one mt MN et EN Het ltac:(lia) Hle).
  assert (Hq2 := f32_div_at_least mt MN et EN Het ltac:(lia) Hle Hlow
                   ltac:(unfold le_at; rewrite HN;
                         apply Z.mul_le_mono_nonneg_r;
                         [ apply Z.pow_nonneg; lia | lia ])).
  eexists. split; [ reflexivity | ].
  split; [ now apply f32_mul_hundred_at_most
         | now apply f32_mul_hundred_at_least ].
Qed.

End CoverageBinary32.

Section CoverageClaims.
Import GroundTruth SatImageReader.

Lemma f32_eqb_zero (x : float32) : f32_eqb x f32_zero = true <-> is_zero x.
Proof.
  destruct x as [s | [|] | | [|] m e]; cbn; split; auto; discriminate.
Qed.

Lemma f32_ltb_zero (x : float32) :
  nonneg_finite x -> f32_ltb f32_zero x = true <-> ~ is_zero x.
Proof.
  destruct x as [s | [|] | | [|] m e]; try contradiction; intros _; cbn.
  - split; [ discriminate | intros H; now destruct H ].
  - split; auto.
Qed.

(** C2, amended.  In binary32, on a band of at most [2 ^ 24] pixels that
    are zero or positive numbers, the percentage is returned and is a
    number of [0, 100], whatever the order in which [np.sum] adds. *)
Theorem coverage_in_range :
  forall np_sum32 : list float32 -> float32,
    (forall l, summation l (np_sum32 l)) ->
    forall band : Grid float32,
      rectangular band ->
      (forall x, In x (flatten band) -> nonneg_finite x) ->
      fst (shape band) * snd (shape band) <= 2 ^ 24 ->
      exists pc q,
        coverage_statistic (arith := binary32_with np_sum32) band = Return pc
        /\ f32_value pc = Some q /\ (0 <= q <= 100)%Q.
Proof.
  intros np_sum32 Hsum band Hrect Hall Hsize.
  destruct (Forall_Exists_dec is_zero is_zero_dec (flatten band)) as [Hz | Hnz].
  - rewrite Forall_forall in Hz.
    exists f32_zero, 0%Q. split; [ | split; [ reflexivity | lra ] ].
    apply (coverage_statistic_zero_test (arith := binary32_with np_sum32)).
    now apply sum_test_binary32.
  - destruct (coverage_statistic_binary32 np_sum32 Hsum band Hrect Hall Hsize)
      as (pc & Hpc & Hup & _).
    { intros H. apply Exists_exists in Hnz. destruct Hnz as (x & Hx & Hxz).
      apply Hxz. now apply H. }
    destruct (at_most_value 100 pc Hup ltac:(lia)) as (q & Hq & Hrange).
    exists pc, q. auto.
Qed.

(** C6, as stated, fails in binary32: the pixels 16777216, 1, -16777216
    and -1 add up to zero, but the sum that [np.sum] computes is -1 (the
    first addition rounds), so that the division is reached and the
    percentage is a negative number. *)
Lemma coverage_zero_sum_counterexample :
  sums_to_zero cancelling_band
  /\ np_sum cancelling_band = f32_of_Z (-1)
  /\ coverage_statistic cancelling_band = Return (S754_finite true 13107200 (-43))
  /\ ~ (forall band : Grid float32,
          sums_to_zero band -> coverage_statistic band = Return (f32_of_Z 0)).
Proof.
  assert (H0 : sums_to_zero cancelling_band).
  { exists [inject_Z 8388608 * 2 ^ 1; inject_Z 8388608 * 2 ^ (-23);
            inject_Z (-8388608) * 2 ^ 1; inject_Z (-8388608) * 2 ^ (-23)]%Q.
    split; reflexivity. }
  split; [ exact H0 | ]. split; [ reflexivity | ].
  split; [ vm_compute; reflexivity | ].
  intros H. specialize (H cancelling_band H0). vm_compute in H. discriminate.
Qed.

(** C6, amended.  A band whose computed sum compares equal to zero gets
    exactly the number 0: the test on the sum comes first, and neither
    the maximum nor a quotient is looked at, whatever the format of the
    samples and the way [np.sum] rounds.  In binary32 the computed sum of
    a band whose pixels are all zero compares equal to zero, whatever the
    order of the additions, and among the bands whose pixels are zero or
    positive numbers it does so for no other band. *)
Theorem coverage_zero_on_zero_sum :
  (forall (F : Type) (arith : Arithmetic F) (band : Grid F),
      num_eqb (np_sum band) (num_of_int 0) = true ->
      coverage_statistic band = Return (num_of_int 0))
  /\ (forall np_sum32 : list float32 -> float32,
        (forall l, summation l (np_sum32 l)) ->
        forall band : Grid float32,
          ((forall x, In x (flatten band) -> f32_eqb x f32_zero = true) ->
           coverage_statistic (arith := binary32_with np_sum32) band
           = Return f32_zero)
          /\ ((forall x, In x (flatten band) -> nonneg_finite x) ->
              (f32_eqb (np_sum32 (flatten band)) f32_zero = true
               <-> forall x, In x (flatten band) -> f32_eqb x f32_zero = true))).
Proof.
  split.
  - intros F arith band. apply coverage_statistic_zero_test.
  - intros np_sum32 Hsum band. split.
    + intros Hz.
      apply (coverage_statistic_zero_test (arith := binary32_with np_sum32)).
      cbn [num_eqb num_of_int binary32_with]. unfold np_sum.
      cbn [num_sum binary32_with].
      assert (H := summation_zeros _ _ (Hsum (flatten band))
                     (fun x Hx => proj1 (f32_eqb_zero x) (Hz x Hx))).
      destruct (np_sum32 (flatten band)); try contradiction. reflexivity.
    + intros Hall.
      rewrite (sum_test_binary32 np_sum32 Hsum (flatten band) Hall
               : f32_eqb (np_sum32 (flatten band)) f32_zero = true <-> _).
      split; intros H x Hx; apply f32_eqb_zero; auto.
Qed.



End CoverageClaims.

(* ===================================================================== *)
(** * The class registry as a dictionary, and the plots of a class raster *)
(* ===================================================================== *)

Section DictFacts.
Context {V : Type}.

Lemma dict_find_set_same (d : dict Z V) (k : Z) (v : V) :
  dict_find Z.eqb (dict_set Z.eqb d k v) k = Some v.
Proof.
  induction d as [| [k' v'] d IH]; simpl.
  - now rewrite Z.eqb_refl.
  - destruct (Z.eqb k' k) eqn:E; simpl; rewrite E; [ reflexivity | exact IH ].
Qed.

Lemma dict_find_set_other (d : dict Z V) (k k0 : Z) (v : V) :
  k <> k0 -> dict_find Z.eqb (dict_set Z.eqb d k v) k0 = dict_find Z.eqb d k0.
Proof.
  intros Hne. induction d as [| [k' v'] d IH]; simpl.
  - destruct (Z.eqb_spec k k0); [ contradiction | reflexivity ].
  - destruct (Z.eqb_spec k' k) as [-> | Hk]; simpl.
    + destruct (Z.eqb_spec k k0); [ contradiction | reflexivity ].
    + destruct (Z.eqb k' k0); [ reflexivity | exact IH ].
Qed.
End DictFacts.

Section InvertFacts.
Import ClassesReader.

(** The loop of the comprehension, from a dictionary built so far. *)
Lemma invert_from_absent (d : dict string Z) (acc : dict Z string) (v : Z) :
  ~ In v (map snd d) ->
  dict_find Z.eqb
    (fold_left (fun acc kv => dict_set Z.eqb acc (snd kv) (fst kv)) d acc) v
  = dict_find Z.eqb acc v.
Proof.
  revert acc. induction d as [| [k0 v0] d IH]; intros acc Hv; simpl.
  - reflexivity.
  - rewrite IH by (intros H; apply Hv; now right).
    apply dict_find_set_other. intros ->. apply Hv. now left.
Qed.

Lemma invert_from_last (d1 d2 : dict string Z) (acc : dict Z string)
  (k : string) (v : Z) :
  ~ In v (map snd d2) ->
  dict_find Z.eqb
    (fold_left (fun acc kv => dict_set Z.eqb acc (snd kv) (fst kv))
       (d1 ++ (k, v) :: d2) acc) v
  = Some k.
Proof.
  intros Hv. rewrite fold_left_app. simpl.
  rewrite invert_from_absent by exact Hv.
  apply dict_find_set_same.
Qed.

Lemma NoDup_values_split (d : dict string Z) (k : string) (v : Z) :
  NoDup (map snd d) -> In (k, v) d ->
  exists d1 d2, d = d1 ++ (k, v) :: d2 /\ ~ In v (map snd d2).
Proof.
  intros Hnd Hin. apply in_split in Hin. destruct Hin as (d1 & d2 & ->).
  exists d1, d2. split; [ reflexivity | ].
  rewrite map_app in Hnd. simpl in Hnd.
  apply NoDup_remove_2 in Hnd. intros H. apply Hnd. apply in_or_app. now right.
Qed.

(** X1.  The inverse dictionary built by [{v: k for k, v in d.items()}],
    for any dictionary [d]: a value of [d] is mapped to the last key that
    holds it, a number that is no value of [d] is no key of the inverse,
    and when the values of [d] are distinct every item of [d] is found
    back from its value. *)
Theorem invert_round_trip :
  forall d : dict string Z,
    (forall d1 k v d2,
        d = d1 ++ (k, v) :: d2 -> ~ In v (map snd d2) ->
        dict_find Z.eqb (invert d) v = Some k)
    /\ (forall v, ~ In v (map snd d) -> dict_find Z.eqb (invert d) v = None)
    /\ (NoDup (map snd d) ->
        forall k v, In (k, v) d <-> dict_find Z.eqb (invert d) v = Some k).
Proof.
  intros d.
  assert (Hlast : forall d1 k v d2,
             d = d1 ++ (k, v) :: d2 -> ~ In v (map snd d2) ->
             dict_find Z.eqb (invert d) v = Some k).
  { intros d1 k v d2 -> Hv. now apply invert_from_last. }
  assert (Habs : forall v, ~ In v (map snd d) ->
                           dict_find Z.eqb (invert d) v = None).
  { intros v Hv. unfold invert. now rewrite invert_from_absent. }
  split; [ exact Hlast | ]. split; [ exact Habs | ].
  intros Hnd k v. split.
  - intros Hin. destruct (NoDup_values_split d k v Hnd Hin) as (d1 & d2 & E & Hv).
    now apply Hlast with d1 d2.
  - intros Hfind.
    destruct (in_dec Z.eq_dec v (map snd d)) as [Hin | Hout].
    + apply in_map_iff in Hin. destruct Hin as ([k' v'] & Hv' & Hin).
      simpl in Hv'. subst v'.
      destruct (NoDup_values_split d k' v Hnd Hin) as (d1 & d2 & E & Hv).
      rewrite (Hlast d1 k' v d2 E Hv) in Hfind. now injection Hfind as <-.
    + rewrite (Habs v Hout) in Hfind. discriminate.
Qed.
End InvertFacts.

Section ClassesReaderPlots.
Import ClassesReader.
Context {F : Type} {arith : Arithmetic F}.

Lemma read_cases (d : Dataset F) (i : Z) :
  1 <= i <= count d ->
  (exists g, read d i = Return g) \/ read d i = Raise RasterioIOError.
Proof.
  intros Hi. unfold read.
  replace ((1 <=? i) && (i <=? count d)) with true
    by (symmetry; apply andb_true_iff; split; apply Z.leb_le; lia).
  destruct (nth_error (bands d) (Z.to_nat (i - 1))) as [[g |] |] eqn:Hnth;
    [ left; eauto | now right | ].
  apply nth_error_None in Hnth. unfold count in Hi. lia.
Qed.

Lemma read_not_SystemExit (d : Dataset F) (i : Z) :
  read d i <> Raise SystemExit.
Proof.
  unfold read. destruct ((1 <=? i) && (i <=? count d)); [ | discriminate ].
  destruct (nth_error (bands d) (Z.to_nat (i - 1))) as [[g |] |]; discriminate.
Qed.

Lemma read_Corrupt (d : Dataset F) (i : Z) :
  read d i = Raise RasterioIOError <->
  1 <= i <= count d /\ nth_error (bands d) (Z.to_nat (i - 1)) = Some Corrupt.
Proof.
  unfold read. destruct ((1 <=? i) && (i <=? count d)) eqn:E.
  - apply andb_true_iff in E. destruct E as [E1 E2].
    apply Z.leb_le in E1. apply Z.leb_le in E2.
    destruct (nth_error (bands d) (Z.to_nat (i - 1))) as [[g |] |].
    + split; [ discriminate | intros [_ H]; discriminate ].
    + split; [ intros _; split; [ lia | reflexivity ] | reflexivity ].
    + split; [ discriminate | intros [_ H]; discriminate ].
  - split; [ discriminate | ]. intros [Hi _].
    apply andb_false_iff in E. destruct E as [E | E]; apply Z.leb_gt in E; lia.
Qed.

(** X2.  [ClassesReader.show_band] on a reader built by [__init__]: it
    raises [SystemExit] exactly when the band number is outside
    1..[bandes]; inside that range it returns what reading the band
    gives; reading never meets an index out of range. *)
Theorem classes_show_band_guard :
  forall (fs : FileSystem F) (path : string) (self : t F) (band : Z),
    init fs path = Return self ->
    (show_band self band = Raise SystemExit <-> band < 1 \/ bandes self < band)
    /\ (1 <= band <= bandes self -> show_band self band = read (image self) band)
    /\ show_band self band <> Raise IndexError.
Proof.
  intros fs path self band Hinit.
  destruct (init_fields _ _ _ Hinit) as (_ & Hb & _ & _).
  unfold show_band.
  destruct ((band <? 1) || (bandes self <? band)) eqn:E.
  - apply orb_true_iff in E.
    assert (Hout : band < 1 \/ bandes self < band)
      by (destruct E as [E | E]; apply Z.ltb_lt in E; auto).
    split; [ split; auto | ]. split; [ lia | discriminate ].
  - apply orb_false_iff in E. destruct E as [E1 E2].
    apply Z.ltb_ge in E1. apply Z.ltb_ge in E2.
    split; [ | split; [ reflexivity | ] ].
    + split; [ intros H; now apply read_not_SystemExit in H | lia ].
    + destruct (read_cases (image self) band) as [[g Hg] | Hg];
        [ lia | | ]; rewrite Hg; discriminate.
Qed.

Lemma reverse_lookup (id : Z) :
  dict_find Z.eqb (invert class_table) id = None <-> ~ (1 <= id <= 7).
Proof.
  change (invert class_table) with
    [(1, "Impervious surfaces"); (2, "Agriculture"); (3, "Forest");
     (4, "Wetlands"); (5, "Soil"); (6, "Water"); (7, "Snow")].
  cbn [dict_find].
  repeat match goal with
         | |- context [Z.eqb ?k id] =>
             destruct (Z.eqb_spec k id);
             [ split; [ discriminate | intros H; exfalso; lia ] | ]
         end.
  split; [ lia | reflexivity ].
Qed.

Lemma known_name_not_unknown (self : t F) (id : Z) :
  reverse_dict_classes self = invert class_table -> 1 <= id <= 7 ->
  name_of self id <> ("Unknown Class (" ++ str_of_int id ++ ")")%string.
Proof.
  intros Hr Hid. unfold name_of, dict_get. rewrite Hr.
  assert (Hc : id = 1 \/ id = 2 \/ id = 3 \/ id = 4 \/ id = 5 \/ id = 6 \/ id = 7)
    by lia.
  repeat (destruct Hc as [-> | Hc]; [ discriminate | ]).
  subst id. discriminate.
Qed.

Lemma append_inj_l (p a b : string) : (p ++ a = p ++ b)%string -> a = b.
Proof.
  induction p as [| c p IH]; simpl; intros H; [ exact H | ].
  injection H as H. now apply IH.
Qed.

(** X3.  [ClassesReader.show_class] on a reader built by [__init__] reads
    the band before it builds the label: a class number outside
    1..[bandes] raises [IndexError], and the label "Unknown Class (k)" is
    shown exactly when the raster has a band [k] beyond the seventh. *)
Theorem show_class_reads_first :
  forall (fs : FileSystem F) (path : string) (self : t F) (classe : Z),
    init fs path = Return self ->
    (classe < 1 \/ bandes self < classe ->
       show_class self classe = Raise IndexError)
    /\ (forall data title,
          show_class self classe = Return (data, title) ->
          read (image self) classe = Return data
          /\ 1 <= classe <= bandes self
          /\ (title = ("Classe : Unknown Class (" ++ str_of_int classe ++ ")")%string
              <-> 7 < classe)).
Proof.
  intros fs path self classe Hinit.
  destruct (init_fields _ _ _ Hinit) as (_ & Hb & _ & Hr).
  unfold show_class. split.
  - intros Hout. rewrite read_out_of_range by (rewrite <- Hb; exact Hout).
    reflexivity.
  - intros data title H.
    destruct (read (image self) classe) as [g | e] eqn:Hg; [ | discriminate ].
    cbn [bind] in H. injection H as -> <-.
    assert (Hrange := read_Return_range _ _ _ Hg). rewrite <- Hb in Hrange.
    split; [ reflexivity | ]. split; [ exact Hrange | ].
    split.
    + intros Ht. apply (append_inj_l "Classe : ") in Ht.
      destruct (Z_lt_le_dec 7 classe) as [H7 | H7]; [ exact H7 | ].
      exfalso. apply (known_name_not_unknown self classe Hr); [ lia | exact Ht ].
    + intros H7. f_equal. unfold name_of, dict_get. rewrite Hr.
      replace (dict_find Z.eqb (invert class_table) classe) with (@None string);
        [ reflexivity | ].
      symmetry. apply reverse_lookup. lia.
Qed.

Lemma show_class_loop_collect (self : t F) (class_list : list Z)
  (class_list_data : list (Grid F)) (titles : list string) :
  show_class_loop self class_list class_list_data titles
  = (shown <- collect (read (image self)) class_list ;;
     Return (class_list_data ++ shown,
             titles ++ map (fun c => ("Classe : " ++ name_of self c)%string)
                         class_list)).
Proof.
  revert class_list_data titles.
  induction class_list as [| c rest IH]; intros acc titles; simpl.
  - now rewrite !app_nil_r.
  - destruct (read (image self) c) as [g | e]; [ | reflexivity ].
    cbn [bind]. rewrite IH.
    destruct (collect (read (image self)) rest) as [gs | e]; [ | reflexivity ].
    cbn [bind]. now rewrite <- !app_assoc.
Qed.

Lemma detect_loop_reads (self : t F) (indices acc classes : list Z) :
  detect_loop self indices acc = Return classes ->
  (forall i, In i indices -> exists g, read (image self) i = Return g)
  /\ classes = acc ++ filter (band_present self) indices.
Proof.
  revert acc. induction indices as [| i rest IH]; intros acc; simpl.
  - intros H. injection H as <-. split; [ intros i [] | now rewrite app_nil_r ].
  - unfold band_present at 1.
    destruct (read (image self) i) as [g | e] eqn:Hg; [ | discriminate ].
    cbn [bind]. intros H. apply IH in H. destruct H as [Hall ->]. split.
    + intros j [<- | Hj]; [ eauto | now apply Hall ].
    + destruct (np_any g); [ now rewrite <- app_assoc | reflexivity ].
Qed.

Lemma collect_total {A B : Type} (f : A -> result B) (l : list A) :
  (forall a, In a l -> exists b, f a = Return b) ->
  exists bs, collect f l = Return bs.
Proof.
  induction l as [| a l IH]; intros H; simpl; [ eauto | ].
  destruct (H a) as [b ->]; [ now left | ].
  destruct IH as [bs ->]; [ intros x Hx; apply H; now right | ].
  simpl. eauto.
Qed.

(** X4.  [ClassesReader.show_class_list], whatever [plt.subplots] does:
    what it returns holds, for each class of the list and in the order of
    the list, the band of that number, under the title of that class;
    without a list it shows the classes that [detect_classes] finds, and
    then no read can fail once the detection has returned. *)
Theorem show_class_list_spec :
  forall (plt_subplots : nat -> result unit) (self : t F),
    (forall class_list out,
        show_class_list plt_subplots self class_list = Return out ->
        exists l,
          (class_list = Some l
           \/ (class_list = None /\ detect_classes self = Return l))
          /\ Forall2 (fun c data => read (image self) c = Return data) l (fst out)
          /\ snd out = map (fun c => ("Classe : " ++ name_of self c)%string) l)
    /\ (forall l,
          detect_classes self = Return l ->
          plt_subplots (length l) = Return tt ->
          exists out, show_class_list plt_subplots self None = Return out
                      /\ length (fst out) = length l).
Proof.
  intros plt self. split.
  - intros class_list out H. unfold show_class_list in H.
    apply bind_Return_inv in H. destruct H as (l & Hl & H).
    apply bind_Return_inv in H. destruct H as (u & _ & H).
    rewrite show_class_loop_collect in H.
    apply bind_Return_inv in H. destruct H as (shown & Hshown & H).
    injection H as <-. simpl. exists l. split; [ | split ].
    + destruct class_list as [l0 |]; [ left | right; split; auto ].
      now injection Hl as ->.
    + now apply collect_Forall2.
    + reflexivity.
  - intros l Hl Hplt. unfold show_class_list. rewrite Hl. cbn [bind].
    rewrite Hplt. cbn [bind]. rewrite show_class_loop_collect.
    unfold detect_classes in Hl. apply detect_loop_reads in Hl.
    destruct Hl as [Hall ->]. simpl app.
    destruct (collect_total (read (image self))
                (filter (band_present self) (range 1 (bandes self + 1))))
      as [shown Hshown].
    { intros c Hc. apply filter_In in Hc. apply Hall, Hc. }
    rewrite Hshown. cbn [bind]. eexists. split; [ reflexivity | ].
    simpl. now apply length_collect in Hshown.
Qed.

Lemma detect_loop_Raise (self : t F) (indices acc : list Z) (e : exn) :
  detect_loop self indices acc = Raise e ->
  exists i, In i indices /\ read (image self) i = Raise e.
Proof.
  revert acc. induction indices as [| i rest IH]; intros acc; simpl;
    [ discriminate | ].
  destruct (read (image self) i) as [g | e'] eqn:Hg; cbn [bind].
  - intros H. apply IH in H. destruct H as (j & Hj & Hr). eauto.
  - intros H. injection H as ->. eauto.
Qed.

(** X5.  [ClassesReader.detect_classes] on a reader built by [__init__]
    gives no partial answer: it raises [RasterioIOError] exactly when
    some band of the raster does not decode, it raises nothing else, and
    otherwise it returns. *)
Theorem detect_classes_damaged_band :
  forall (fs : FileSystem F) (path : string) (self : t F),
    init fs path = Return self ->
    (detect_classes self = Raise RasterioIOError
     <-> In Corrupt (bands (image self)))
    /\ (forall e, detect_classes self = Raise e -> e = RasterioIOError)
    /\ (~ In Corrupt (bands (image self)) ->
        exists classes, detect_classes self = Return classes).
Proof.
  intros fs path self Hinit.
  destruct (init_fields _ _ _ Hinit) as (_ & Hb & _ & _).
  assert (Hraise : forall e, detect_classes self = Raise e ->
                             e = RasterioIOError /\ In Corrupt (bands (image self))).
  { intros e H. apply detect_loop_Raise in H. destruct H as (i & Hi & Hr).
    apply In_range in Hi.
    destruct (read_cases (image self) i) as [[g Hg] | Hg]; [ lia | congruence | ].
    assert (e = RasterioIOError) by congruence. subst e. split; [ reflexivity | ].
    apply read_Corrupt in Hg. destruct Hg as [_ Hnth].
    now apply nth_error_In in Hnth. }
  assert (Hok : ~ In Corrupt (bands (image self)) ->
                exists classes, detect_classes self = Return classes).
  { intros Hno. eexists. unfold detect_classes. apply detect_loop_filter.
    - intros b Hin ->. contradiction.
    - intros i Hi. apply In_range in Hi. lia. }
  split; [ | split; [ intros e H; now apply Hraise in H | exact Hok ] ].
  split; [ intros H; now apply Hraise in H | ].
  intros Hin. apply In_nth_error in Hin. destruct Hin as [n Hn].
  assert (Hlen : (n < length (bands (image self)))%nat)
    by (apply nth_error_Some; congruence).
  destruct (detect_classes self) as [classes | e] eqn:Hd.
  - exfalso. unfold detect_classes in Hd. apply detect_loop_reads in Hd.
    destruct Hd as [Hall _].
    destruct (Hall (Z.of_nat n + 1)) as [g Hg].
    { apply In_range. unfold count in Hb. lia. }
    assert (Hc : read (image self) (Z.of_nat n + 1) = Raise RasterioIOError).
    { apply read_Corrupt. split; [ unfold count; lia | ].
      replace (Z.to_nat (Z.of_nat n + 1 - 1)) with n by lia. exact Hn. }
    congruence.
  - f_equal. now apply Hraise.
Qed.

End ClassesReaderPlots.

(* ===================================================================== *)
(** * More on the coverage statistic *)
(* ===================================================================== *)

Section CoverageTotal.
Import GroundTruth.
Context {F : Type} {arith : Arithmetic F}.

Lemma coverage_statistic_returns (band : Grid F) :
  num_eqb (num_sum []) (num_of_int 0) = true ->
  exists pc, coverage_statistic band = Return pc.
Proof.
  intros Hzero. unfold coverage_statistic, np_sum, np_max.
  destruct (flatten band) as [| x rest].
  - rewrite Hzero. eauto.
  - destruct (num_eqb (num_sum (x :: rest)) (num_of_int 0)); cbn [bind]; eauto.
Qed.

End CoverageTotal.

Section CoverageMore.
Import GroundTruth.

(** X6.  [coverage_statistic] returns on every band, without rounding and
    in binary32: a band without pixels sums to zero, so that the maximum
    of an empty array is never asked for. *)
Theorem coverage_statistic_never_raises :
  (forall band : Grid Q, exists pc, coverage_statistic band = Return pc)
  /\ (forall band : Grid float32, exists pc, coverage_statistic band = Return pc).
Proof.
  split; intros band; now apply coverage_statistic_returns.
Qed.

End CoverageMore.

Section CoverageOfMasks.
Import GroundTruth SatImageReader.
Variable np_sum32 : list float32 -> float32.
Hypothesis sum_order : forall l, summation l (np_sum32 l).

Lemma f32_add_integers (a b : Z) :
  1 <= a -> 1 <= b -> a + b <= 2 ^ 24 ->
  f32_add (f32_of_Z a) (f32_of_Z b) = f32_of_Z (a + b).
Proof.
  intros Ha Hb Hab.
  destruct (f32_of_Z_exact a ltac:(lia)) as (Ma & Ea & -> & HBa & HMa).
  destruct (f32_of_Z_exact b ltac:(lia)) as (Mb & Eb & -> & HBb & HMb).
  destruct (f32_of_Z_exact (a + b) ltac:(lia)) as (Mc & Ec & -> & HBc & HMc).
  destruct (bounded_inv Ma Ea HBa) as (_ & HEa & _).
  destruct (bounded_inv Mb Eb HBb) as (_ & HEb & _).
  destruct (f32_add_finite Ma Mb Ea Eb) as (p & Hp & ->).
  set (ez := Z.min Ea Eb) in *.
  apply binary_round_exact; [ exact HBc | lia | ].
  rewrite HMc, Hp, Z.mul_add_distr_r, Z.mul_add_distr_r, <- HMa, <- HMb.
  rewrite <- !Z.mul_assoc, <- !Z.pow_add_r by lia.
  do 2 f_equal; f_equal; lia.
Qed.

Lemma set_pixels_app (l1 l2 : list float32) :
  set_pixels (l1 ++ l2) = (set_pixels l1 + set_pixels l2)%nat.
Proof. unfold set_pixels. now rewrite filter_app, length_app. Qed.

Lemma set_pixels_Permutation (l l' : list float32) :
  Permutation l l' -> set_pixels l = set_pixels l'.
Proof.
  unfold set_pixels. induction 1 as [| x l l' Hp IH | x y l | l l' l'' H1 IH1 H2 IH2].
  - reflexivity.
  - cbn [filter]. destruct (negb (f32_eqb x f32_zero)); simpl; now rewrite IH.
  - cbn [filter]. destruct (negb (f32_eqb x f32_zero)),
      (negb (f32_eqb y f32_zero)); reflexivity.
  - now rewrite IH1.
Qed.

Lemma set_pixels_le (l : list float32) : (set_pixels l <= length l)%nat.
Proof. apply filter_length_le. Qed.

Lemma set_pixels_none (l : list float32) :
  set_pixels l = 0%nat <-> forall x, In x l -> is_zero x.
Proof.
  unfold set_pixels. induction l as [| a l IH]; cbn [filter].
  - split; [ intros _ x [] | reflexivity ].
  - destruct (f32_eqb a f32_zero) eqn:E; cbn [negb].
    + apply f32_eqb_zero in E. rewrite IH. split.
      * intros H x [<- | Hx]; auto.
      * intros H x Hx. apply H. now right.
    + split; [ discriminate | ]. intros H.
      assert (Ha : is_zero a) by (apply H; now left).
      apply f32_eqb_zero in Ha. congruence.
Qed.

(** The sum of zeros and ones is the number of the ones, without any
    rounding, in whatever order they are added. *)
Lemma summation_count (l : list float32) (s : float32) :
  summation l s ->
  (forall z, In z l -> is_zero z \/ z = S754_finite false (2 ^ 23) (-23)) ->
  Z.of_nat (length l) <= 2 ^ 24 ->
  if (set_pixels l =? 0)%nat then is_zero s
  else s = f32_of_Z (Z.of_nat (set_pixels l)).
Proof.
  induction 1 as [sg | x | l l1 l2 s1 s2 Hperm H1 IH1 H2 IH2];
    intros Hall Hlen.
  - exact I.
  - destruct (Hall x (or_introl eq_refl)) as [Hz | ->].
    + replace (set_pixels [x]) with 0%nat; [ exact Hz | ].
      symmetry. apply set_pixels_none. intros y [<- | []]. exact Hz.
    + reflexivity.
  - assert (Hl : length l = (length l1 + length l2)%nat)
      by (rewrite (Permutation_length Hperm); apply length_app).
    assert (Hc : set_pixels l = (set_pixels l1 + set_pixels l2)%nat)
      by (rewrite (set_pixels_Permutation _ _ Hperm); apply set_pixels_app).
    assert (Hc1 := set_pixels_le l1). assert (Hc2 := set_pixels_le l2).
    specialize (IH1 (fun z Hz => Hall z (Permutation_in _ (Permutation_sym Hperm)
                                           (in_or_app _ _ _ (or_introl Hz))))
                  ltac:(lia)).
    specialize (IH2 (fun z Hz => Hall z (Permutation_in _ (Permutation_sym Hperm)
                                           (in_or_app _ _ _ (or_intror Hz))))
                  ltac:(lia)).
    rewrite Hc.
    destruct (Nat.eqb_spec (set_pixels l1) 0) as [E1 | E1];
      destruct (Nat.eqb_spec (set_pixels l2) 0) as [E2 | E2].
    + rewrite E1, E2. cbn. now apply f32_add_zeros.
    + rewrite E1. cbn [Nat.add].
      destruct (Nat.eqb_spec (set_pixels l2) 0) as [| _]; [ contradiction | ].
      subst s2. destruct s1 as [sg | | |]; try contradiction.
      destruct (f32_of_Z_exact (Z.of_nat (set_pixels l2)) ltac:(lia))
        as (M & E & -> & _). reflexivity.
    + rewrite E2, Nat.add_0_r.
      destruct (Nat.eqb_spec (set_pixels l1) 0) as [| _]; [ contradiction | ].
      subst s1. destruct s2 as [sg | | |]; try contradiction.
      destruct (f32_of_Z_exact (Z.of_nat (set_pixels l1)) ltac:(lia))
        as (M & E & -> & _). reflexivity.
    + destruct (Nat.eqb_spec (set_pixels l1 + set_pixels l2) 0) as [| _];
        [ lia | ].
      subst s1 s2. rewrite Nat2Z.inj_add. apply f32_add_integers; lia.
Qed.








(** X8.  In binary32, on a rectangular mask of at most [2 ^ 24] pixels
    that are zero or one positive value [v], the sum of the normalized
    pixels is the number of the pixels that are set, without any
    rounding and whatever the order in which [np.sum] adds; the
    percentage is that number divided by the number of pixels and
    multiplied by 100, each operation rounding once. *)
Theorem mask_coverage_is_share :
  forall (band : Grid float32) (v : float32),
    rectangular band ->
    fst (shape band) * snd (shape band) <= 2 ^ 24 ->
    nonneg_finite v -> f32_ltb f32_zero v = true ->
    (forall x, In x (flatten band) -> f32_eqb x f32_zero = true \/ x = v) ->
    coverage_statistic (arith := binary32_with np_sum32) band
    = Return (if (count_set band =? 0)%nat then f32_zero
              else f32_mul
                     (f32_div (f32_of_Z (Z.of_nat (count_set band)))
                              (f32_of_Z (fst (shape band) * snd (shape band))))
                     (f32_of_Z 100)).
Proof.
  intros band v Hrect Hsize Hv Hvpos Hvals.
  assert (Hvz : ~ is_zero v) by (now apply f32_ltb_zero in Hvpos).
  destruct (nonneg_finite_at_least v Hv Hvz) as (mv & ev & -> & HBv & _).
  assert (Hall : forall x, In x (flatten band) -> nonneg_finite x).
  { intros x Hx. destruct (Hvals x Hx) as [Hz | ->]; [ | exact Hv ].
    apply f32_eqb_zero in Hz. now destruct x. }
  unfold count_set.
  destruct (Nat.eqb_spec (set_pixels (flatten band)) 0) as [Ec | Ec].
  - apply (coverage_statistic_zero_test (arith := binary32_with np_sum32)).
    apply (sum_test_binary32 np_sum32 sum_order _ Hall).
    now apply set_pixels_none.
  - assert (Hnz : ~ (forall x, In x (flatten band) -> is_zero x))
      by (intros H; apply Ec; now apply set_pixels_none).
    rewrite (pixel_count band Hrect) in Hsize.
    (* the maximum is [v] *)
    assert (Hmax : GroundTruth.np_max (arith := binary32_with np_sum32) band
                   = Return (S754_finite false mv ev)).
    { unfold GroundTruth.np_max. cbn [num_max binary32_with].
      destruct (flatten band) as [| x rest] eqn:Eflat.
      - exfalso. apply Hnz. intros x [].
      - destruct (fold_max_order rest x Hall) as [Hin Hub].
        f_equal. destruct (Hvals _ Hin) as [Hz | E]; [ | exact E ].
        exfalso. apply Hnz. intros y Hy. specialize (Hub y Hy).
        apply f32_eqb_zero in Hz.
        destruct (fold_left f32_max rest x) as [sg | | |]; try contradiction.
        destruct y as [sy | sy | | sy my ey]; try contradiction. exact I. }
    unfold coverage_statistic, GroundTruth.np_sum. rewrite Hmax.
    cbn [num_eqb num_sum num_of_int num_max num_div num_mul binary32_with bind].
    destruct (f32_eqb (np_sum32 (flatten band)) (f32_of_Z 0)) eqn:Etest.
    { exfalso. apply Hnz. now apply (sum_test_binary32 np_sum32 sum_order). }
    change (f32_eqb (S754_finite false mv ev) (f32_of_Z 0)) with false.
    cbn [negb]. rewrite flatten_grid_map.
    set (normalized := map (fun x : float32 => f32_div x (S754_finite false mv ev))
                           (flatten band)).
    assert (Hones : forall z, In z normalized ->
                      is_zero z \/ z = S754_finite false (2 ^ 23) (-23)).
    { intros z Hz. apply in_map_iff in Hz. destruct Hz as (p & <- & Hp).
      destruct (Hvals p Hp) as [Hpz | ->].
      - left. apply f32_eqb_zero in Hpz. destruct p; try contradiction. exact I.
      - right. apply f32_div_same. }
    assert (Hcount : set_pixels normalized = set_pixels (flatten band)).
    { unfold normalized. clear - Hvals.
      induction (flatten band) as [| a l IH]; [ reflexivity | ].
      unfold set_pixels in *. cbn [map filter].
      assert (IH' := IH (fun x Hx => Hvals x (or_intror Hx))).
      destruct (Hvals a (or_introl eq_refl)) as [Ha | ->].
      + rewrite Ha. apply f32_eqb_zero in Ha.
        destruct a as [sg | | |]; try contradiction. cbn. exact IH'.
      + rewrite f32_div_same. cbn. now rewrite IH'. }
    assert (Hsumc := summation_count normalized _ (sum_order normalized) Hones).
    rewrite Hcount in Hsumc. unfold normalized at 1 in Hsumc.
    rewrite length_map in Hsumc. specialize (Hsumc Hsize).
    destruct (Nat.eqb_spec (set_pixels (flatten band)) 0) as [| _];
      [ contradiction | ].
    rewrite Hsumc. reflexivity.
Qed.

End CoverageOfMasks.

(* ===================================================================== *)
(** * The order of strings and [sorted] *)
(* ===================================================================== *)

Section SortedFacts.

Lemma compare_not_Gt_trans (a b c : string) :
  String.compare a b <> Gt -> String.compare b c <> Gt ->
  String.compare a c <> Gt.
Proof.
  revert b c. induction a as [| x a IH]; intros [| y b] [| z c]; simpl;
    try congruence.
  unfold Ascii.compare.
  destruct (N.compare_spec (N_of_ascii x) (N_of_ascii y)) as [Exy | Lxy | Gxy];
    destruct (N.compare_spec (N_of_ascii y) (N_of_ascii z)) as [Eyz | Lyz | Gyz];
    destruct (N.compare_spec (N_of_ascii x) (N_of_ascii z)) as [Exz | Lxz | Gxz];
    try congruence; try lia.
  apply IH.
Qed.

Lemma leb_trans (a b c : string) :
  String.leb a b = true -> String.leb b c = true -> String.leb a c = true.
Proof.
  unfold String.leb. intros Hab Hbc.
  assert (H := compare_not_Gt_trans a b c).
  destruct (String.compare a b); try discriminate;
    destruct (String.compare b c); try discriminate;
    destruct (String.compare a c); try reflexivity;
    exfalso; apply H; congruence.
Qed.

Lemma StronglySorted_sorted (l : list string) :
  StronglySorted (fun x y => is_true (String.leb x y)) (sorted l).
Proof.
  apply StringSort.StronglySorted_sort. intros a b c. apply leb_trans.
Qed.

Lemma StronglySorted_unique (l l' : list string) :
  StronglySorted (fun x y => is_true (String.leb x y)) l ->
  StronglySorted (fun x y => is_true (String.leb x y)) l' ->
  Permutation l l' -> l = l'.
Proof.
  intros Hl. revert l'. induction Hl as [| a l Hl IH Ha]; intros l' Hl' Hp.
  - apply Permutation_nil in Hp. now subst.
  - destruct Hl' as [| b l' Hl' Hb].
    + apply Permutation_sym, Permutation_nil in Hp. discriminate.
    + assert (E : a = b).
      { rewrite Forall_forall in Ha, Hb.
        assert (Hina : In a (b :: l'))
          by (apply (Permutation_in _ Hp); now left).
        assert (Hinb : In b (a :: l))
          by (apply (Permutation_in _ (Permutation_sym Hp)); now left).
        destruct Hina as [-> | Hina]; [ reflexivity | ].
        destruct Hinb as [-> | Hinb]; [ reflexivity | ].
        apply String.leb_antisym; [ now apply Ha | now apply Hb ]. }
      subst b. f_equal. apply IH; [ exact Hl' | ].
      now apply Permutation_cons_inv in Hp.
Qed.

Lemma sorted_Permutation (l l' : list string) :
  Permutation l l' -> sorted l = sorted l'.
Proof.
  intros Hp. apply StronglySorted_unique; try apply StronglySorted_sorted.
  unfold sorted.
  apply Permutation_trans with l;
    [ apply Permutation_sym, StringSort.Permuted_sort | ].
  apply Permutation_trans with l'; [ exact Hp | apply StringSort.Permuted_sort ].
Qed.

Lemma Permutation_filter {A : Type} (f : A -> bool) (l l' : list A) :
  Permutation l l' -> Permutation (filter f l) (filter f l').
Proof.
  induction 1 as [| x l l' _ IH | x y l | l l' l'' _ IH1 _ IH2]; simpl.
  - constructor.
  - destruct (f x); [ now constructor | exact IH ].
  - destruct (f x), (f y); try apply Permutation_refl. constructor.
  - now apply Permutation_trans with (filter f l').
Qed.

Lemma In_sorted (l : list string) (x : string) : In x (sorted l) <-> In x l.
Proof.
  unfold sorted. split; apply Permutation_in;
    [ apply Permutation_sym | ]; apply StringSort.Permuted_sort.
Qed.

End SortedFacts.

(* ===================================================================== *)
(** * More on the evolution matrix *)
(* ===================================================================== *)

Section EvolutionMore.
Import GroundTruth.
Context {F : Type} {arith : Arithmetic F}.

Lemma collect_ext {A B : Type} (f g : A -> result B) (l : list A) :
  (forall a, In a l -> f a = g a) -> collect f l = collect g l.
Proof.
  induction l as [| a l IH]; intros H; simpl; [ reflexivity | ].
  rewrite (H a) by now left.
  rewrite IH by (intros x Hx; apply H; now right). reflexivity.
Qed.

Lemma ends_with_prepend (suffix pre s : string) :
  ends_with suffix s = true -> ends_with suffix (pre ++ s) = true.
Proof.
  intros H. induction pre as [| c pre IH]; [ exact H | ].
  change (ends_with suffix (String c (pre ++ s)) = true).
  cbn [ends_with]. rewrite IH. apply orb_true_r.
Qed.

Lemma read_firstn (src src' : Dataset F) (i : Z) :
  firstn 7 (bands src) = firstn 7 (bands src') -> 1 <= i <= 7 ->
  read src i = read src' i.
Proof.
  intros Hb Hi. unfold read, count.
  assert (Hlen := f_equal (@length _) Hb). rewrite !length_firstn in Hlen.
  assert (Hnth : nth_error (bands src) (Z.to_nat (i - 1))
                 = nth_error (bands src') (Z.to_nat (i - 1))).
  { assert (Hlt : (Z.to_nat (i - 1) <? 7)%nat = true)
      by (apply Nat.ltb_lt; lia).
    assert (H := nth_error_firstn 7 (bands src) (Z.to_nat (i - 1))).
    assert (H' := nth_error_firstn 7 (bands src') (Z.to_nat (i - 1))).
    rewrite Hlt in H, H'. rewrite <- H, <- H'. now rewrite Hb. }
  rewrite Hnth.
  replace (i <=? Z.of_nat (length (bands src)))
    with (i <=? Z.of_nat (length (bands src'))); [ reflexivity | ].
  destruct (Z.leb_spec i (Z.of_nat (length (bands src'))));
    destruct (Z.leb_spec i (Z.of_nat (length (bands src)))); try reflexivity; lia.
Qed.

(** X9.  [mask_evolution] looks at the first seven bands of a raster
    only: two file systems that list the folder alike, and whose rasters
    agree on their first seven bands (or fail to open alike), give the
    same result, rows, dates or exception. *)
Theorem eighth_band_ignored :
  forall (fs fs' : FileSystem F) (folder_path : string),
    listdir fs folder_path = listdir fs' folder_path ->
    (forall p, ends_with ".tif" p = true ->
       match open fs p, open fs' p with
       | Return src, Return src' =>
           firstn 7 (bands src) = firstn 7 (bands src')
       | Raise e, Raise e' => e = e'
       | _, _ => False
       end) ->
    mask_evolution fs folder_path = mask_evolution fs' folder_path.
Proof.
  intros fs fs' folder_path Hls Hopen.
  rewrite !mask_evolution_collect, <- Hls.
  destruct (listdir fs folder_path) as [names | e]; [ | reflexivity ].
  cbn [bind].
  rewrite (collect_ext (file_row fs) (file_row fs')); [ reflexivity | ].
  intros p Hp. unfold tif_files in Hp. apply -> In_sorted in Hp.
  apply in_map_iff in Hp. destruct Hp as (f & <- & Hf).
  apply filter_In in Hf. destruct Hf as [_ Hf].
  assert (Htif : ends_with ".tif" (os_path_join folder_path f) = true).
  { unfold os_path_join.
    destruct (starts_with "/" f); [ exact Hf | ].
    destruct (String.eqb folder_path "" || ends_with "/" folder_path).
    - now apply ends_with_prepend.
    - apply ends_with_prepend. now apply (ends_with_prepend ".tif" "/"). }
  specialize (Hopen _ Htif). unfold file_row.
  destruct (open fs (os_path_join folder_path f)) as [src | e];
    destruct (open fs' (os_path_join folder_path f)) as [src' | e'];
    try contradiction; [ | now subst ].
  cbn [bind]. apply collect_ext. intros i Hi. apply In_range in Hi.
  unfold band_value. rewrite (read_firstn src src' i Hopen); [ reflexivity | lia ].
Qed.

(** X10.  The result of [mask_evolution] depends on the [.tif] names of
    the folder only, not on the order in which the folder is listed nor
    on its other entries: the paths are filtered and sorted before
    anything is read. *)
Theorem listing_order_irrelevant :
  forall (fs fs' : FileSystem F) (folder_path : string) (names names' : list string),
    listdir fs folder_path = Return names ->
    listdir fs' folder_path = Return names' ->
    Permutation (filter (ends_with ".tif") names)
                (filter (ends_with ".tif") names') ->
    (forall p, open fs p = open fs' p) ->
    mask_evolution fs folder_path = mask_evolution fs' folder_path.
Proof.
  intros fs fs' folder_path names names' Hls Hls' Hp Hopen.
  rewrite !mask_evolution_collect, Hls, Hls'. cbn [bind].
  assert (E : tif_files folder_path names = tif_files folder_path names').
  { unfold tif_files. apply sorted_Permutation. now apply Permutation_map. }
  rewrite E.
  rewrite (collect_ext (file_row fs) (file_row fs')); [ reflexivity | ].
  intros p _. unfold file_row. now rewrite Hopen.
Qed.

Section WithEmptySum.
(** The sum of no item compares equal to 0, as it does without rounding
    and in binary32. *)
Hypothesis empty_sum : num_eqb (num_sum []) (num_of_int 0) = true.

Lemma band_value_cases (src : Dataset F) (i : Z) :
  all_readable src ->
  (1 <= i <= count src -> exists v, band_value src i = Return v)
  /\ (i < 1 \/ count src < i -> band_value src i = Raise IndexError).
Proof.
  intros Hr. unfold band_value. split.
  - intros Hi. destruct (read_in_range src i Hr Hi) as [g ->]. cbn [bind].
    now apply coverage_statistic_returns.
  - intros Hi. now rewrite read_out_of_range.
Qed.

Lemma file_row_cases (fs : FileSystem F) (p : string) (src : Dataset F) :
  open fs p = Return src -> all_readable src ->
  (7 <= count src -> exists row, file_row fs p = Return row)
  /\ (count src < 7 -> file_row fs p = Raise IndexError).
Proof.
  intros Hopen Hr. unfold file_row. rewrite Hopen. cbn [bind]. split.
  - intros Hc. apply collect_total. intros i Hi. apply In_range in Hi.
    apply band_value_cases; [ exact Hr | lia ].
  - intros Hc.
    destruct (collect_Raise_member (band_value src) (range 1 8) 7 IndexError)
      as (i & e & Hi & Hfail & ->).
    + apply In_range. lia.
    + apply band_value_cases; [ exact Hr | lia ].
    + f_equal. apply In_range in Hi.
      destruct (Z_le_gt_dec i (count src)) as [Hle | Hgt].
      * destruct (proj1 (band_value_cases src i Hr)) as [v Hv]; [ lia | ].
        congruence.
      * rewrite (proj2 (band_value_cases src i Hr)) in Hfail by lia.
        congruence.
Qed.

(** X11.  When every [.tif] file of a folder opens and all its bands
    decode, [mask_evolution] depends on the band counts alone: it returns
    when every raster has at least seven bands, and raises [IndexError],
    giving no matrix, as soon as one raster has fewer. *)
Theorem seven_bands_needed :
  forall (fs : FileSystem F) (folder_path : string) (names : list string),
    listdir fs folder_path = Return names ->
    (forall p, In p (tif_files folder_path names) ->
       exists src, open fs p = Return src /\ all_readable src) ->
    ((forall p src, In p (tif_files folder_path names) ->
        open fs p = Return src -> 7 <= count src) ->
     exists evol_matrix dates,
       mask_evolution fs folder_path = Return (evol_matrix, dates))
    /\ ((exists p src, In p (tif_files folder_path names)
           /\ open fs p = Return src /\ count src < 7) ->
        mask_evolution fs folder_path = Raise IndexError).
Proof.
  intros fs folder_path names Hls Hopen.
  rewrite mask_evolution_collect, Hls. cbn [bind]. split.
  - intros Hseven.
    destruct (collect_total (file_row fs) (tif_files folder_path names))
      as [rows ->]; [ | cbn [bind]; eauto ].
    intros p Hp. destruct (Hopen p Hp) as (src & Hsrc & Hr).
    apply (file_row_cases fs p src Hsrc Hr). now apply Hseven with p.
  - intros (p & src & Hp & Hsrc & Hc).
    assert (Hfail : file_row fs p = Raise IndexError).
    { destruct (Hopen p Hp) as (src' & Hsrc' & Hr).
      assert (src' = src) by congruence. subst src'.
      now apply (file_row_cases fs p src Hsrc Hr). }
    destruct (collect_Raise_member (file_row fs) _ p IndexError Hp Hfail)
      as (p' & e & Hp' & Hfail' & ->).
    cbn [bind]. f_equal.
    destruct (Hopen p' Hp') as (src' & Hsrc' & Hr').
    destruct (Z_le_gt_dec 7 (count src')) as [Hle | Hgt].
    + destruct (proj1 (file_row_cases fs p' src' Hsrc' Hr') Hle) as [row Hrow].
      congruence.
    + rewrite (proj2 (file_row_cases fs p' src' Hsrc' Hr')) in Hfail' by lia.
      congruence.
Qed.
End WithEmptySum.

Lemma filter_length_all {A : Type} (f : A -> bool) (l : list A) :
  length (filter f l) = length l <-> forall x, In x l -> f x = true.
Proof.
  induction l as [| a l IH]; simpl.
  - split; [ intros _ x [] | reflexivity ].
  - assert (Hle := filter_length_le f l).
    destruct (f a) eqn:E; simpl; split.
    + intros H x [<- | Hx]; [ exact E | ]. apply IH; [ lia | exact Hx ].
    + intros H. f_equal. apply IH. intros x Hx. apply H. now right.
    + intros H. lia.
    + intros H. specialize (H a (or_introl eq_refl)). congruence.
Qed.

Lemma mask_evolution_lengths (fs : FileSystem F) (folder_path : string)
  (names : list string) (evol_matrix : Matrix F) (dates : list string) :
  listdir fs folder_path = Return names ->
  mask_evolution fs folder_path = Return (evol_matrix, dates) ->
  length evol_matrix = length (tif_files folder_path names)
  /\ dates = dates_of (tif_files folder_path names).
Proof.
  intros Hls H.
  rewrite mask_evolution_collect, Hls in H. cbn [bind] in H.
  destruct (collect (file_row fs) (tif_files folder_path names))
    as [rows |] eqn:Hrows; [ | discriminate ].
  cbn [bind] in H. injection H as <- <-.
  apply length_collect in Hrows. now rewrite length_map.
Qed.

Lemma dates_of_length (paths : list string) :
  (length (dates_of paths) = length paths
   <-> forall p, In p paths -> date_label (os_path_basename p) <> None)
  /\ (length (dates_of paths) <= length paths)%nat.
Proof.
  rewrite length_dates_of. split; [ | apply filter_length_le ].
  rewrite filter_length_all. split; intros H p Hp; specialize (H p Hp);
    now destruct (date_label (os_path_basename p)).
Qed.

(** X12.  In the result of [mask_evolution] the dates line up with the
    rows exactly when every [.tif] file of the folder has a date in its
    name; otherwise there are fewer dates than rows. *)
Theorem dates_line_up_iff :
  forall (fs : FileSystem F) (folder_path : string) (names : list string)
         (evol_matrix : Matrix F) (dates : list string),
    listdir fs folder_path = Return names ->
    mask_evolution fs folder_path = Return (evol_matrix, dates) ->
    (length dates = length evol_matrix
     <-> forall p, In p (tif_files folder_path names) ->
           date_label (os_path_basename p) <> None)
    /\ (length dates <> length evol_matrix ->
        (length dates < length evol_matrix)%nat).
Proof.
  intros fs folder_path names evol_matrix dates Hls H.
  destruct (mask_evolution_lengths _ _ _ _ _ Hls H) as [-> ->].
  destruct (dates_of_length (tif_files folder_path names)) as [Hiff Hle].
  split; [ exact Hiff | lia ].
Qed.

Section PersistenceFacts.
Variable pd_DataFrame :
  Matrix F -> list string -> list string -> result (DataFrame F).
Variable to_csv : DataFrame F -> string -> result unit.
Variable show_mask_evol : Matrix F -> list string -> string -> result unit.

(** The table library refuses row labels that do not fit the rows. *)
Hypothesis labels_fit :
  forall data columns index,
    length index <> length data ->
    pd_DataFrame data columns index = Raise ValueError.

(** X26.  With a table library that refuses row labels that do not fit
    the rows, a single [.tif] file without a date in its name loses the
    whole folder: [mask_evolution] returns, but [store_mask_evol] raises
    [ValueError] before anything is written, and [main] reports the
    folder as failed and goes on. *)
Theorem undated_file_fails_folder :
  forall (fs : FileSystem F) (folder_path : string) (names : list string)
         (evol_matrix : Matrix F) (dates : list string) (rest : list string),
    listdir fs folder_path = Return names ->
    mask_evolution fs folder_path = Return (evol_matrix, dates) ->
    (exists p, In p (tif_files folder_path names)
               /\ date_label (os_path_basename p) = None) ->
    (forall folder_name,
        store_mask_evol pd_DataFrame to_csv evol_matrix dates folder_name
        = Raise ValueError)
    /\ main (store_mask_evol pd_DataFrame to_csv) show_mask_evol fs
         (folder_path :: rest)
       = (fst (main (store_mask_evol pd_DataFrame to_csv) show_mask_evol fs rest),
          ProcessingFolder folder_path :: FolderError folder_path ValueError
            :: snd (main (store_mask_evol pd_DataFrame to_csv) show_mask_evol
                      fs rest)).
Proof.
  intros fs folder_path names evol_matrix dates rest Hls Hm (p & Hp & Hnone).
  assert (Hlen : length dates <> length evol_matrix).
  { destruct (mask_evolution_lengths _ _ _ _ _ Hls Hm) as [-> ->].
    destruct (dates_of_length (tif_files folder_path names)) as [Hiff _].
    intros E. exact (proj1 Hiff E p Hp Hnone). }
  assert (Hstore : forall folder_name,
             store_mask_evol pd_DataFrame to_csv evol_matrix dates folder_name
             = Raise ValueError).
  { intros folder_name. unfold store_mask_evol.
    now rewrite labels_fit by exact Hlen. }
  split; [ exact Hstore | ].
  cbn [main]. unfold try_folder. rewrite Hm, Hstore. cbn [is_Exception].
  now destruct (main (store_mask_evol pd_DataFrame to_csv) show_mask_evol fs rest).
Qed.
End PersistenceFacts.

Section MainMore.
Variable store_mask_evol : Matrix F -> list string -> string -> result unit.
Variable show_mask_evol : Matrix F -> list string -> string -> result unit.


End MainMore.

End EvolutionMore.

(* ===================================================================== *)
(** * More on the date label *)
(* ===================================================================== *)

Section DateMore.
Import GroundTruth.
Local Open Scope string_scope.

Lemma replace_char_app (old new : ascii) (a b : string) :
  replace_char old new (a ++ b)
  = replace_char old new a ++ replace_char old new b.
Proof. induction a as [| c a IH]; simpl; [ reflexivity | now rewrite IH ]. Qed.

Lemma of_byte_not_underscore (b : Z) :
  0 <= b < 256 -> b <> 95 -> Ascii.eqb (of_byte b) "_" = false.
Proof.
  intros Hb Hne. destruct (Ascii.eqb_spec (of_byte b) "_") as [E | _];
    [ | reflexivity ].
  apply (f_equal byte_of) in E. rewrite byte_of_of in E by exact Hb.
  now subst b.
Qed.

Lemma replace_digit (cp : Z) :
  scalar_value cp -> is_digit cp = true ->
  replace_char "_" "-" (utf8_encode cp) = utf8_encode cp.
Proof.
  intros Hs Hd. unfold scalar_value in Hs. unfold utf8_encode.
  destruct (Z.ltb_spec cp 128) as [L1 | L1].
  { cbn [replace_char]. rewrite of_byte_not_underscore; [ reflexivity | lia | ].
    assert (H : 48 <= cp <= 57) by (apply is_digit_ascii; [ lia | exact Hd ]).
    lia. }
  destruct (Z.ltb_spec cp 2048); [ | destruct (Z.ltb_spec cp 65536) ];
    cbn [replace_char];
    rewrite !of_byte_not_underscore
      by (Z.div_mod_to_equations; lia);
    reflexivity.
Qed.

Lemma character_replace (k : cclass) (bytes : string) :
  character k bytes ->
  character k (replace_char "_" "-" bytes)
  /\ (k = Digit -> replace_char "_" "-" bytes = bytes)
  /\ (k = DashOrUnderscore -> replace_char "_" "-" bytes = "-").
Proof.
  destruct k; simpl.
  - intros (cp & Hs & Hd & ->). rewrite replace_digit by assumption.
    split; [ exists cp; auto | ]. split; [ reflexivity | discriminate ].
  - intros [-> | ->]; simpl; (split; [ auto | split; [ discriminate | auto ] ]).
Qed.

Lemma matches_replace (p : list cclass) (m : string) :
  matches p m -> matches p (replace_char "_" "-" m).
Proof.
  revert m. induction p as [| k p IH]; intros m; simpl.
  - intros ->. reflexivity.
  - intros (bytes & m' & -> & Hc & Hm). rewrite replace_char_app.
    exists (replace_char "_" "-" bytes), (replace_char "_" "-" m').
    split; [ reflexivity | ]. split; [ now apply character_replace | auto ].
Qed.

Lemma digits_replace (n : nat) (m : string) :
  matches (repeat Digit n) m -> replace_char "_" "-" m = m.
Proof.
  revert m. induction n as [| n IH]; intros m; simpl.
  - intros ->. reflexivity.
  - intros (bytes & m' & -> & Hc & Hm). rewrite replace_char_app.
    rewrite (IH m' Hm).
    now rewrite (proj1 (proj2 (character_replace Digit bytes Hc)) eq_refl).
Qed.

Lemma matches_app (p1 p2 : list cclass) (m : string) :
  matches (p1 ++ p2)%list m
  <-> exists m1 m2, m = m1 ++ m2 /\ matches p1 m1 /\ matches p2 m2.
Proof.
  revert m. induction p1 as [| k p1 IH]; intros m; simpl.
  - split.
    + intros H. exists "", m. auto.
    + intros (m1 & m2 & -> & -> & H). exact H.
  - split.
    + intros (bytes & m' & -> & Hc & Hm). apply IH in Hm.
      destruct Hm as (m1 & m2 & -> & H1 & H2).
      exists (bytes ++ m1), m2. split; [ now rewrite append_assoc | ].
      split; [ exists bytes, m1; auto | exact H2 ].
    + intros (m1 & m2 & -> & (bytes & m' & -> & Hc & Hm) & H2).
      exists bytes, (m' ++ m2). split; [ now rewrite append_assoc | ].
      split; [ exact Hc | ]. apply IH. eauto.
Qed.

Lemma match_here_re_search (p : list cclass) (s m : string) :
  match_here p s = Some m -> re_search p s = Some m.
Proof. intros H. destruct s; cbn [re_search]; now rewrite H. Qed.

Lemma replace_char_twice (s : string) :
  replace_char "_" "-" (replace_char "_" "-" s) = replace_char "_" "-" s.
Proof.
  induction s as [| c s IH]; simpl; [ reflexivity | ]. rewrite IH. f_equal.
  destruct (Ascii.eqb_spec c "_") as [-> | Hc]; [ reflexivity | ].
  destruct (Ascii.eqb_spec c "_"); [ contradiction | reflexivity ].
Qed.

Lemma replace_char_removes (s : string) (c : ascii) :
  In c (list_ascii_of_string (replace_char "_" "-" s)) -> c <> "_"%char.
Proof.
  induction s as [| x s IH]; simpl; [ intros [] | ].
  intros [<- | H]; [ | now apply IH ].
  destruct (Ascii.eqb_spec x "_") as [-> | Hx]; [ discriminate | exact Hx ].
Qed.

Lemma append_nil_r (s : string) : s ++ "" = s.
Proof. induction s as [| c s IH]; simpl; [ reflexivity | now rewrite IH ]. Qed.

(** X14.  A date label is a date: whatever the file name, the label that
    [date_label] finds is made of four digits, ['-'], two digits, ['-']
    and two digits, has no ['_'] left, and is its own date label. *)
Theorem date_label_is_a_date :
  forall filename d,
    date_label filename = Some d ->
    (exists year month day,
        d = year ++ "-" ++ month ++ "-" ++ day
        /\ matches [Digit; Digit; Digit; Digit] year
        /\ matches [Digit; Digit] month
        /\ matches [Digit; Digit] day)
    /\ (forall c, In c (list_ascii_of_string d) -> c <> "_"%char)
    /\ date_label d = Some d.
Proof.
  intros filename d. unfold date_label.
  assert (H := re_search_spec date_pattern filename).
  destruct (re_search date_pattern filename) as [m |]; [ | discriminate ].
  destruct H as (pre & post & _ & Hm & _).
  intros E. injection E as <-.
  split; [ | split ].
  - change date_pattern
      with (repeat Digit 4 ++ [DashOrUnderscore] ++ repeat Digit 2
            ++ [DashOrUnderscore] ++ repeat Digit 2)%list in Hm.
    apply matches_app in Hm. destruct Hm as (year & r1 & -> & Hy & Hm).
    apply matches_app in Hm. destruct Hm as (s1 & r2 & -> & Hs1 & Hm).
    apply matches_app in Hm. destruct Hm as (month & r3 & -> & Hmo & Hm).
    apply matches_app in Hm. destruct Hm as (s2 & day & -> & Hs2 & Hd).
    destruct Hs1 as (b1 & e1 & -> & Hb1 & ->).
    destruct Hs2 as (b2 & e2 & -> & Hb2 & ->).
    rewrite !replace_char_app, !append_nil_r.
    rewrite (digits_replace 4 year Hy), (digits_replace 2 month Hmo),
      (digits_replace 2 day Hd).
    rewrite (proj2 (proj2 (character_replace _ b1 Hb1)) eq_refl).
    rewrite (proj2 (proj2 (character_replace _ b2 Hb2)) eq_refl).
    exists year, month, day. auto.
  - apply replace_char_removes.
  - assert (Hd : match_here date_pattern (replace_char "_" "-" m)
                 = Some (replace_char "_" "-" m)).
    { apply match_here_spec. exists "". split; [ now rewrite append_nil_r | ].
      now apply matches_replace. }
    rewrite (match_here_re_search _ _ _ Hd). now rewrite replace_char_twice.
Qed.

End DateMore.

(* ===================================================================== *)
(** * More on the satellite image reader *)
(* ===================================================================== *)

Section SatImageReaderMore.
Import SatImageReader.

Lemma sat_init_fields (fs : FileSystem float32) (path : string) (self : t) :
  init fs path = Return self ->
  open fs path = Return (image self) /\ bandes self = count (image self).
Proof.
  unfold init. destruct (open fs path) as [img | e]; simpl.
  - intros H. injection H as <-. simpl. auto.
  - destruct (is_RasterioIOError e); discriminate.
Qed.

Lemma Forall2_grid_map {A B : Type} (f : A -> B) (g : Grid A) :
  Forall2 (Forall2 (fun a b => b = f a)) g (grid_map f g).
Proof.
  unfold grid_map. induction g as [| row g IH]; simpl; constructor; auto.
  induction row as [| a row IHr]; simpl; constructor; auto.
Qed.

Lemma In_flatten_grid_map {A B : Type} (f : A -> B) (g : Grid A) (b : B) :
  In b (flatten (grid_map f g)) -> exists a, In a (flatten g) /\ b = f a.
Proof.
  rewrite flatten_grid_map, in_map_iff. intros (a & <- & Ha). eauto.
Qed.

(** X15.  With a threshold, what [show_ndvi] displays is a mask of the
    shape of the NDVI, holding 1 where the NDVI is greater than the
    threshold and 0 elsewhere, and nothing but 0 and 1; against a NaN
    threshold the mask is 0 everywhere. *)
Theorem thresholded_ndvi_is_binary :
  forall (self : t) (red_band_index nir_band_index : Z) (threshold : float32)
         (out : Grid float32 + Grid Z),
    show_ndvi self red_band_index nir_band_index (Some threshold) = Return out ->
    exists ndvi mask,
      calculate_ndvi self red_band_index nir_band_index = Return (Some ndvi)
      /\ out = inr mask
      /\ Forall2 (Forall2 (fun v b => b = if f32_ltb threshold v then 1 else 0))
           ndvi mask
      /\ (forall b, In b (flatten mask) -> b = 0 \/ b = 1)
      /\ (threshold = S754_nan -> forall b, In b (flatten mask) -> b = 0).
Proof.
  intros self r n th out H. unfold show_ndvi in H.
  destruct (calculate_ndvi self r n) as [[ndvi |] | e]; try discriminate.
  cbn [bind] in H. injection H as <-.
  exists ndvi, (np_where_gt ndvi th).
  split; [ reflexivity | ]. split; [ reflexivity | ].
  split; [ apply Forall2_grid_map | ]. split.
  - intros b Hb. apply In_flatten_grid_map in Hb. destruct Hb as (v & _ & ->).
    destruct (f32_ltb th v); auto.
  - intros -> b Hb. apply In_flatten_grid_map in Hb.
    destruct Hb as (v & _ & ->). reflexivity.
Qed.

Lemma sat_read_cases (d : Dataset float32) (i : Z) :
  1 <= i <= count d ->
  (exists g, read d i = Return g) \/ read d i = Raise RasterioIOError.
Proof. apply read_cases. Qed.

(** X16.  On a reader built by [__init__] and band numbers from 1 on,
    [calculate_ndvi] raises nothing: it returns [None] exactly when a
    band number exceeds the band count or one of the two bands does not
    decode, and the grid otherwise. *)
Theorem calculate_ndvi_none_iff :
  forall (fs : FileSystem float32) (path : string) (self : t)
         (red_band_index nir_band_index : Z),
    init fs path = Return self ->
    1 <= red_band_index -> 1 <= nir_band_index ->
    (exists r, calculate_ndvi self red_band_index nir_band_index = Return r)
    /\ (calculate_ndvi self red_band_index nir_band_index = Return None
        <-> bandes self < Z.max red_band_index nir_band_index
            \/ read (image self) red_band_index = Raise RasterioIOError
            \/ read (image self) nir_band_index = Raise RasterioIOError).
Proof.
  intros fs path self ri ni Hinit Hr Hn.
  destruct (sat_init_fields _ _ _ Hinit) as [_ Hb].
  unfold calculate_ndvi.
  destruct (Z.ltb_spec (bandes self) (Z.max ri ni)) as [Hlt | Hge].
  - split; [ eauto | ]. split; auto.
  - destruct (sat_read_cases (image self) ri) as [[red Hred] | Hred]; [ lia | | ];
      destruct (sat_read_cases (image self) ni) as [[nir Hnir] | Hnir];
      try lia; rewrite Hred; cbn [bind try_except is_RasterioIOError];
      try rewrite Hnir; cbn [bind try_except is_RasterioIOError].
    + split; [ eauto | ]. split; [ discriminate | ].
      intros [H | [H | H]]; [ lia | discriminate | discriminate ].
    + split; [ eauto | ]. split; auto.
    + split; [ eauto | ]. split; auto.
    + split; [ eauto | ]. split; auto.
Qed.

(** X17.  [calculate_ndvi] checks the band numbers against the band
    count only: a band number below 1 that passes this check is not
    answered by [None], it raises [IndexError], in [calculate_ndvi] and
    in [show_ndvi]. *)
Theorem calculate_ndvi_index_below_one :
  forall (self : t) (red_band_index nir_band_index : Z)
         (threshold : option float32),
    Z.max red_band_index nir_band_index <= bandes self ->
    red_band_index < 1
    \/ (nir_band_index < 1
        /\ exists red, read (image self) red_band_index = Return red) ->
    calculate_ndvi self red_band_index nir_band_index = Raise IndexError
    /\ show_ndvi self red_band_index nir_band_index threshold = Raise IndexError.
Proof.
  intros self ri ni th Hmax Hlow.
  assert (E : calculate_ndvi self ri ni = Raise IndexError).
  { unfold calculate_ndvi.
    replace (bandes self <? Z.max ri ni) with false
      by (symmetry; apply Z.ltb_ge; lia).
    destruct Hlow as [Hr | [Hn [red Hred]]].
    - rewrite read_out_of_range by auto. reflexivity.
    - rewrite Hred. cbn [bind]. rewrite read_out_of_range by auto. reflexivity. }
  split; [ exact E | ]. unfold show_ndvi. now rewrite E.
Qed.

Lemma zip_with_shape {A B C : Type} (f : A -> B -> C) (l1 : list A) (l2 : list B) :
  length l1 = length l2 -> length (zip_with f l1 l2) = length l1.
Proof.
  revert l2. induction l1 as [| a l1 IH]; intros [| b l2]; simpl;
    try discriminate; auto.
Qed.

Lemma grid_map2_shape {A B C : Type} (f : B -> A -> C) (g1 : Grid A) (g2 : Grid B) :
  Forall2 (fun r1 r2 => length r1 = length r2) g1 g2 ->
  Forall2 (fun r1 r => length r = length r1) g1 (grid_map2 f g2 g1).
Proof.
  unfold grid_map2. induction 1 as [| r1 r2 g1 g2 Hr _ IH]; simpl; constructor.
  - rewrite zip_with_shape; congruence.
  - exact IH.
Qed.

(** X18.  The NDVI has the shape of the bands: on a red and a
    near-infrared band of one shape, [calculate_ndvi] returns a grid with
    as many rows, each as long as the row of the bands at its place. *)
Theorem ndvi_keeps_shape :
  forall (self : t) (red_band_index nir_band_index : Z) (red nir : Grid float32),
    bandes self = count (image self) ->
    read (image self) red_band_index = Return red ->
    read (image self) nir_band_index = Return nir ->
    Forall2 (fun r n => length r = length n) red nir ->
    exists ndvi,
      calculate_ndvi self red_band_index nir_band_index = Return (Some ndvi)
      /\ length ndvi = length red
      /\ Forall2 (fun r v => length v = length r) red ndvi.
Proof.
  intros self ri ni red nir Hb Hred Hnir Hshape.
  eexists. split; [ exact (calculate_ndvi_readable _ _ _ _ _ Hb Hred Hnir) | ].
  assert (H := grid_map2_shape (fun n r => ndvi_pixel r n) red nir Hshape).
  split; [ symmetry; exact (Forall2_length H) | exact H ].
Qed.

Lemma renormalize_not_nan (s : bool) (m e : Z) :
  0 <= m -> renormalize s m e <> S754_nan.
Proof.
  intros Hm. unfold renormalize.
  set (k := Z.max 0 (fexp32 (Zdigits2 m + e) - e)).
  assert (Hq : 0 <= m / 2 ^ k)
    by (apply Z.div_pos; [ exact Hm | apply Z.pow_pos_nonneg; lia ]).
  destruct (m / 2 ^ k) as [| p | p]; [ discriminate | | lia ].
  destruct (e + k <=? 104); discriminate.
Qed.

Lemma binary_round_not_nan (s : bool) (mx : positive) (ex : Z) :
  binary_round prec emax s mx ex <> S754_nan.
Proof.
  destruct (binary_round_spec s mx ex) as (m2 & Hlo & _ & ->).
  apply renormalize_not_nan.
  eapply Z.le_trans; [ | exact Hlo ].
  apply Z.div_pos; [ | apply Z.pow_pos_nonneg; unfold fexp32; lia ].
  apply Z.mul_nonneg_nonneg; [ lia | ].
  apply Z.pow_nonneg. lia.
Qed.

Lemma binary_normalize_not_nan (m e : Z) (szero : bool) :
  binary_normalize prec emax m e szero <> S754_nan.
Proof.
  destruct m; simpl; [ discriminate | | ]; apply binary_round_not_nan.
Qed.

Lemma ndvi_pixel_same (x : float32) :
  is_finite x = true -> exists s, ndvi_pixel x x = S754_zero s.
Proof.
  destruct x as [s | s | | s m e]; try discriminate; intros _.
  - destruct s; eexists; reflexivity.
  - unfold ndvi_pixel, f32_sub, f32_add, SFsub, SFadd.
    rewrite Z.sub_diag.
    set (d := binary_normalize prec emax _ _ _).
    assert (Hd : d <> S754_nan) by apply binary_normalize_not_nan.
    change (binary_normalize prec emax 0 (Z.min e e) false) with (S754_zero false).
    destruct d as [sd | sd | | sd md ed]; [ | | contradiction | ].
    + exists false. reflexivity.
    + destruct sd; eexists; reflexivity.
    + destruct sd; eexists; reflexivity.
Qed.

(** X19.  The NDVI of a band against itself is zero: when one band
    number is given as red and as near-infrared and the samples of that
    band are finite, every pixel of the grid that [calculate_ndvi]
    returns is a zero, whatever the sign and the size of the samples. *)
Theorem ndvi_of_same_band_is_zero :
  forall (self : t) (band_index : Z) (band : Grid float32),
    bandes self = count (image self) ->
    read (image self) band_index = Return band ->
    (forall x, In x (flatten band) -> is_finite x = true) ->
    exists ndvi,
      calculate_ndvi self band_index band_index = Return (Some ndvi)
      /\ length (flatten ndvi) = length (flatten band)
      /\ forall v, In v (flatten ndvi) -> exists s, v = S754_zero s.
Proof.
  intros self i band Hb Hread Hfin.
  eexists. split; [ exact (calculate_ndvi_readable _ _ _ _ _ Hb Hread Hread) | ].
  assert (E : grid_map2 (fun n r => ndvi_pixel r n) band band
              = grid_map (fun x => ndvi_pixel x x) band).
  { unfold grid_map2, grid_map. clear.
    induction band as [| row band IH]; simpl; [ reflexivity | ].
    rewrite IH. f_equal.
    induction row as [| x row IHr]; simpl; [ reflexivity | now rewrite IHr ]. }
  rewrite E, flatten_grid_map. split; [ apply length_map | ].
  intros v Hv. apply in_map_iff in Hv. destruct Hv as (x & <- & Hx).
  apply ndvi_pixel_same. now apply Hfin.
Qed.

Lemma np_min_Raise (data : Grid float32) (e : exn) :
  np_min data = Raise e -> e = ValueError.
Proof.
  unfold np_min. destruct (flatten data); [ | discriminate ].
  intros H. now injection H as <-.
Qed.

Lemma np_max_Raise (data : Grid float32) (e : exn) :
  np_max data = Raise e -> e = ValueError.
Proof.
  unfold np_max. destruct (flatten data); [ | discriminate ].
  intros H. now injection H as <-.
Qed.









(** X21.  [show_rgb] lets nothing but [SystemExit] out: with fewer than
    three bands it raises it before any read, and a band number out of
    range, a band that does not decode or a band without pixels end in
    it as well; it returns only when the three bands were read. *)
Theorem show_rgb_exits :
  forall (self : t) (bands_rgb : Z * Z * Z),
    (forall e, show_rgb self bands_rgb = Raise e -> e = SystemExit)
    /\ (bandes self < 3 -> show_rgb self bands_rgb = Raise SystemExit)
    /\ (forall rgb_image,
          show_rgb self bands_rgb = Return rgb_image ->
          3 <= bandes self
          /\ exists red green blue,
               read (image self) (fst (fst bands_rgb)) = Return red
               /\ read (image self) (snd (fst bands_rgb)) = Return green
               /\ read (image self) (snd bands_rgb) = Return blue).
Proof.
  intros self bands_rgb. unfold show_rgb.
  destruct (Z.ltb_spec (bandes self) 3) as [Hlt | Hge].
  - split; [ intros e H; now injection H as <- | ].
    split; [ reflexivity | discriminate ].
  - match goal with
    | |- context [try_except ?c _ _] => destruct c as [img | e] eqn:Hbody
    end; cbn [try_except].
    + split; [ discriminate | ]. split; [ lia | ].
      intros rgb_image _. split; [ lia | ]. revert Hbody.
      destruct (read (image self) (fst (fst bands_rgb))) as [red |];
        [ | discriminate ].
      destruct (read (image self) (snd (fst bands_rgb))) as [green |];
        [ | discriminate ].
      destruct (read (image self) (snd bands_rgb)) as [blue |];
        [ | discriminate ].
      intros _. exists red, green, blue. auto.
    + split.
      * intros e'. destruct e; cbn; intros H; now injection H as <-.
      * split; [ lia | ]. destruct e; discriminate.
Qed.

Lemma f32_max_same (x : float32) : f32_max x x = x.
Proof. unfold f32_max. destruct x; try reflexivity; now destruct (f32_ltb _ _). Qed.

Lemma f32_min_same (x : float32) : f32_min x x = x.
Proof. unfold f32_min. destruct x; try reflexivity; now destruct (f32_ltb _ _). Qed.

Lemma fold_left_same (f : float32 -> float32 -> float32) (x : float32)
  (l : list float32) :
  f x x = x -> (forall y, In y l -> y = x) -> fold_left f l x = x.
Proof.
  intros Hf. induction l as [| a l IH]; intros H; simpl; [ reflexivity | ].
  rewrite (H a) by now left. rewrite Hf. apply IH.
  intros y Hy. apply H. now right.
Qed.

Lemma f32_eqb_refl (x : float32) : x <> S754_nan -> f32_eqb x x = true.
Proof.
  intros Hx. unfold f32_eqb, SFeqb.
  destruct x as [s | s | | s m e]; [ reflexivity | now destruct s | contradiction | ].
  unfold SFcompare. rewrite Z.compare_refl, Pos.compare_cont_refl.
  now destruct s.
Qed.

(** X22.  The normalisation of [show_rgb] never divides by zero on a
    uniform band: when all the pixels of a band are one number (not NaN),
    the band is shown as zeros, of the same shape. *)
Theorem normalize_uniform_band :
  forall (b : Grid float32) (x : float32),
    x <> S754_nan -> flatten b <> [] ->
    (forall y, In y (flatten b) -> y = x) ->
    normalize_band b = Return (grid_map (fun _ => f32_zero) b)
    /\ (forall v, In v (flatten (grid_map (fun _ => f32_zero) b)) ->
          v = f32_zero)
    /\ shape (grid_map (fun _ => f32_zero) b) = shape b.
Proof.
  intros b x Hx Hne Hall.
  split; [ | split ].
  - unfold normalize_band, np_max, np_min.
    destruct (flatten b) as [| y rest]; [ contradiction | ].
    assert (Hy : y = x) by (apply Hall; now left). subst y.
    rewrite !fold_left_same;
      try (intros y Hy; apply Hall; now right);
      try apply f32_max_same; try apply f32_min_same.
    cbn [bind]. now rewrite f32_eqb_refl.
  - intros v Hv. apply In_flatten_grid_map in Hv. now destruct Hv as (_ & _ & ->).
  - apply shape_grid_map.
Qed.

Lemma read_flat_Return (self : t) (i : Z) (d : list float32) :
  read_flat self i = Return d ->
  exists g, read (image self) i = Return g /\ d = flatten g.
Proof.
  unfold read_flat. destruct (read (image self) i) as [g | e]; cbn.
  - intros H. injection H as <-. eauto.
  - destruct (is_RasterioIOError e); discriminate.
Qed.

(** X23.  What [show_rgb_hist] draws when it returns: the band numbers
    asked for do not exceed the band count; with the infrared switch on
    the raster has at least four bands and band 4 is drawn as a fourth
    series, after red, green and blue, so that the fall-back on three
    maxima is never taken; with the switch off there are three series,
    over the range 0..255. *)
Theorem show_rgb_hist_series :
  forall (self : t) (bands_rgb : Z * Z * Z) (show_infrared : bool)
         (h : rgb_histogram),
    show_rgb_hist self bands_rgb show_infrared = Return h ->
    Z.max (Z.max (fst (fst bands_rgb)) (snd (fst bands_rgb))) (snd bands_rgb)
      <= bandes self
    /\ exists red green blue,
         read (image self) (fst (fst bands_rgb)) = Return red
         /\ read (image self) (snd (fst bands_rgb)) = Return green
         /\ read (image self) (snd bands_rgb) = Return blue
         /\ fst (range_bins h) = f32_of_Z 0
         /\ if show_infrared then
              4 <= bandes self
              /\ exists infrared,
                   read (image self) 4 = Return infrared
                   /\ series h = [("Rouge", flatten red); ("Vert", flatten green);
                                  ("Bleu", flatten blue);
                                  ("Infrarouge", flatten infrared)]
            else
              series h = [("Rouge", flatten red); ("Vert", flatten green);
                          ("Bleu", flatten blue)]
              /\ range_bins h = (f32_of_Z 0, f32_of_Z 255).
Proof.
  intros self bands_rgb show_infrared h. unfold show_rgb_hist.
  set (m := Z.max (Z.max (fst (fst bands_rgb)) (snd (fst bands_rgb)))
              (snd bands_rgb)).
  destruct (Z.ltb_spec (bandes self)
              (if show_infrared then Z.max m 4 else m)) as [Hlt | Hge];
    [ discriminate | ].
  intros H.
  apply bind_Return_inv in H. destruct H as (dr & Hr & H).
  apply bind_Return_inv in H. destruct H as (dg & Hg & H).
  apply bind_Return_inv in H. destruct H as (db & Hbl & H).
  apply bind_Return_inv in H. destruct H as (di & Hi & H).
  apply bind_Return_inv in H. destruct H as (rb & Hrb & H).
  injection H as <-. cbn [series range_bins].
  apply read_flat_Return in Hr. destruct Hr as (red & Hred & ->).
  apply read_flat_Return in Hg. destruct Hg as (green & Hgreen & ->).
  apply read_flat_Return in Hbl. destruct Hbl as (blue & Hblue & ->).
  split; [ destruct show_infrared; lia | ].
  exists red, green, blue. repeat (split; [ assumption | ]).
  destruct show_infrared; cbn [negb andb] in *.
  - assert (H4 : (4 <=? bandes self) = true) by (apply Z.leb_le; lia).
    rewrite H4 in *.
    apply bind_Return_inv in Hi. destruct Hi as (d & Hd & Hi).
    injection Hi as <-.
    apply read_flat_Return in Hd. destruct Hd as (infrared & Hinf & ->).
    split.
    + apply bind_Return_inv in Hrb. destruct Hrb as (r & _ & Hrb).
      apply bind_Return_inv in Hrb. destruct Hrb as (g & _ & Hrb).
      apply bind_Return_inv in Hrb. destruct Hrb as (b & _ & Hrb).
      apply bind_Return_inv in Hrb. destruct Hrb as (i & _ & Hrb).
      now injection Hrb as <-.
    + split; [ lia | ]. exists infrared. split; [ exact Hinf | reflexivity ].
  - injection Hi as <-. injection Hrb as <-. auto.
Qed.

End SatImageReaderMore.

(* ===================================================================== *)
(** * The directories that hold rasters *)
(* ===================================================================== *)

Section SubfolderFacts.
Import Subfolder.

Lemma existsb_eqb_In (x : string) (set : list string) :
  existsb (String.eqb x) set = true <-> In x set.
Proof.
  rewrite existsb_exists. split.
  - intros (y & Hy & E). apply String.eqb_eq in E. now subst.
  - intros H. exists x. split; [ exact H | apply String.eqb_refl ].
Qed.

Lemma In_set_add (x y : string) (set : list string) :
  In y (set_add x set) <-> y = x \/ In y set.
Proof.
  unfold set_add. destruct (existsb (String.eqb x) set) eqn:E.
  - apply existsb_eqb_In in E. split; [ auto | ].
    intros [-> | H]; assumption.
  - rewrite in_app_iff. simpl. intuition.
Qed.

Lemma NoDup_set_add (x : string) (set : list string) :
  NoDup set -> NoDup (set_add x set).
Proof.
  intros H. unfold set_add. destruct (existsb (String.eqb x) set) eqn:E;
    [ exact H | ].
  apply NoDup_app; [ exact H | constructor; [ intros [] | constructor ] | ].
  intros y Hy [<- | []].
  apply existsb_eqb_In in Hy. congruence.
Qed.

Lemma NoDup_scan (lines : list string) (current_dir : option string)
  (set : list string) :
  NoDup set -> NoDup (scan lines current_dir set).
Proof.
  revert current_dir set. induction lines as [| line rest IH];
    intros cur set H; cbn [scan]; [ exact H | ].
  destruct (ends_with "/" (strip line)); [ now apply IH | ].
  destruct (ends_with ".tif" (strip line) && truthy cur); [ | now apply IH ].
  destruct cur; apply IH; [ now apply NoDup_set_add | exact H ].
Qed.

Lemma truthy_directory (d : string) :
  ends_with "/" d = true -> truthy (Some d) = true.
Proof. destruct d; [ discriminate | reflexivity ]. Qed.

Lemma tif_follows_cons (x : string) (rest : list string) :
  tif_follows (x :: rest) <->
  ends_with "/" (strip x) = false
  /\ (ends_with ".tif" (strip x) = true \/ tif_follows rest).
Proof.
  unfold tif_follows. split.
  - intros (before & tif & after & E & Hb & Hd & Ht).
    destruct before as [| y before]; simpl in E; injection E as -> ->.
    + auto.
    + split; [ apply Hb; now left | ]. right.
      exists before, tif, after. repeat split; auto.
      intros z Hz. apply Hb. now right.
  - intros [Hx [Ht | (before & tif & after & -> & Hb & Hd & Ht)]].
    + exists [], x, rest. repeat split; auto. intros z [].
    + exists (x :: before), tif, after. repeat split; auto.
      intros z [<- | Hz]; auto.
Qed.

Lemma holds_tif_cons (x : string) (rest : list string) (d : string) :
  holds_tif (x :: rest) d <->
  (strip x = d /\ ends_with "/" d = true /\ tif_follows rest)
  \/ holds_tif rest d.
Proof.
  unfold holds_tif. split.
  - intros (above & dir & below & E & Hs & Hd & Hf).
    destruct above as [| y above]; simpl in E; injection E as -> ->.
    + left. auto.
    + right. exists above, dir, below. auto.
  - intros [(Hs & Hd & Hf) | (above & dir & below & -> & Hs & Hd & Hf)].
    + exists [], x, rest. auto.
    + exists (x :: above), dir, below. auto.
Qed.

Lemma scan_spec (lines : list string) (current_dir : option string)
  (set : list string) (d : string) :
  In d (scan lines current_dir set) <->
  In d set
  \/ (current_dir = Some d /\ truthy current_dir = true /\ tif_follows lines)
  \/ holds_tif lines d.
Proof.
  revert current_dir set. induction lines as [| line rest IH];
    intros cur set; cbn [scan].
  - split; [ auto | ]. intros [H | [(_ & _ & H) | H]]; [ exact H | | ].
    + destruct H as (before & tif & after & E & _).
      now destruct before.
    + destruct H as (above & dir & below & E & _). now destruct above.
  - rewrite tif_follows_cons, holds_tif_cons.
    destruct (ends_with "/" (strip line)) eqn:Hdir.
    + rewrite IH. split.
      * intros [H | [(E & _ & Hf) | H]]; [ auto | | auto ].
        injection E as E. right. right. left. now rewrite <- E at 2.
      * intros [H | [(_ & _ & H & _) | [(E & Hd & Hf) | H]]];
          [ auto | discriminate | | auto ].
        right. left. subst d. split; [ reflexivity | ].
        split; [ now apply truthy_directory | exact Hf ].
    + assert (Hnot : ~ (strip line = d /\ ends_with "/" d = true
                        /\ tif_follows rest)).
      { intros (E & Hd & _). rewrite <- E in Hd. congruence. }
      destruct (ends_with ".tif" (strip line)) eqn:Htif; cbn [andb].
      * destruct (truthy cur) eqn:Hc.
        -- destruct cur as [c |]; [ | discriminate ].
           rewrite IH, In_set_add. split.
           ++ intros [[-> | H] | [(E & _ & _) | H]]; auto.
              ** right. left. auto.
              ** right. left. auto.
           ++ intros [H | [(E & _ & _) | [H | H]]];
                [ auto | | contradiction | auto ].
              injection E as ->. auto.
        -- rewrite IH. split.
           ++ intros [H | [(_ & E & _) | H]]; [ auto | congruence | auto ].
           ++ intros [H | [(_ & E & _) | [H | H]]];
                [ auto | congruence | contradiction | auto ].
      * rewrite IH. split.
        -- intros [H | [(E & Ht & Hf) | H]]; auto.
           right. left. auto.
        -- intros [H | [(E & Ht & _ & [Hf | Hf]) | [H | H]]];
             [ auto | discriminate | | contradiction | auto ].
           right. left. auto.
Qed.

Lemma utf8_encode_length (cp : Z) : (1 <= String.length (utf8_encode cp))%nat.
Proof.
  unfold utf8_encode.
  destruct (cp <? 128); [ simpl; lia | ].
  destruct (cp <? 2048); [ simpl; lia | ].
  destruct (cp <? 65536); simpl; lia.
Qed.

Lemma string_length_app (a b : string) :
  String.length (a ++ b) = (String.length a + String.length b)%nat.
Proof. induction a as [| c a IH]; simpl; [ reflexivity | now rewrite IH ]. Qed.

Lemma string_app_assoc (a b c : string) :
  ((a ++ b) ++ c = a ++ (b ++ c))%string.
Proof. induction a as [| x a IH]; simpl; [ reflexivity | now rewrite IH ]. Qed.

Lemma white_space_app (a b : string) :
  white_space a -> white_space b -> white_space (a ++ b).
Proof.
  induction 1 as [| cp rest Hcp Hsp Hrest IH]; intros Hb; [ exact Hb | ].
  rewrite string_app_assoc. constructor; auto.
Qed.

(** What [lstrip] leaves does not start with white space, and what it
    removes is white space. *)
Lemma lstrip_from_spec (fuel : nat) (s : string) :
  (String.length s <= fuel)%nat ->
  exists l,
    s = (l ++ lstrip_from fuel s)%string /\ white_space l
    /\ forall cp bytes rest,
         utf8_head (lstrip_from fuel s) = Some (cp, bytes, rest) ->
         is_space cp = false.
Proof.
  revert s. induction fuel as [| fuel IH]; intros s Hlen.
  - destruct s; [ | simpl in Hlen; lia ].
    exists EmptyString. split; [ reflexivity | ].
    split; [ constructor | discriminate ].
  - cbn [lstrip_from].
    destruct (utf8_head s) as [[[cp bytes] rest] |] eqn:Hhead.
    + destruct (is_space cp) eqn:Hsp.
      * apply utf8_head_spec in Hhead. destruct Hhead as (Hcp & -> & ->).
        assert (Hl := utf8_encode_length cp).
        rewrite string_length_app in Hlen.
        destruct (IH rest ltac:(lia)) as (l & E & Hl' & Hno).
        exists (utf8_encode cp ++ l)%string.
        split; [ rewrite string_app_assoc; now rewrite <- E | ].
        split; [ now constructor | exact Hno ].
      * exists EmptyString. split; [ reflexivity | ].
        split; [ constructor | ].
        intros cp' bytes' rest' H. rewrite Hhead in H.
        injection H as <- _ _. exact Hsp.
    + exists EmptyString. split; [ reflexivity | ].
      split; [ constructor | ]. intros cp' bytes' rest' H. congruence.
Qed.

Lemma lstrip_from_white (fuel : nat) (s : string) :
  (String.length s <= fuel)%nat -> white_space s ->
  lstrip_from fuel s = EmptyString.
Proof.
  revert s. induction fuel as [| fuel IH]; intros s Hlen Hs.
  - destruct s; [ reflexivity | simpl in Hlen; lia ].
  - destruct Hs as [| cp rest Hcp Hsp Hrest]; [ reflexivity | ].
    cbn [lstrip_from].
    rewrite (proj2 (utf8_head_spec _ cp (utf8_encode cp) rest))
      by (repeat split; auto).
    rewrite Hsp. apply IH; [ | exact Hrest ].
    assert (Hl := utf8_encode_length cp).
    rewrite string_length_app in Hlen. lia.
Qed.

Lemma lstrip_white (s : string) :
  lstrip s = EmptyString <-> white_space s.
Proof.
  unfold lstrip. split.
  - intros E. destruct (lstrip_from_spec (String.length s) s (le_n _))
      as (l & Hs & Hl & _).
    rewrite E in Hs. rewrite Hs. apply white_space_app; [ exact Hl | constructor ].
  - apply lstrip_from_white. apply le_n.
Qed.

(** What [rstrip] leaves does not end with white space, and what it
    removes is white space. *)
Lemma rstrip_spec (s : string) :
  exists r,
    s = (rstrip s ++ r)%string /\ white_space r
    /\ forall a b, rstrip s = (a ++ b)%string -> white_space b ->
                   b = EmptyString.
Proof.
  induction s as [| c rest IH].
  - exists EmptyString. split; [ reflexivity | ]. split; [ constructor | ].
    intros a b E _. destruct a; [ now symmetry | discriminate ].
  - cbn [rstrip]. destruct (String.eqb (lstrip (String c rest)) "") eqn:E.
    + apply String.eqb_eq, lstrip_white in E.
      exists (String c rest). split; [ reflexivity | ]. split; [ exact E | ].
      intros a b Hab _. destruct a; [ now symmetry | discriminate ].
    + apply String.eqb_neq in E.
      destruct IH as (r & Hs & Hr & Hno). exists r.
      split; [ simpl; now rewrite <- Hs | ]. split; [ exact Hr | ].
      intros a b Hab Hb. destruct a as [| x a].
      * simpl in Hab. exfalso. apply E. apply lstrip_white.
        rewrite Hs. change (String c (rstrip rest ++ r))
          with (String c (rstrip rest) ++ r)%string.
        rewrite Hab. now apply white_space_app.
      * simpl in Hab. injection Hab as _ Hab. now apply (Hno a b).
Qed.

(** [strip] removes the white space around a line, all of it and nothing
    else. *)
Lemma strip_spec (line : string) :
  exists l r,
    line = (l ++ strip line ++ r)%string /\ white_space l /\ white_space r
    /\ (forall cp rest,
          scalar_value cp -> is_space cp = true ->
          strip line <> (utf8_encode cp ++ rest)%string)
    /\ (forall a b, strip line = (a ++ b)%string -> white_space b ->
                    b = EmptyString).
Proof.
  unfold strip.
  destruct (lstrip_from_spec (String.length line) line (le_n _))
    as (l & Hl & Hwl & Hstart).
  fold (lstrip line) in Hl, Hstart.
  destruct (rstrip_spec (lstrip line)) as (r & Hr & Hwr & Hend).
  exists l, r. split; [ now rewrite <- Hr | ].
  split; [ exact Hwl | ]. split; [ exact Hwr | ]. split; [ | exact Hend ].
  intros cp rest Hcp Hsp E.
  rewrite E, string_app_assoc in Hr.
  assert (H := Hstart cp (utf8_encode cp) (rest ++ r)%string).
  rewrite H in Hsp; [ discriminate | ].
  apply utf8_head_spec. auto.
Qed.

Lemma strict_from_NoDup (l : list string) :
  StronglySorted (fun x y => is_true (String.leb x y)) l -> NoDup l ->
  StronglySorted (fun x y => String.ltb x y = true) l.
Proof.
  induction 1 as [| a l Hs IH Ha]; intros Hnd; constructor.
  - apply IH. now inversion Hnd.
  - inversion Hnd as [| ? ? Hnotin _]; subst.
    rewrite Forall_forall in *. intros y Hy. specialize (Ha y Hy).
    unfold String.leb in Ha. unfold String.ltb.
    destruct (String.compare a y) eqn:E; try reflexivity; try discriminate.
    apply String.compare_eq_iff in E. subst y. contradiction.
Qed.

(** X24.  The list that [subfolder.py] prints is in strictly ascending
    order, so that no directory comes twice, and each of its entries is a
    line of the file, stripped, that ends with ['/'].  Stripping a line
    removes the white space at both ends, all of it and nothing else,
    where white space is what [str.isspace] holds of: the tabulation, the
    end of a line and the space, and the no-break space U+00A0 and the
    ideographic space U+3000 as well. *)
Theorem directories_sorted :
  forall lines : list string,
    StronglySorted (fun x y => String.ltb x y = true) (directories lines)
    /\ NoDup (directories lines)
    /\ (forall d, In d (directories lines) ->
          ends_with "/" d = true
          /\ exists line, In line lines /\ d = strip line)
    /\ (forall line, In line lines ->
          exists l r,
            line = (l ++ strip line ++ r)%string
            /\ white_space l /\ white_space r
            /\ (forall cp rest,
                  scalar_value cp -> is_space cp = true ->
                  strip line <> (utf8_encode cp ++ rest)%string)
            /\ (forall a b, strip line = (a ++ b)%string -> white_space b ->
                            b = EmptyString))
    /\ (forall cp, 0 <= cp < 256 ->
          (is_space cp = true
           <-> 9 <= cp <= 13 \/ 28 <= cp <= 32 \/ cp = 133 \/ cp = 160))
    /\ strip (utf8_encode 12288 ++ "  a b/ " ++ utf8_encode 160 ++ newline)
       = "a b/"%string
    /\ directories
         [ ("d/" ++ utf8_encode 160 ++ newline)%string;
           ("x.tif" ++ newline)%string;
           (utf8_encode 160 ++ "e/" ++ newline)%string;
           ("y.tif" ++ utf8_encode 160 ++ newline)%string ]
       = ["d/"; "e/"]%string.
Proof.
  intros lines. unfold directories.
  assert (Hnd : NoDup (sorted (scan lines None []))).
  { apply (Permutation_NoDup (StringSort.Permuted_sort _)).
    apply NoDup_scan. constructor. }
  split; [ | split; [ exact Hnd | ] ].
  - apply strict_from_NoDup; [ apply StronglySorted_sorted | exact Hnd ].
  - split; [ | split; [ | split; [ | split ] ] ].
    + intros d Hd. apply In_sorted, scan_spec in Hd.
      destruct Hd as [[] | [(E & _) | (above & dir & below & -> & Hs & He & _)]];
        [ discriminate | ].
      split; [ exact He | ]. exists dir. split; [ | now symmetry ].
      apply in_or_app. right. now left.
    + intros line _. apply strip_spec.
    + intros cp Hcp. unfold is_space, in_ranges, space_ranges.
      cbn [existsb fst snd].
      rewrite !orb_true_iff, !andb_true_iff, !Z.leb_le. lia.
    + vm_compute. reflexivity.
    + vm_compute. reflexivity.
Qed.

(** X25.  A directory is in the list that [subfolder.py] prints exactly
    when, below its line, the line of a [.tif] file comes before the
    line of any other directory: the files are counted for the directory
    named last, and a [.tif] line above the first directory counts for
    none. *)
Theorem directories_spec :
  forall (lines : list string) (d : string),
    In d (directories lines) <-> holds_tif lines d.
Proof.
  intros lines d. unfold directories. rewrite In_sorted, scan_spec.
  split; [ | auto ].
  intros [[] | [(E & _) | H]]; [ discriminate | exact H ].
Qed.

End SubfolderFacts.

(* ===================================================================== *)
(** * Samples that are no numbers *)
(* ===================================================================== *)

Section NotANumber.
Import GroundTruth.

Lemma fold_add_nan (l : list float32) (acc : float32) :
  acc = S754_nan \/ In S754_nan l -> fold_left f32_add l acc = S754_nan.
Proof.
  revert acc. induction l as [| a l IH]; intros acc; simpl.
  - intros [H | []]. exact H.
  - intros [-> | [-> | H]]; apply IH; auto.
    left. now destruct acc.
Qed.

Lemma fold_max_nan (l : list float32) (acc : float32) :
  acc = S754_nan \/ In S754_nan l -> fold_left f32_max l acc = S754_nan.
Proof.
  revert acc. induction l as [| a l IH]; intros acc; simpl.
  - intros [H | []]. exact H.
  - intros [-> | [-> | H]]; apply IH; auto.
    left. now destruct acc.
Qed.

Lemma f32_sum_nan (l : list float32) : In S754_nan l -> f32_sum l = S754_nan.
Proof.
  destruct l as [| x rest]; [ intros [] | ].
  intros [-> | H]; apply fold_add_nan; auto.
Qed.

(** X27.  In binary32, one NaN pixel makes the percentage of the band
    NaN: the sum is NaN, which does not compare equal to zero, the
    maximum is NaN, and every pixel divided by it is NaN. *)
Theorem coverage_of_nan_is_nan :
  forall band : Grid float32,
    In S754_nan (flatten band) ->
    np_sum band = S754_nan
    /\ np_max band = Return S754_nan
    /\ coverage_statistic band = Return S754_nan.
Proof.
  intros band Hnan.
  assert (Hsum : np_sum band = S754_nan) by now apply f32_sum_nan.
  assert (Hmax : np_max band = Return S754_nan).
  { unfold np_max. destruct (flatten band) as [| x rest]; [ destruct Hnan | ].
    f_equal. apply fold_max_nan. destruct Hnan; auto. }
  split; [ exact Hsum | ]. split; [ exact Hmax | ].
  unfold coverage_statistic. rewrite Hsum, Hmax. cbn [bind].
  change (num_eqb S754_nan (num_of_int 0)) with false. cbn [negb].
  assert (Hnorm : np_sum (grid_map (fun x : float32 => num_div x S754_nan) band)
                  = S754_nan).
  { unfold np_sum. rewrite flatten_grid_map. apply f32_sum_nan.
    apply in_map_iff. exists S754_nan. split; [ reflexivity | exact Hnan ]. }
  rewrite Hnorm. reflexivity.
Qed.

End NotANumber.

Section NotANumberNdvi.
Import SatImageReader.

Lemma ndvi_pixel_not_finite (red nir : float32) :
  is_finite red = false \/ is_finite nir = false ->
  ndvi_pixel red nir = S754_nan.
Proof.
  unfold ndvi_pixel, f32_add, f32_sub, f32_div, f32_eqb.
  destruct red as [sr | sr | | sr mr er], nir as [sn | sn | | sn mn en];
    cbn [is_finite]; intros [H | H]; try discriminate;
    try destruct sr; try destruct sn; reflexivity.
Qed.

(** X28.  The zero-denominator rule of [calculate_ndvi] does not make
    the NDVI finite: wherever the red or the near-infrared sample is NaN
    or infinite the pixel of the NDVI is NaN, and a thresholded mask
    holds 0 there. *)
Theorem ndvi_of_non_finite_is_nan :
  forall (self : t) (red_band_index nir_band_index : Z) (red nir : Grid float32),
    bandes self = count (image self) ->
    read (image self) red_band_index = Return red ->
    read (image self) nir_band_index = Return nir ->
    exists ndvi,
      calculate_ndvi self red_band_index nir_band_index = Return (Some ndvi)
      /\ ndvi = grid_map2 (fun n r => ndvi_pixel r n) nir red
      /\ (forall r n, is_finite r = false \/ is_finite n = false ->
            ndvi_pixel r n = S754_nan)
      /\ ((forall r, In r (flatten red) -> is_finite r = false) ->
          forall v, In v (flatten ndvi) -> v = S754_nan)
      /\ (forall threshold, f32_ltb threshold S754_nan = false).
Proof.
  intros self ri ni red nir Hb Hred Hnir.
  eexists. split; [ exact (calculate_ndvi_readable _ _ _ _ _ Hb Hred Hnir) | ].
  split; [ reflexivity | ]. split; [ exact ndvi_pixel_not_finite | ]. split.
  - intros Hall v Hv. apply In_flatten_grid_map2 in Hv.
    destruct Hv as (n & r & _ & Hr & ->).
    apply ndvi_pixel_not_finite. left. now apply Hall.
  - intros th. now destruct th.
Qed.

End NotANumberNdvi.

(* ===================================================================== *)
(** * The theorems on sample data *)
(* ===================================================================== *)

Section Witnesses.
Local Open Scope Q_scope.

Lemma three_bands_readable : all_readable three_bands.
Proof.
  intros b Hb. simpl in Hb.
  repeat (destruct Hb as [<- | Hb]; [ discriminate | ]). contradiction.
Defined.


Lemma detect_classes_spec_witness :
  ClassesReader.init dated_fs "classes.tif" = Return classes_reader
  /\ all_readable (ClassesReader.image classes_reader)
  /\ ClassesReader.detect_classes classes_reader = Return [2%Z].
Proof.
  split; [ reflexivity | ]. split; [ exact three_bands_readable | ].
  destruct (detect_classes_spec dated_fs "classes.tif" classes_reader eq_refl
              three_bands_readable) as (classes & Hd & _ & _ & Hex).
  rewrite Hd. f_equal.
  apply (Hex (uniform 0) [[0; 1]; [0; 0]] (uniform 0)); reflexivity.
Defined.

Lemma half_mask_rectangular : rectangular half_mask.
Proof.
  intros row Hrow. simpl in Hrow.
  destruct Hrow as [<- | [<- | []]]; reflexivity.
Defined.

Lemma half_mask_finite :
  forall x, In x (flatten half_mask) -> SatImageReader.nonneg_finite x.
Proof.
  intros x Hx. simpl in Hx.
  destruct Hx as [<- | [<- | [<- | [<- | []]]]]; vm_compute; auto.
Defined.

Lemma half_mask_size : (fst (shape half_mask) * snd (shape half_mask) <= 2 ^ 24)%Z.
Proof. vm_compute. discriminate. Defined.

Lemma coverage_in_range_witness :
  exists pc q,
    GroundTruth.coverage_statistic half_mask = Return pc
    /\ SatImageReader.f32_value pc = Some q /\ 0 <= q <= 100.
Proof.
  exact (coverage_in_range f32_sum f32_sum_summation half_mask
           half_mask_rectangular half_mask_finite half_mask_size).
Defined.

Lemma coverage_zero_on_zero_sum_witness :
  num_eqb (GroundTruth.np_sum [[f32_of_Z 1; f32_of_Z (-1)]]) (num_of_int 0) = true
  /\ GroundTruth.coverage_statistic [[f32_of_Z 1; f32_of_Z (-1)]]
     = Return f32_zero.
Proof.
  split; [ reflexivity | ].
  exact (proj1 coverage_zero_on_zero_sum float32 binary32
           [[f32_of_Z 1; f32_of_Z (-1)]] eq_refl).
Defined.


Lemma dated_names_no_slash :
  forall f,
    In f ["scene_2020-05-12_v1.tif"; "scene.tif"; "notes.txt";
          "scene_2019_01_31.tif"]%string ->
    has_slash f = false.
Proof.
  intros f Hf. simpl in Hf.
  repeat (destruct Hf as [<- | Hf]; [ reflexivity | ]). contradiction.
Defined.

Lemma date_label_spec_witness :
  exists evol_matrix dates,
    listdir dated_fs "data"
    = Return ["scene_2020-05-12_v1.tif"; "scene.tif"; "notes.txt";
              "scene_2019_01_31.tif"]%string
    /\ GroundTruth.mask_evolution dated_fs "data" = Return (evol_matrix, dates)
    /\ length evol_matrix = 3%nat
    /\ dates = ["2019-01-31"; "2020-05-12"]%string.
Proof.
  eexists. eexists. split; [ reflexivity | ].
  split; [ vm_compute; reflexivity | ].
  split; [ | reflexivity ].
  match goal with
  | |- length ?m = _ =>
      destruct (proj2 (proj2 (proj2 (proj2 (proj2 (proj2 (proj2 (proj2 (proj2 (proj2
              date_label_spec)))))))))
                  Q exact dated_fs "data"%string _ m _ eq_refl
                  dated_names_no_slash ltac:(vm_compute; reflexivity))
        as (files & Hperm & _ & Hlen & _)
  end.
  rewrite Hlen, <- (Permutation_length Hperm). reflexivity.
Defined.

Lemma evolution_matrix_rows_witness :
  exists evol_matrix dates,
    GroundTruth.mask_evolution dated_fs "data" = Return (evol_matrix, dates)
    /\ length evol_matrix = 3%nat
    /\ forall row, In row evol_matrix -> length row = 7%nat.
Proof.
  eexists. eexists. split; [ vm_compute; reflexivity | ].
  destruct (evolution_matrix_rows Q exact dated_fs "data"%string _ _ _ eq_refl
              dated_names_no_slash eq_refl)
    as (files & rows & _ & _ & _ & _ & Hlen & Hrows).
  split; [ exact Hlen | exact Hrows ].
Defined.

Lemma folder_failure_isolated_witness :
  listdir broken_fs "data" = Return ["b.tif"; "a.tif"]%string
  /\ In "data/a.tif"%string
       (GroundTruth.tif_files "data" ["b.tif"; "a.tif"]%string)
  /\ GroundTruth.file_row broken_fs "data/a.tif" = Raise RasterioIOError
  /\ exists failing cause,
       GroundTruth.mask_evolution broken_fs "data" = Raise cause
       /\ GroundTruth.file_row broken_fs failing = Raise cause.
Proof.
  assert (Hin : In "data/a.tif"%string
                  (GroundTruth.tif_files "data" ["b.tif"; "a.tif"]%string))
    by (vm_compute; auto).
  split; [ reflexivity | ]. split; [ exact Hin | ]. split; [ reflexivity | ].
  destruct (folder_failure_isolated Q exact (fun _ _ _ => Return tt)
              (fun _ _ _ => Return tt) broken_fs "data"%string
              ["b.tif"; "a.tif"]%string "data/a.tif"%string RasterioIOError
              ["next"]%string eq_refl Hin eq_refl)
    as (before & failing & after & cause & _ & _ & Hrow & Hmask & _).
  exists failing, cause. split; assumption.
Defined.

Lemma insufficient_bands_none_witness :
  (SatImageReader.bandes three_band_image < Z.max 3 4)%Z
  /\ SatImageReader.calculate_ndvi three_band_image 3 4 = Return None
  /\ SatImageReader.show_ndvi three_band_image 3 4 None = Raise SystemExit.
Proof.
  split; [ reflexivity | ].
  apply (insufficient_bands_none three_band_image 3 4 None). reflexivity.
Defined.

Lemma ndvi_in_unit_interval_witness :
  SatImageReader.bandes flat_image = count (SatImageReader.image flat_image)
  /\ exists ndvi,
       SatImageReader.calculate_ndvi flat_image 3 4 = Return (Some ndvi)
       /\ ndvi = [[f32_zero; f32_zero]]
       /\ forall v, In v (flatten ndvi) -> SatImageReader.in_unit_interval v.
Proof.
  split; [ reflexivity | ].
  destruct (ndvi_in_unit_interval flat_image 3 4
              [[f32_of_Z 0; f32_of_Z 2]]
              [[f32_of_Z 0; f32_of_Z 2]]
              eq_refl eq_refl eq_refl) as (ndvi & Hc & Hform & Hrange).
  exists ndvi. split; [ exact Hc | ]. split.
  - rewrite Hform. reflexivity.
  - apply Hrange; intros x Hx; simpl in Hx;
      repeat (destruct Hx as [<- | Hx]; [ vm_compute; auto | ]); contradiction.
Defined.

End Witnesses.

(* ===================================================================== *)
(** * The further theorems on sample data *)
(* ===================================================================== *)

Section MoreWitnesses.
Local Open Scope Q_scope.

Lemma invert_round_trip_witness :
  dict_find Z.eqb
    (ClassesReader.invert [("a", 1); ("b", 2); ("c", 1)]%Z%string) 1%Z
  = Some "c"%string.
Proof.
  exact (proj1 (invert_round_trip [("a", 1); ("b", 2); ("c", 1)]%Z%string)
           [("a", 1); ("b", 2)]%Z%string "c"%string 1%Z [] eq_refl (fun H => H)).
Defined.

Lemma classes_show_band_guard_witness :
  ClassesReader.init dated_fs "classes.tif" = Return classes_reader
  /\ ClassesReader.show_band classes_reader 4 = Raise SystemExit
  /\ ClassesReader.show_band classes_reader 2 = Return [[0; 1]; [0; 0]].
Proof.
  split; [ reflexivity | ].
  destruct (classes_show_band_guard dated_fs "classes.tif" classes_reader 4%Z
              eq_refl) as (H4 & _).
  destruct (classes_show_band_guard dated_fs "classes.tif" classes_reader 2%Z
              eq_refl) as (_ & H2 & _).
  split; [ apply H4; right; reflexivity | ].
  rewrite H2; [ reflexivity | vm_compute; split; discriminate ].
Defined.

Lemma show_class_reads_first_witness :
  ClassesReader.init dated_fs "classes.tif" = Return classes_reader
  /\ ClassesReader.show_class classes_reader 9 = Raise IndexError.
Proof.
  split; [ reflexivity | ].
  apply (proj1 (show_class_reads_first dated_fs "classes.tif" classes_reader 9%Z
                  eq_refl)).
  right. reflexivity.
Defined.

Lemma show_class_list_spec_witness :
  ClassesReader.detect_classes classes_reader = Return [2%Z]
  /\ exists out,
       ClassesReader.show_class_list (fun _ => Return tt) classes_reader None
       = Return out
       /\ length (fst out) = 1%nat.
Proof.
  split; [ reflexivity | ].
  exact (proj2 (show_class_list_spec (fun _ => Return tt) classes_reader)
           [2%Z] eq_refl eq_refl).
Defined.

Lemma detect_classes_damaged_band_witness :
  exists self,
    ClassesReader.init damaged_fs "damaged.tif" = Return self
    /\ In Corrupt (bands (ClassesReader.image self))
    /\ ClassesReader.detect_classes self = Raise RasterioIOError.
Proof.
  eexists. split; [ reflexivity | ].
  assert (Hin : In (@Corrupt Q) [Readable (uniform 0); Corrupt])
    by (right; left; reflexivity).
  split; [ exact Hin | ].
  exact (proj2 (proj1 (detect_classes_damaged_band damaged_fs "damaged.tif" _
                         eq_refl)) Hin).
Defined.


Lemma mask_coverage_is_share_witness :
  GroundTruth.coverage_statistic third_mask
  = Return (S754_finite false 8738134 (-18))
  /\ GroundTruth.coverage_statistic half_mask = Return (f32_of_Z 50).
Proof.
  split.
  - refine (mask_coverage_is_share f32_sum f32_sum_summation third_mask
              (f32_of_Z 1) _ _ _ eq_refl _).
    + intros row [<- | []]. reflexivity.
    + vm_compute. discriminate.
    + reflexivity.
    + intros x Hx. simpl in Hx.
      destruct Hx as [<- | [<- | [<- | []]]];
        (left; reflexivity) || (right; reflexivity).
  - refine (mask_coverage_is_share f32_sum f32_sum_summation half_mask
              (f32_of_Z 255) half_mask_rectangular half_mask_size _ eq_refl _).
    + reflexivity.
    + intros x Hx. simpl in Hx.
      destruct Hx as [<- | [<- | [<- | [<- | []]]]];
        (left; reflexivity) || (right; reflexivity).
Defined.

Lemma eighth_band_ignored_witness :
  GroundTruth.mask_evolution dated_fs "data"
  = GroundTruth.mask_evolution eight_fs "data".
Proof.
  apply eighth_band_ignored; [ reflexivity | ].
  intros p _. unfold dated_fs, eight_fs, make_fs, open. cbn [dict_find].
  repeat match goal with
         | |- context [String.eqb ?k p] => destruct (String.eqb k p)
         end; reflexivity.
Defined.

Lemma listing_order_irrelevant_witness :
  GroundTruth.mask_evolution dated_fs "data"
  = GroundTruth.mask_evolution shuffled_fs "data".
Proof.
  apply (@listing_order_irrelevant Q exact dated_fs shuffled_fs "data"%string
           ["scene_2020-05-12_v1.tif"; "scene.tif"; "notes.txt";
            "scene_2019_01_31.tif"]%string
           ["scene_2019_01_31.tif"; "readme.md"; "scene.tif";
            "scene_2020-05-12_v1.tif"]%string
           eq_refl eq_refl).
  - apply (Permutation_rev ["scene_2020-05-12_v1.tif"; "scene.tif";
                            "scene_2019_01_31.tif"]%string).
  - intros p. reflexivity.
Defined.

Lemma sample_bands_readable :
  all_readable seven_bands /\ all_readable five_bands.
Proof.
  split; intros b Hb; simpl in Hb;
    repeat (destruct Hb as [<- | Hb]; [ discriminate | ]); contradiction.
Defined.

Lemma short_fs_opens :
  forall p, In p (GroundTruth.tif_files "data" ["a.tif"; "b.tif"]%string) ->
    exists src, open short_fs p = Return src /\ all_readable src.
Proof.
  intros p Hp. vm_compute in Hp.
  destruct Hp as [<- | [<- | []]]; eexists;
    (split; [ reflexivity | apply sample_bands_readable ]).
Defined.

Lemma seven_bands_needed_witness :
  listdir short_fs "data" = Return ["a.tif"; "b.tif"]%string
  /\ open short_fs "data/b.tif" = Return five_bands
  /\ (count five_bands < 7)%Z
  /\ GroundTruth.mask_evolution short_fs "data" = Raise IndexError.
Proof.
  split; [ reflexivity | ]. split; [ reflexivity | ]. split; [ reflexivity | ].
  apply (proj2 (@seven_bands_needed Q exact eq_refl short_fs "data"%string
                  ["a.tif"; "b.tif"]%string eq_refl short_fs_opens)).
  exists "data/b.tif"%string, five_bands.
  split; [ right; left; reflexivity | ]. split; reflexivity.
Defined.

Lemma dates_line_up_iff_witness :
  exists evol_matrix dates,
    GroundTruth.mask_evolution dated_fs "data" = Return (evol_matrix, dates)
    /\ (length dates < length evol_matrix)%nat.
Proof.
  eexists. eexists. split; [ vm_compute; reflexivity | ].
  match goal with
  | |- (length ?d < length ?m)%nat =>
      apply (proj2 (@dates_line_up_iff Q exact dated_fs "data"%string _ m d eq_refl
                      ltac:(vm_compute; reflexivity)))
  end.
  discriminate.
Defined.

Lemma checked_frame_fits :
  forall data columns index,
    length index <> length data ->
    checked_frame data columns index = Raise ValueError.
Proof.
  intros data columns index H. unfold checked_frame.
  apply Nat.eqb_neq in H. now rewrite H.
Defined.

Lemma undated_file_fails_folder_witness :
  In "data/scene.tif"%string
    (GroundTruth.tif_files "data"
       ["scene_2020-05-12_v1.tif"; "scene.tif"; "notes.txt";
        "scene_2019_01_31.tif"]%string)
  /\ GroundTruth.date_label (os_path_basename "data/scene.tif") = None
  /\ GroundTruth.main
       (GroundTruth.store_mask_evol checked_frame (fun _ _ => Return tt))
       (fun _ _ _ => Return tt) dated_fs ["data"]%string
     = (Return tt,
        [GroundTruth.ProcessingFolder "data";
         GroundTruth.FolderError "data" ValueError]).
Proof.
  assert (Hin : In "data/scene.tif"%string
                  (GroundTruth.tif_files "data"
                     ["scene_2020-05-12_v1.tif"; "scene.tif"; "notes.txt";
                      "scene_2019_01_31.tif"]%string))
    by (vm_compute; auto).
  split; [ exact Hin | ]. split; [ reflexivity | ].
  destruct (GroundTruth.mask_evolution dated_fs "data")
    as [[evol_matrix dates] | e] eqn:Hm; [ | vm_compute in Hm; discriminate ].
  exact (proj2 (@undated_file_fails_folder Q exact checked_frame
                  (fun _ _ => Return tt) (fun _ _ _ => Return tt)
                  checked_frame_fits dated_fs "data"%string _ evol_matrix dates
                  [] eq_refl Hm
                  (ex_intro _ "data/scene.tif"%string (conj Hin eq_refl)))).
Defined.



Lemma date_label_is_a_date_witness :
  GroundTruth.date_label "scene_2019_01_31.tif" = Some "2019-01-31"%string
  /\ GroundTruth.date_label "2019-01-31" = Some "2019-01-31"%string.
Proof.
  split; [ reflexivity | ].
  apply (date_label_is_a_date "scene_2019_01_31.tif" "2019-01-31" eq_refl).
Defined.

Lemma thresholded_ndvi_is_binary_witness :
  SatImageReader.show_ndvi signed_image 3 4 (Some (f32_of_Z 1))
  = Return (inr [[1%Z]])
  /\ forall b, In b (flatten [[1%Z]]) -> b = 0%Z \/ b = 1%Z.
Proof.
  split; [ reflexivity | ].
  destruct (thresholded_ndvi_is_binary signed_image 3 4 (f32_of_Z 1)
              (inr [[1%Z]]) eq_refl) as (ndvi & mask & _ & E & _ & H & _).
  injection E as E. rewrite E. exact H.
Defined.

Lemma calculate_ndvi_none_iff_witness :
  SatImageReader.init image_fs "damaged.tif" = Return damaged_image
  /\ read (SatImageReader.image damaged_image) 4 = Raise RasterioIOError
  /\ SatImageReader.calculate_ndvi damaged_image 3 4 = Return None.
Proof.
  split; [ reflexivity | ]. split; [ reflexivity | ].
  apply (proj2 (calculate_ndvi_none_iff image_fs "damaged.tif" damaged_image
                  3%Z 4%Z eq_refl ltac:(discriminate) ltac:(discriminate))).
  right. right. reflexivity.
Defined.

Lemma calculate_ndvi_index_below_one_witness :
  (Z.max 0 4 <= SatImageReader.bandes flat_image)%Z
  /\ SatImageReader.calculate_ndvi flat_image 0 4 = Raise IndexError.
Proof.
  split; [ discriminate | ].
  apply (calculate_ndvi_index_below_one flat_image 0%Z 4%Z None).
  - discriminate.
  - left. reflexivity.
Defined.

Lemma ndvi_keeps_shape_witness :
  exists ndvi,
    SatImageReader.calculate_ndvi flat_image 3 4 = Return (Some ndvi)
    /\ length ndvi = 1%nat.
Proof.
  destruct (ndvi_keeps_shape flat_image 3 4
              [[f32_of_Z 0; f32_of_Z 2]] [[f32_of_Z 0; f32_of_Z 2]]
              eq_refl eq_refl eq_refl)
    as (ndvi & Hc & Hlen & _).
  - constructor; [ reflexivity | constructor ].
  - exists ndvi. split; [ exact Hc | exact Hlen ].
Defined.

Lemma ndvi_of_same_band_is_zero_witness :
  read (SatImageReader.image signed_image) 3 = Return [[f32_of_Z (-1)]]
  /\ exists ndvi,
       SatImageReader.calculate_ndvi signed_image 3 3 = Return (Some ndvi)
       /\ forall v, In v (flatten ndvi) -> exists s, v = S754_zero s.
Proof.
  split; [ reflexivity | ].
  destruct (ndvi_of_same_band_is_zero signed_image 3 [[f32_of_Z (-1)]]
              eq_refl eq_refl) as (ndvi & Hc & _ & Hz).
  - intros x Hx. simpl in Hx. destruct Hx as [<- | []]. reflexivity.
  - exists ndvi. split; [ exact Hc | exact Hz ].
Defined.


Lemma show_rgb_exits_witness :
  (SatImageReader.bandes two_band_image < 3)%Z
  /\ SatImageReader.show_rgb two_band_image (1, 1, 1)%Z = Raise SystemExit.
Proof.
  split; [ reflexivity | ].
  apply (proj1 (proj2 (show_rgb_exits two_band_image (1, 1, 1)%Z))).
  reflexivity.
Defined.

Lemma normalize_uniform_band_witness :
  SatImageReader.normalize_band [[f32_of_Z 7; f32_of_Z 7]]
  = Return [[f32_zero; f32_zero]].
Proof.
  apply (proj1 (normalize_uniform_band [[f32_of_Z 7; f32_of_Z 7]] (f32_of_Z 7)
                  ltac:(discriminate) ltac:(discriminate)
                  (fun y Hy =>
                     match Hy with
                     | or_introl E => eq_sym E
                     | or_intror (or_introl E) => eq_sym E
                     | or_intror (or_intror F) => match F with end
                     end))).
Defined.

Lemma show_rgb_hist_series_witness :
  exists h,
    SatImageReader.show_rgb_hist flat_image (3, 2, 1)%Z true = Return h
    /\ length (SatImageReader.series h) = 4%nat.
Proof.
  eexists. split; [ reflexivity | ].
  destruct (show_rgb_hist_series flat_image (3, 2, 1)%Z true _ eq_refl)
    as (_ & red & green & blue & _ & _ & _ & _ & _ & infrared & _ & E).
  rewrite E. reflexivity.
Defined.

Lemma directories_sorted_witness :
  Subfolder.directories tree_lines = ["b/"; "c/"]%string
  /\ ends_with "/" "b/" = true.
Proof.
  split; [ reflexivity | ].
  apply (proj1 (proj2 (proj2 (directories_sorted tree_lines))) "b/"%string).
  left. reflexivity.
Defined.

Lemma directories_spec_witness :
  holds_tif tree_lines "c/" /\ ~ holds_tif tree_lines "a/".
Proof.
  split.
  - apply (proj1 (directories_spec tree_lines "c/"%string)).
    right. left. reflexivity.
  - intros H. apply (proj2 (directories_spec tree_lines "a/"%string)) in H.
    destruct H as [H | [H | []]]; discriminate.
Defined.

Lemma coverage_of_nan_is_nan_witness :
  GroundTruth.coverage_statistic [[f32_of_Z 1; S754_nan]] = Return S754_nan.
Proof.
  apply (coverage_of_nan_is_nan [[f32_of_Z 1; S754_nan]]).
  right. left. reflexivity.
Defined.

Lemma ndvi_of_non_finite_is_nan_witness :
  SatImageReader.calculate_ndvi nan_image 3 4 = Return (Some [[S754_nan]]).
Proof.
  destruct (ndvi_of_non_finite_is_nan nan_image 3 4 [[S754_nan]] [[f32_of_Z 3]]
              eq_refl eq_refl eq_refl) as (ndvi & Hc & -> & _).
  exact Hc.
Defined.

End MoreWitnesses.
